(** * Over-Engineered Othello: the board, the capture scan, the move
      generator, the turn loop and the heuristic move selector.

    The C++ program keeps the board in a [std::map] from [(row, col)] pairs
    to squares, capture sets in [std::set]s of pairs and the legal moves in
    a [std::map] from a position to its capture set.  They are modelled by
    [gmap] and [gset]; wherever the program walks a container from
    [begin()] to [end()] the model walks it in ascending key order
    ([map_entries], [set_entries]).

    The coordinates and the sizes of the board are modelled in [Z]; they
    stay between [-1] and the size of the board.  Where the program
    computes on an [int] that the board does not bound, the model keeps the
    range of [int]: the decrement of a typed number ([int_decr]), the
    product of the size with itself ([int_mul]) and the conversion of a
    count to [int] ([to_int]).

    Exceptions are the constructors of [exn]; a method that mutates the
    board returns the board as it stands when the method is left, together
    with its outcome, so that a throw keeps the writes made before it. *)

From stdpp Require Import gmap list sorting strings.
From Stdlib Require Import ZArith Lia Ascii.

Local Open Scope Z_scope.
#[local] Set Warnings "-clear-no-such-hyp".

(** ** Outcomes of a call *)

Inductive exn : Type :=
  | OutOfRange        (* std::out_of_range, thrown by map::at *)
  | SquareOccupied    (* runtime_error "square is already occupied." *)
  | FlipEmpty         (* runtime_error "cannot flip an empty square." *)
  | InvalidSize.      (* invalid_argument "Board size must be at least 4." *)

(** [Diverge] stands for a loop that never leaves, [Undefined] for a call
    the C++ standard gives no meaning to (a remainder by zero, [top()] of
    an empty queue, a signed overflow). *)
Inductive outcome (A : Type) : Type :=
  | Return (a : A)
  | Throw (e : exn)
  | Diverge
  | Undefined.
Arguments Return {A} a.
Arguments Throw {A} e.
Arguments Diverge {A}.
Arguments Undefined {A}.

Definition obind {A B} (m : outcome A) (k : A → outcome B) : outcome B :=
  match m with
  | Return a => k a
  | Throw e => Throw e
  | Diverge => Diverge
  | Undefined => Undefined
  end.

Notation "'do' x <- m ; k" := (obind m (λ x, k))
  (at level 10, x name, m at level 100, k at level 200).

(** ** The range of [int] *)

Definition int_min : Z := -2147483648.
Definition int_max : Z := 2147483647.

(** [x -= 1] on an [int]: a result below the least [int] is a signed
    overflow; a result above the greatest one cannot happen. *)
Definition int_decr (x : Z) : outcome Z :=
  if int_min <=? x - 1 then Return (x - 1) else Undefined.

(** [x * y] on two [int]s: a product outside the range is a signed
    overflow. *)
Definition int_mul (x y : Z) : outcome Z :=
  if (int_min <=? x * y) && (x * y <=? int_max) then Return (x * y)
  else Undefined.

(** Conversion of a wider integer to [int]: the value modulo [2^32]. *)
Definition to_int (z : Z) : Z := (z - int_min) `mod` 2 ^ 32 + int_min.

(** Conversion of an [int] to [std::size_t] (64 bits). *)
Definition to_size_t (z : Z) : Z := z `mod` 2 ^ 64.

(** Left-to-right loop over a list with an accumulator, leaving at the
    first throw. *)
Fixpoint for_acc {A B} (f : B → A → outcome B) (l : list A) (acc : B) : outcome B :=
  match l with
  | [] => Return acc
  | x :: l' => do acc' <- f acc x; for_acc f l' acc'
  end.

(** A method that mutates a state [S]. *)
Definition Eff (S A : Type) : Type := S → S * outcome A.

Definition eret {S A} (a : A) : Eff S A := λ s, (s, Return a).

Definition ebind {S A B} (m : Eff S A) (k : A → Eff S B) : Eff S B :=
  λ s, match m s with
       | (s', Return a) => k a s'
       | (s', Throw e) => (s', Throw e)
       | (s', Diverge) => (s', Diverge)
       | (s', Undefined) => (s', Undefined)
       end.

Notation "m ;;; k" := (ebind m (λ _, k))
  (at level 100, k at level 200, right associativity).

(** [std::for_each]. *)
Fixpoint for_each {S A} (l : list A) (f : A → Eff S unit) : Eff S unit :=
  match l with
  | [] => eret tt
  | x :: l' => f x ;;; for_each l' f
  end.

(** [try { body } catch (const std::exception&) { ... }] where the handler
    only writes to [std::cerr]. *)
Definition try_catch {S} (body : Eff S unit) : Eff S unit :=
  λ s, match body s with
       | (s', Throw _) => (s', Return tt)
       | r => r
       end.

(** ** Containers in iteration order *)

Abbreviation Position := (Z * Z)%type.

(** [operator<] of [std::pair<int,int>], as a non-strict order. *)
Definition pair_le (p q : Position) : Prop :=
  p.1 < q.1 ∨ (p.1 = q.1 ∧ p.2 ≤ q.2).

Definition key_le {A} (x y : Position * A) : Prop := pair_le x.1 y.1.

#[global] Instance pair_le_dec : RelDecision pair_le.
Proof. intros p q. unfold pair_le. apply _. Defined.

#[global] Instance key_le_dec {A} : RelDecision (@key_le A).
Proof. intros x y. unfold key_le. apply _. Defined.

(** The entries of a [std::map] keyed by positions, from [begin()] to
    [end()]. *)
Definition map_entries {A} (m : gmap Position A) : list (Position * A) :=
  merge_sort key_le (map_to_list m).

(** The elements of a [std::set] of positions, from [begin()] to [end()]. *)
Definition set_entries (s : gset Position) : list Position :=
  merge_sort pair_le (elements s).

(** ** BoardSquare *)

Record BoardSquare : Type := mkSquare { value : Z }.

Definition BoardSquare_new : BoardSquare := mkSquare 0.

Definition setPiece (player : Z) (sq : BoardSquare) : outcome BoardSquare :=
  if negb (value sq =? 0) then Throw SquareOccupied
  else Return (mkSquare player).

Definition flipPiece (sq : BoardSquare) : outcome BoardSquare :=
  if value sq =? 0 then Throw FlipEmpty
  else Return (mkSquare (if value sq =? 1 then 2 else 1)).

Definition getValue (sq : BoardSquare) : Z := value sq.

Definition isEmpty (sq : BoardSquare) : bool := value sq =? 0.

(** ** Board *)

Definition directions : list Position :=
  [ (-1, 0); (1, 0); (0, -1); (0, 1); (-1, -1); (-1, 1); (1, -1); (1, 1) ].

Record Board : Type := mkBoard {
  board : gmap Position BoardSquare;
  maxBoardSize : Z
}.

(** [board.at(position).method()] for a method that writes the square. *)
Definition at_square (position : Position)
    (method : BoardSquare → outcome BoardSquare) : Eff Board unit :=
  λ b, match board b !! position with
       | None => (b, Throw OutOfRange)
       | Some sq =>
           match method sq with
           | Return sq' =>
               (mkBoard (<[position := sq']> (board b)) (maxBoardSize b), Return tt)
           | Throw e => (b, Throw e)
           | Diverge => (b, Diverge)
           | Undefined => (b, Undefined)
           end
       end.

(** The two nested loops of the constructor. *)
Definition empty_squares (size : Z) : gmap Position BoardSquare :=
  foldl (λ m row,
           foldl (λ m' col, <[(row, col) := BoardSquare_new]> m') m (seqZ 0 size))
        ∅ (seqZ 0 size).

Definition place_center (center : Z) : Eff Board unit :=
  at_square (center - 1, center - 1) (setPiece 1) ;;;
  at_square (center - 1, center) (setPiece 2) ;;;
  at_square (center, center - 1) (setPiece 2) ;;;
  at_square (center, center) (setPiece 1).

Definition Board_new (size : Z) : outcome Board :=
  if size <? 4 then Throw InvalidSize
  else
    let b := mkBoard (empty_squares size) size in
    let center := maxBoardSize b ÷ 2 in
    Return (try_catch (place_center center) b).1.

Definition placePiece (position : Position) (player : Z)
    (toFlip : gset Position) : Eff Board unit :=
  at_square position (setPiece player) ;;;
  for_each (set_entries toFlip) (λ flipPosition, at_square flipPosition flipPiece).

Definition getBoardPlaceValue (b : Board) (position : Position) : outcome Z :=
  match board b !! position with
  | None => Throw OutOfRange
  | Some sq => Return (getValue sq)
  end.

Definition in_bounds (b : Board) (position : Position) : bool :=
  (0 <=? position.1) && (position.1 <? maxBoardSize b) &&
  (0 <=? position.2) && (position.2 <? maxBoardSize b).

Definition step_pos (position direction : Position) : Position :=
  (position.1 + direction.1, position.2 + direction.2).

(** The [while] loop of [findFlippablePieces]; [position] is the square
    about to be tested, [toFlip] the run gathered so far.  One unit of
    [fuel] is spent per test of the loop condition. *)
Fixpoint scan_loop (fuel : nat) (b : Board) (player opponent : Z)
    (direction position : Position) (toFlip : gset Position)
    : outcome (bool * gset Position) :=
  match fuel with
  | O => Diverge
  | S fuel' =>
      if in_bounds b position then
        match board b !! position with
        | None => Throw OutOfRange
        | Some sq =>
            let value := getValue sq in
            if value =? opponent then
              scan_loop fuel' b player opponent direction
                        (step_pos position direction) ({[ position ]} ∪ toFlip)
            else if value =? player then
              Return (negb (bool_decide (toFlip = ∅)), toFlip)
            else Return (false, toFlip)
        end
      else Return (false, toFlip)
  end.

(** The result is the returned flag and the final content of the [toFlip]
    out-parameter (which the function clears on entry). *)
Definition findFlippablePieces_fuel (fuel : nat) (b : Board)
    (position : Position) (player : Z) (direction : Position)
    : outcome (bool * gset Position) :=
  let opponent := if player =? 1 then 2 else 1 in
  do r <- scan_loop fuel b player opponent direction
                    (step_pos position direction) ∅;
  let '(piecesToFlip, toFlip) := r in
  Return (piecesToFlip, if negb piecesToFlip then ∅ else toFlip).

(** A ray that moves meets at most [maxBoardSize] squares of the board, so
    the loop condition is tested at most [maxBoardSize + 1] times; a ray
    that stays in place either leaves at once or never. *)
Definition findFlippablePieces (b : Board) (position : Position) (player : Z)
    (direction : Position) : outcome (bool * gset Position) :=
  findFlippablePieces_fuel (S (Z.to_nat (maxBoardSize b))) b position player direction.

(** The body of the loop over [directions] in [getValidMoves]. *)
Definition add_direction (b : Board) (position : Position) (player : Z)
    (totalFlippablePieces : gset Position) (direction : Position)
    : outcome (gset Position) :=
  do r <- findFlippablePieces b position player direction;
  Return (if r.1 then totalFlippablePieces ∪ r.2 else totalFlippablePieces).

Definition flippable_from (b : Board) (position : Position) (player : Z)
    : outcome (gset Position) :=
  for_acc (add_direction b position player) directions ∅.

Abbreviation LegalMoveMap := (gmap Position (gset Position)).

(** [std::find_if] skips the occupied squares; the body runs on each empty
    one. *)
Definition getValidMoves (b : Board) (player : Z) : outcome LegalMoveMap :=
  for_acc
    (λ (validMovesMap : LegalMoveMap) (entry : Position * BoardSquare),
       if isEmpty entry.2 then
         let position := entry.1 in
         do totalFlippablePieces <- flippable_from b position player;
         Return (if negb (bool_decide (totalFlippablePieces = ∅))
                 then <[position := totalFlippablePieces]> validMovesMap
                 else validMovesMap)
       else Return validMovesMap)
    (map_entries (board b)) ∅.

(** [std::count_if]. *)
Fixpoint count_if {A} (pred : A → bool) (l : list A) : Z :=
  match l with
  | [] => 0
  | x :: l' => (if pred x then 1 else 0) + count_if pred l'
  end.

Inductive Verdict : Type :=
  | XWins (countX countO : Z)
  | OWins (countO countX : Z)
  | Draw (countX countO : Z).

(** What [showWinner] announces; the two counts are stored in [int]s. *)
Definition showWinner (b : Board) : Verdict :=
  let countX :=
    to_int (count_if (λ pair : Position * BoardSquare, getValue pair.2 =? 1)
                     (map_entries (board b))) in
  let countO :=
    to_int (count_if (λ pair : Position * BoardSquare, getValue pair.2 =? 2)
                     (map_entries (board b))) in
  if countO <? countX then XWins countX countO
  else if countX <? countO then OWins countO countX
  else Draw countX countO.

(** ** The move selectors *)

(** [std::list::sort(comp)] is a stable sort; [comp y x] says that [y] goes
    before [x]. *)
Fixpoint sort_insert {A} (comp : A → A → bool) (x : A) (l : list A) : list A :=
  match l with
  | [] => [x]
  | y :: l' => if comp y x then y :: sort_insert comp x l' else x :: l
  end.

Definition list_sort {A} (comp : A → A → bool) (l : list A) : list A :=
  foldr (sort_insert comp) [] l.

Abbreviation ScoredMove := (Z * Position)%type.

(** [operator<] of [std::pair<int, std::pair<int,int>>]. *)
Definition scored_lt (a b : ScoredMove) : bool :=
  (a.1 <? b.1) ||
  ((a.1 =? b.1) &&
   ((a.2.1 <? b.2.1) || ((a.2.1 =? b.2.1) && (a.2.2 <? b.2.2)))).

(** [std::priority_queue] with [std::less]: the content, and [top()] as the
    greatest element. *)
Definition pq_push (x : ScoredMove) (q : list ScoredMove) : list ScoredMove := x :: q.

Fixpoint pq_top (q : list ScoredMove) : option ScoredMove :=
  match q with
  | [] => None
  | x :: q' =>
      match pq_top q' with
      | None => Some x
      | Some y => Some (if scored_lt y x then x else y)
      end
  end.

(** [rand1] and [rand2] are the values of the two calls of [std::rand()]. *)
Definition getAIMove (validMoves : LegalMoveMap) (rand1 rand2 : nat)
    : outcome Position :=
  let moves :=
    foldl (λ moves (move : Position * gset Position),
             moves ++ [(Z.of_nat (size move.2), move.1)])
          [] (map_entries validMoves) in
  let moves := list_sort (λ a b : ScoredMove, b.1 <? a.1) moves in
  let moveQueue := foldl (λ q move, pq_push move q) [] moves in
  if (rand1 mod 2 =? 0)%nat then
    match length moves with
    | O => Undefined
    | S _ =>
        match moves !! (rand2 mod length moves)%nat with
        | Some randomIt => Return randomIt.2
        | None => Undefined
        end
    end
  else
    match pq_top moveQueue with
    | Some top => Return top.2
    | None => Undefined
    end.

(** [getPlayerMove], without what it prints: [typed] holds, for each
    prompt, the two [int]s that the extraction stored, [None] when the
    extraction failed (an entry that is not two numbers that fit an [int]).
    When the entries run out before a valid one the loop is still waiting. *)
Fixpoint getPlayerMove (b : Board) (validMoves : LegalMoveMap)
    (typed : list (option Position)) : outcome Position :=
  match typed with
  | [] => Diverge
  | None :: typed' => getPlayerMove b validMoves typed'
  | Some entry :: typed' =>
      do first <- int_decr entry.1;
      do second <- int_decr entry.2;
      let playerMoveLocation := (first, second) in
      let maxSize := maxBoardSize b in
      if (playerMoveLocation.1 <? 0) || (maxSize <=? playerMoveLocation.1) ||
         (playerMoveLocation.2 <? 0) || (maxSize <=? playerMoveLocation.2)
      then getPlayerMove b validMoves typed'
      else if bool_decide (validMoves !! playerMoveLocation = None)
      then getPlayerMove b validMoves typed'
      else Return playerMoveLocation
  end.

(** ** playGame *)

Record PlayerMove : Type := mkPlayerMove {
  thePlayer : Z;
  theLocation : Position
}.

Record Game : Type := mkGame {
  currentPlayer : Z;
  nextPlayer : Z;
  prevPlayerMoved : bool;
  theBoard : Board;
  gameHistory : list PlayerMove     (* top of the stack first *)
}.

(** What the outside world supplies during one turn. *)
Record TurnInput : Type := mkTurnInput {
  typed : list (option Position);
  rand1 : nat;
  rand2 : nat
}.

Inductive TurnResult : Type :=
  | Continue (g : Game)
  | GameOver (v : Verdict).

Definition new_game (b : Board) : Game :=
  mkGame 1 2 true b [].

(** One pass through the body of the [while (true)] loop; leaving the loop
    by [break] runs [showWinner]. *)
Definition turn (playerCount : Z) (input : TurnInput) (g : Game)
    : outcome TurnResult :=
  do validMoves <- getValidMoves (theBoard g) (currentPlayer g);
  if (size validMoves =? 0)%nat then
    if negb (prevPlayerMoved g) then
      Return (GameOver (showWinner (theBoard g)))
    else
      Return (Continue (mkGame (nextPlayer g) (currentPlayer g) false
                               (theBoard g) (gameHistory g)))
  else
    do playerMove <-
      (if (currentPlayer g =? 2) && (playerCount =? 1)
       then getAIMove validMoves (rand1 input) (rand2 input)
       else getPlayerMove (theBoard g) validMoves (typed input));
    match validMoves !! playerMove with
    | None => Throw OutOfRange
    | Some toFlip =>
        match placePiece playerMove (currentPlayer g) toFlip (theBoard g) with
        | (b', Return _) =>
            Return (Continue (mkGame (nextPlayer g) (currentPlayer g) true b'
                        (mkPlayerMove (currentPlayer g) playerMove :: gameHistory g)))
        | (_, Throw e) => Throw e
        | (_, Diverge) => Diverge
        | (_, Undefined) => Undefined
        end
    end.

(** The loop of [playGame], one [TurnInput] per turn. *)
Fixpoint play_loop (playerCount : Z) (inputs : list TurnInput) (g : Game)
    : outcome Verdict :=
  match inputs with
  | [] => Diverge
  | input :: inputs' =>
      do r <- turn playerCount input g;
      match r with
      | GameOver v => Return v
      | Continue g' => play_loop playerCount inputs' g'
      end
  end.

Definition playGame (maxBoardSize playerCount : Z) (inputs : list TurnInput)
    : outcome Verdict :=
  do theBoard <- Board_new maxBoardSize;
  play_loop playerCount inputs (new_game theBoard).

(** ** The other functions of the program *)

(** The check on the length of the history; [currentPlayer] is not read.
    The product is taken on [int]s and converted for the comparison with
    the size of the stack. *)
Definition areValidMovesLeftForPlayer (b : Board) (gameHistory : list PlayerMove)
    (currentPlayer : Z) : outcome bool :=
  let validMoves := true in
  do squares <- int_mul (maxBoardSize b) (maxBoardSize b);
  Return (if to_size_t squares <=? Z.of_nat (length gameHistory)
          then false else validMoves).

(** [player] is not read. *)
Definition isPlayerMoveValid (theBoard : Board) (player : Z)
    (location : Position) : outcome bool :=
  let moveValid := true in
  do currentValue <- getBoardPlaceValue theBoard location;
  Return (if negb (currentValue =? 0) then false else moveValid).

(** What is sent to [std::cout], one item per [<<]. *)
Inductive Token : Type :=
  | Text (s : string)
  | Num (n : Z)
  | Endl.

(** A function that prints: the state is what has been printed so far. *)
Definition put (items : list Token) : Eff (list Token) unit :=
  λ out, (out ++ items, Return tt).

(** The body of the inner loop of [printBoard]. *)
Definition print_square (b : Board) (position : Position) : Eff (list Token) unit :=
  λ out,
    match getBoardPlaceValue b position with
    | Return value =>
        if value =? 0 then put [Text ". "] out
        else if value =? 1 then put [Text "X "] out
        else if value =? 2 then put [Text "O "] out
        else (out, Return tt)
    | Throw e => (out, Throw e)
    | Diverge => (out, Diverge)
    | Undefined => (out, Undefined)
    end.

Definition printBoard (b : Board) : Eff (list Token) unit :=
  for_each (seqZ 0 (maxBoardSize b)) (λ row,
    for_each (seqZ 0 (maxBoardSize b)) (λ col, print_square b (row, col)) ;;;
    put [Endl]).

Definition printPossibleMoves (validMoves : LegalMoveMap) : Eff (list Token) unit :=
  for_each (map_entries validMoves) (λ move,
    let key := move.1 in
    let setSize := Z.of_nat (size move.2) in
    put [Text "Move ("; Num (key.1 + 1); Text ", "; Num (key.2 + 1);
         Text ") has "; Num setSize;
         Text (" possible flip(s)." +:+ String "010"%char EmptyString)]).

(** [getBoardSize], without what it prints: [typed] holds the value of
    [size] after each [std::cin >> size].  When the values run out the loop
    is still waiting. *)
Fixpoint getBoardSize (typed : list Z) : outcome Z :=
  match typed with
  | [] => Diverge
  | size :: typed' => if size <? 4 then getBoardSize typed' else Return size
  end.


(** * Vocabulary of the statements *)

(** The squares of a board of the given size, row by row. *)
Definition squares (size : Z) : list Position :=
  row ← seqZ 0 size; col ← seqZ 0 size; [(row, col)].

(** Class invariant of [Board]: the map holds exactly the squares of the
    board. *)
Definition wf_board (b : Board) : Prop :=
  dom (board b) = list_to_set (squares (maxBoardSize b)).

(** The owner written in a square: [None] off the board. *)
Definition owner (b : Board) (position : Position) : option Z :=
  getValue <$> board b !! position.

Definition is_player (player : Z) : Prop := player = 1 ∨ player = 2.

(** The board built for a size of at least 4. *)
Definition seeded (size : Z) : Board :=
  let c := size ÷ 2 in
  mkBoard (<[(c, c) := mkSquare 1]>
           (<[(c, c - 1) := mkSquare 2]>
            (<[(c - 1, c) := mkSquare 2]>
             (<[(c - 1, c - 1) := mkSquare 1]> (empty_squares size))))) size.

(** The opponent, as [findFlippablePieces] computes it. *)
Definition opponent_of (player : Z) : Z := if player =? 1 then 2 else 1.

(** The square [i] steps away from [origin] along [direction]. *)
Definition ray (origin direction : Position) (i : Z) : Position :=
  (origin.1 + i * direction.1, origin.2 + i * direction.2).

(** The first [k] squares of a ray, the origin left out. *)
Definition run_cells (origin direction : Position) (k : Z) : gset Position :=
  list_to_set (ray origin direction <$> seqZ 1 k).

(** Squares [1..k] of the ray belong to the opponent and square [k+1], the
    anchor, to the player. *)
Definition capture_run (b : Board) (player : Z) (origin direction : Position)
    (k : Z) : Prop :=
  1 ≤ k ∧
  (∀ i, 1 ≤ i ≤ k → owner b (ray origin direction i) = Some (opponent_of player)) ∧
  owner b (ray origin direction (k + 1)) = Some player.

(** How many squares of the board a ray still has ahead, the current one
    included. *)
Definition room (b : Board) (direction position : Position) : Z :=
  if 0 <? direction.1 then maxBoardSize b - position.1
  else if direction.1 <? 0 then position.1 + 1
  else if 0 <? direction.2 then maxBoardSize b - position.2
  else position.2 + 1.

(** What the scan of one ray leaves in [toFlip]. *)
Definition scan_set (b : Board) (position : Position) (player : Z)
    (direction : Position) : gset Position :=
  match findFlippablePieces b position player direction with
  | Return r => r.2
  | _ => ∅
  end.

(** The union of the scans of the eight rays that leave a square. *)
Definition capture_union (b : Board) (position : Position) (player : Z)
    : gset Position :=
  ⋃ (scan_set b position player <$> directions).

(** A square after a successful [flipPiece]. *)
Definition flipped (sq : BoardSquare) : BoardSquare :=
  mkSquare (opponent_of (value sq)).

(** What no method of [Board] changes: the positions and the size. *)
Definition same_frame (b b' : Board) : Prop :=
  dom (board b') = dom (board b) ∧ maxBoardSize b' = maxBoardSize b.

(** Every square holds 0, 1 or 2. *)
Definition valid_cells (b : Board) : Prop :=
  ∀ position sq, board b !! position = Some sq →
                 value sq = 0 ∨ value sq = 1 ∨ value sq = 2.

(** The counts of [showWinner], and the same count for the empty squares. *)
Definition countOwned (b : Board) (player : Z) : Z :=
  count_if (λ pair : Position * BoardSquare, getValue pair.2 =? player)
           (map_entries (board b)).

Definition countEmpty (b : Board) : Z :=
  count_if (λ pair : Position * BoardSquare, isEmpty pair.2)
           (map_entries (board b)).

(** The boards a game can show: the one the constructor builds, then any
    sequence of passes and legal moves. *)
Inductive reached (size : Z) : Board → Prop :=
  | reached_new b :
      Board_new size = Return b → reached size b
  | reached_pass b player :
      reached size b → is_player player →
      getValidMoves b player = Return ∅ → reached size b
  | reached_move b player m position toFlip b' :
      reached size b → is_player player →
      getValidMoves b player = Return m → m !! position = Some toFlip →
      placePiece position player toFlip b = (b', Return tt) →
      reached size b'.

(** The turns played so far, the latest first: who was to play and the
    legal moves found for that player. *)
Inductive plays (playerCount : Z) (g0 : Game)
    : list (Z * LegalMoveMap) → Game → Prop :=
  | plays_start : plays playerCount g0 [] g0
  | plays_turn trace g input validMoves g' :
      plays playerCount g0 trace g →
      getValidMoves (theBoard g) (currentPlayer g) = Return validMoves →
      turn playerCount input g = Return (Continue g') →
      plays playerCount g0 ((currentPlayer g, validMoves) :: trace) g'.

(** The same with the inputs of the turns, in the order they were used. *)
Inductive played (playerCount : Z) (g0 : Game)
    : list TurnInput → list (Z * LegalMoveMap) → Game → Prop :=
  | played_start : played playerCount g0 [] [] g0
  | played_turn inputs trace g input validMoves g' :
      played playerCount g0 inputs trace g →
      getValidMoves (theBoard g) (currentPlayer g) = Return validMoves →
      turn playerCount input g = Return (Continue g') →
      played playerCount g0 (inputs ++ [input])
             ((currentPlayer g, validMoves) :: trace) g'.

(** The loop of [playGame] again, keeping the record of the turns: it stops
    when the inputs run out or the game is over. *)
Fixpoint play_trace (playerCount : Z) (inputs : list TurnInput) (g : Game)
    (trace : list (Z * LegalMoveMap)) : outcome (list (Z * LegalMoveMap) * Game) :=
  match inputs with
  | [] => Return (trace, g)
  | input :: inputs' =>
      do validMoves <- getValidMoves (theBoard g) (currentPlayer g);
      do r <- turn playerCount input g;
      match r with
      | GameOver _ => Return (trace, g)
      | Continue g' =>
          play_trace playerCount inputs' g' ((currentPlayer g, validMoves) :: trace)
      end
  end.

(** A whole game of two humans on the 4x4 board, as typed (1-based); the
    tenth and the last two turns have no legal move. *)
Definition sample_game : list TurnInput :=
  (λ entry, mkTurnInput [entry] 0 0) <$>
  [ Some (1, 3); Some (1, 2); Some (1, 1); Some (1, 4); Some (2, 4);
    Some (3, 4); Some (4, 1); Some (2, 1); Some (3, 1); None;
    Some (4, 3); Some (4, 2); Some (4, 4); None ].

Definition sample_end : list (Z * LegalMoveMap) * Game :=
  match play_trace 2 sample_game (new_game (seeded 4)) [] with
  | Return r => r
  | _ => ([], new_game (seeded 4))
  end.

(** The list [moves] of [getAIMove] once it is sorted. *)
Definition sorted_moves (validMoves : LegalMoveMap) : list ScoredMove :=
  list_sort (λ a b : ScoredMove, b.1 <? a.1)
    (foldl (λ moves (move : Position * gset Position),
              moves ++ [(Z.of_nat (size move.2), move.1)])
           [] (map_entries validMoves)).


(** An entry typed at the prompt of [getPlayerMove] that ends the prompt:
    two numbers that, taken 1-based, name a key of the map on the board. *)
Definition accepted (b : Board) (validMoves : LegalMoveMap)
    (typed_entry : option Position) : Prop :=
  ∃ entry, typed_entry = Some entry ∧
    in_bounds b (entry.1 - 1, entry.2 - 1) = true ∧
    (entry.1 - 1, entry.2 - 1) ∈ dom validMoves.

(** An entry typed at the prompt whose row or column is the least [int]:
    the adjustment to 0-based indexing overflows. *)
Definition overflows (typed_entry : option Position) : Prop :=
  ∃ entry, typed_entry = Some entry ∧
    (entry.1 - 1 < int_min ∨ entry.2 - 1 < int_min).

(** Whether a call of the selector returned the given key. *)
Definition returns_key (call : outcome Position) (key : Position) : bool :=
  match call with
  | Return move => bool_decide (move = key)
  | _ => false
  end.

(** The line that move assistance prints for one legal move. *)
Definition move_line (move : Position * gset Position) : list Token :=
  [Text "Move ("; Num (move.1.1 + 1); Text ", "; Num (move.1.2 + 1);
   Text ") has "; Num (Z.of_nat (size move.2));
   Text (" possible flip(s)." +:+ String "010"%char EmptyString)].

(** The order of the list [moves] of [getAIMove] after the sort: more flips
    first and, for equal flips, the smaller (row, col) pair first. *)
Definition move_order (a b : ScoredMove) : Prop :=
  b.1 < a.1 ∨ (a.1 = b.1 ∧ pair_le a.2 b.2).

(** Turns the hypotheses that two pairs differ into facts about their
    components. *)
Ltac split_pair_ne :=
  repeat match goal with
  | H : (?a, ?b) ≠ (?c, ?d) |- _ =>
      assert (a ≠ c ∨ b ≠ d)
        by (let Hac := fresh in let Hbd := fresh in
            destruct (decide (a = c)) as [Hac|];
            [right; intros Hbd; apply H; by rewrite Hac, Hbd|by left]);
      clear H
  end.

(** What [printBoard] shows for a square. *)
Definition square_text (b : Board) (position : Position) : Token :=
  match owner b position with
  | Some 1 => Text "X "
  | Some 2 => Text "O "
  | _ => Text ". "
  end.

(** One line of the picture of the board. *)
Definition board_line (b : Board) (row : Z) : list Token :=
  ((λ col, square_text b (row, col)) <$> seqZ 0 (maxBoardSize b)) ++ [Endl].

(** * Properties *)

(** ** Iteration order of the containers *)

Lemma pair_le_total (p q : Position) : pair_le p q ∨ pair_le q p.
Proof. unfold pair_le. destruct p, q; simpl. lia. Qed.

Lemma pair_le_trans (p q r : Position) : pair_le p q → pair_le q r → pair_le p r.
Proof. unfold pair_le. destruct p, q, r; simpl. lia. Qed.

Lemma pair_le_antisym (p q : Position) : pair_le p q → pair_le q p → p = q.
Proof. unfold pair_le. destruct p, q; simpl. intros; f_equal; lia. Qed.

#[global] Instance pair_le_Total : Total pair_le.
Proof. exact pair_le_total. Qed.

#[global] Instance pair_le_Transitive : Transitive pair_le.
Proof. exact pair_le_trans. Qed.

Lemma map_entries_perm {A} (m : gmap Position A) : map_entries m ≡ₚ map_to_list m.
Proof. apply merge_sort_Permutation. Qed.

Lemma elem_of_map_entries {A} (m : gmap Position A) k v :
  (k, v) ∈ map_entries m ↔ m !! k = Some v.
Proof. rewrite map_entries_perm. apply elem_of_map_to_list. Qed.

Lemma NoDup_map_entries_keys {A} (m : gmap Position A) : NoDup (map_entries m).*1.
Proof. rewrite map_entries_perm. apply NoDup_fst_map_to_list. Qed.

Lemma length_map_entries {A} (m : gmap Position A) : length (map_entries m) = size m.
Proof. rewrite map_entries_perm. apply length_map_to_list. Qed.

Lemma set_entries_perm (s : gset Position) : set_entries s ≡ₚ elements s.
Proof. apply merge_sort_Permutation. Qed.

Lemma elem_of_set_entries (s : gset Position) q : q ∈ set_entries s ↔ q ∈ s.
Proof. rewrite set_entries_perm. apply elem_of_elements. Qed.

Lemma NoDup_set_entries (s : gset Position) : NoDup (set_entries s).
Proof. rewrite set_entries_perm. apply NoDup_elements. Qed.

Lemma set_entries_sorted (s : gset Position) : StronglySorted pair_le (set_entries s).
Proof. apply StronglySorted_merge_sort; apply _. Qed.

(** In a sorted list without repetition, what stands before an element is
    what is strictly below it. *)
Lemma sorted_split_before (front : list Position) x back q :
  StronglySorted pair_le (front ++ x :: back) → NoDup (front ++ x :: back) →
  q ∈ front ↔ (q ∈ front ++ x :: back ∧ pair_le q x ∧ q ≠ x).
Proof.
  intros Hs Hn. split.
  - intros Hq. split; [set_solver|].
    apply NoDup_app in Hn as (_ & Hdis & _).
    split; [|intros ->; eapply Hdis; [done|left]].
    clear Hdis. induction front as [|y front IH]; [inversion Hq|].
    simpl in Hs. apply StronglySorted_inv in Hs as [Hs Hall].
    apply elem_of_cons in Hq as [->|Hq]; [|by apply IH].
    rewrite Forall_forall in Hall. apply Hall. set_solver.
  - intros (Hin & Hle & Hne).
    apply elem_of_app in Hin as [?|Hin]; [done|].
    apply elem_of_cons in Hin as [?|Hin]; [done|].
    exfalso. apply Hne.
    induction front as [|y front IH].
    + simpl in Hs. apply StronglySorted_inv in Hs as [_ Hall].
      rewrite Forall_forall in Hall. by apply pair_le_antisym; [|apply Hall].
    + simpl in Hs. apply StronglySorted_inv in Hs as [Hs _].
      apply IH; [done|]. by apply NoDup_cons in Hn as [_ ?].
Qed.

(** ** The board and its constructor *)

Lemma elem_of_squares size r c :
  (r, c) ∈ squares size ↔ 0 ≤ r < size ∧ 0 ≤ c < size.
Proof.
  unfold squares. rewrite list_elem_of_bind. split.
  - intros (row & Hc & Hrow). apply list_elem_of_bind in Hc as (col & Hrc & Hcol).
    apply elem_of_seqZ in Hrow, Hcol. apply list_elem_of_singleton in Hrc.
    inversion Hrc; subst. lia.
  - intros [Hr Hc]. exists r. split; [|apply elem_of_seqZ; lia].
    apply list_elem_of_bind. exists c. split; [by apply list_elem_of_singleton|].
    apply elem_of_seqZ; lia.
Qed.

Lemma in_bounds_spec b r c :
  in_bounds b (r, c) = true ↔ 0 ≤ r < maxBoardSize b ∧ 0 ≤ c < maxBoardSize b.
Proof. unfold in_bounds. simpl. lia. Qed.

Lemma wf_board_lookup b position :
  wf_board b → (is_Some (board b !! position) ↔ in_bounds b position = true).
Proof.
  intros Hwf. destruct position as [r c].
  rewrite <- elem_of_dom, Hwf, elem_of_list_to_set, elem_of_squares.
  symmetry. apply in_bounds_spec.
Qed.

Lemma wf_board_owner_None b position :
  wf_board b → (owner b position = None ↔ in_bounds b position = false).
Proof.
  intros Hwf. unfold owner. rewrite fmap_None, eq_None_not_Some.
  rewrite (wf_board_lookup _ _ Hwf). by destruct (in_bounds b position).
Qed.

Lemma wf_board_intro b :
  (∀ position, is_Some (board b !! position) ↔ in_bounds b position = true) →
  wf_board b.
Proof.
  intros H. unfold wf_board. apply set_eq. intros [r c].
  rewrite elem_of_dom, H, elem_of_list_to_set, elem_of_squares.
  apply in_bounds_spec.
Qed.

Lemma fill_row_lookup (cols : list Z) (m : gmap Position BoardSquare) row r c :
  foldl (λ m' col, <[(row, col) := BoardSquare_new]> m') m cols !! (r, c) =
  if decide (r = row ∧ c ∈ cols) then Some BoardSquare_new else m !! (r, c).
Proof.
  revert m. induction cols as [|col cols IH]; intros m; cbn [foldl].
  - rewrite decide_False; [done|]. intros [_ H]. inversion H.
  - rewrite IH.
    destruct (decide (r = row ∧ c ∈ cols)) as [H1|H1];
      destruct (decide (r = row ∧ c ∈ col :: cols)) as [H2|H2]; try done.
    + exfalso. apply H2. destruct H1. split; [done|by right].
    + destruct H2 as [-> H2]. apply elem_of_cons in H2 as [->|H2]; [|tauto].
      apply lookup_insert_eq.
    + apply lookup_insert_ne. intros [=]; subst. apply H2. split; [done|by left].
Qed.

Lemma fill_rows_lookup (rows cols : list Z) (m : gmap Position BoardSquare) r c :
  foldl (λ m0 row,
           foldl (λ m' col, <[(row, col) := BoardSquare_new]> m') m0 cols) m rows
    !! (r, c) =
  if decide (r ∈ rows ∧ c ∈ cols) then Some BoardSquare_new else m !! (r, c).
Proof.
  revert m. induction rows as [|row rows IH]; intros m; cbn [foldl].
  - rewrite decide_False; [done|]. intros [H _]. inversion H.
  - rewrite IH, fill_row_lookup.
    destruct (decide (r ∈ rows ∧ c ∈ cols)) as [H1|H1];
      destruct (decide (r ∈ row :: rows ∧ c ∈ cols)) as [H2|H2];
      destruct (decide (r = row ∧ c ∈ cols)) as [H3|H3]; try done; exfalso.
    + apply H2. destruct H1. split; [by right|done].
    + apply H2. destruct H1. split; [by right|done].
    + destruct H2 as [H2 ?]. apply elem_of_cons in H2 as [->|H2]; tauto.
    + apply H2. destruct H3 as [-> ?]. split; [by left|done].
Qed.

Lemma empty_squares_lookup size r c :
  empty_squares size !! (r, c) =
  if decide (0 ≤ r < size ∧ 0 ≤ c < size) then Some BoardSquare_new else None.
Proof.
  unfold empty_squares. rewrite fill_rows_lookup, lookup_empty.
  destruct (decide (r ∈ seqZ 0 size ∧ c ∈ seqZ 0 size)) as [H1|H1];
    destruct (decide (0 ≤ r < size ∧ 0 ≤ c < size)) as [H2|H2]; try done;
    exfalso; rewrite !elem_of_seqZ in H1; lia.
Qed.

Lemma at_square_Return position method b sq sq' :
  board b !! position = Some sq → method sq = Return sq' →
  at_square position method b =
    (mkBoard (<[position := sq']> (board b)) (maxBoardSize b), Return tt).
Proof. intros H1 H2. unfold at_square. by rewrite H1, H2. Qed.

Lemma Board_new_seeded size : 4 ≤ size → Board_new size = Return (seeded size).
Proof.
  intros Hsize. unfold Board_new.
  destruct (Z.ltb_spec size 4) as [?|_]; [lia|]. f_equal. simpl.
  assert (2 ≤ size ÷ 2 < size) as Hc.
  { rewrite Z.quot_div_nonneg by lia. split.
    - apply Z.div_le_lower_bound; lia.
    - apply Z.div_lt_upper_bound; lia. }
  set (c := size ÷ 2) in *.
  assert (∀ r k, 0 ≤ r < size → 0 ≤ k < size →
            empty_squares size !! (r, k) = Some BoardSquare_new) as Hempty.
  { intros r k ??. rewrite empty_squares_lookup. by rewrite decide_True by lia. }
  unfold try_catch, place_center, ebind.
  rewrite (at_square_Return _ _ _ BoardSquare_new (mkSquare 1));
    [cbn [board maxBoardSize]|by apply Hempty; lia|done].
  rewrite (at_square_Return _ _ _ BoardSquare_new (mkSquare 2));
    [cbn [board maxBoardSize]| |done].
  2: { cbn [board]. rewrite lookup_insert_ne by (intros [=]; lia). apply Hempty; lia. }
  rewrite (at_square_Return _ _ _ BoardSquare_new (mkSquare 2));
    [cbn [board maxBoardSize]| |done].
  2: { cbn [board]. rewrite !lookup_insert_ne by (intros [=]; lia). apply Hempty; lia. }
  rewrite (at_square_Return _ _ _ BoardSquare_new (mkSquare 1));
    [cbn [board maxBoardSize]| |done].
  2: { cbn [board]. rewrite !lookup_insert_ne by (intros [=]; lia). apply Hempty; lia. }
  reflexivity.
Qed.

Lemma seeded_lookup size r c :
  board (seeded size) !! (r, c) =
  let ctr := size ÷ 2 in
  if decide ((r, c) = (ctr, ctr)) then Some (mkSquare 1)
  else if decide ((r, c) = (ctr, ctr - 1)) then Some (mkSquare 2)
  else if decide ((r, c) = (ctr - 1, ctr)) then Some (mkSquare 2)
  else if decide ((r, c) = (ctr - 1, ctr - 1)) then Some (mkSquare 1)
  else if decide (0 ≤ r < size ∧ 0 ≤ c < size) then Some BoardSquare_new
  else None.
Proof.
  unfold seeded; simpl.
  repeat (case_decide; [subst; simplify_map_eq; try done|
                        rewrite lookup_insert_ne by done]).
  apply empty_squares_lookup.
Qed.

Lemma seeded_wf size : 4 ≤ size → wf_board (seeded size).
Proof.
  intros Hsize. apply wf_board_intro. intros [r c].
  rewrite in_bounds_spec, seeded_lookup. simpl.
  assert (2 ≤ size ÷ 2 < size) as Hc.
  { rewrite Z.quot_div_nonneg by lia. split.
    - apply Z.div_le_lower_bound; lia.
    - apply Z.div_lt_upper_bound; lia. }
  repeat case_decide; simplify_eq;
    (split; [intros Hsome; try lia; by destruct Hsome|intros Hin; try lia; by eexists]).
Qed.

Lemma count_if_perm {A} (pred : A → bool) (l l' : list A) :
  l ≡ₚ l' → count_if pred l = count_if pred l'.
Proof. induction 1; simpl; lia. Qed.

Lemma count_if_none {A} (pred : A → bool) (l : list A) :
  (∀ x, x ∈ l → pred x = false) → count_if pred l = 0.
Proof.
  induction l as [|x l IH]; intros H; simpl; [done|].
  rewrite (H x) by left. rewrite IH; [done|]. intros y Hy. apply H. by right.
Qed.

Lemma count_if_insert {A} (pred : Position * A → bool) (m : gmap Position A) i x y :
  m !! i = Some y →
  count_if pred (map_entries (<[i := x]> m)) =
  count_if pred (map_entries m) - (if pred (i, y) then 1 else 0)
                                + (if pred (i, x) then 1 else 0).
Proof.
  intros Hi.
  rewrite (count_if_perm _ _ _ (map_entries_perm (<[i := x]> m))).
  rewrite (count_if_perm _ _ _ (map_entries_perm m)).
  rewrite <- insert_delete_eq.
  rewrite (count_if_perm _ _ _ (map_to_list_insert (delete i m) i x (lookup_delete_eq m i))).
  rewrite <- (count_if_perm _ _ _ (map_to_list_delete m i y Hi)).
  simpl. lia.
Qed.

Lemma center_bounds size : 4 ≤ size → size ÷ 2 = size `div` 2 ∧ 2 ≤ size ÷ 2 < size.
Proof.
  intros Hsize. rewrite Z.quot_div_nonneg by lia. split; [done|]. split.
  - apply Z.div_le_lower_bound; lia.
  - apply Z.div_lt_upper_bound; lia.
Qed.

Lemma seeded_occupied size :
  4 ≤ size →
  count_if (λ pair : Position * BoardSquare, negb (isEmpty pair.2))
           (map_entries (board (seeded size))) = 4.
Proof.
  intros Hsize. destruct (center_bounds size Hsize) as [_ Hc].
  assert (∀ r k, 0 ≤ r < size → 0 ≤ k < size →
            empty_squares size !! (r, k) = Some BoardSquare_new) as Hempty.
  { intros r k ??. rewrite empty_squares_lookup. by rewrite decide_True by lia. }
  unfold seeded. cbn [board]. set (c := size ÷ 2) in *.
  rewrite (count_if_insert _ _ _ _ BoardSquare_new).
  2: { rewrite !lookup_insert_ne by (intros [=]; lia). apply Hempty; lia. }
  rewrite (count_if_insert _ _ _ _ BoardSquare_new).
  2: { rewrite !lookup_insert_ne by (intros [=]; lia). apply Hempty; lia. }
  rewrite (count_if_insert _ _ _ _ BoardSquare_new).
  2: { rewrite !lookup_insert_ne by (intros [=]; lia). apply Hempty; lia. }
  rewrite (count_if_insert _ _ _ _ BoardSquare_new).
  2: { apply Hempty; lia. }
  rewrite count_if_none; [done|].
  intros [[r k] sq] Hin. apply elem_of_map_entries in Hin.
  rewrite empty_squares_lookup in Hin. case_decide; by simplify_eq.
Qed.

(** C6. For every size of at least 4 the constructor returns a board on
    which, with [c] the floor of [size / 2], the squares [(c-1,c-1)] and
    [(c,c)] hold X (1), the squares [(c-1,c)] and [(c,c-1)] hold O (2),
    every other square of the board is empty (0), and exactly four squares
    are occupied; odd sizes included. *)
Theorem Board_new_center (size : Z) :
  4 ≤ size →
  ∃ b, Board_new size = Return b ∧ maxBoardSize b = size ∧
    let c := size `div` 2 in
    owner b (c - 1, c - 1) = Some 1 ∧ owner b (c, c) = Some 1 ∧
    owner b (c - 1, c) = Some 2 ∧ owner b (c, c - 1) = Some 2 ∧
    (∀ r k, 0 ≤ r < size → 0 ≤ k < size →
       (r, k) ∉ [(c - 1, c - 1); (c, c); (c - 1, c); (c, c - 1)] →
       owner b (r, k) = Some 0) ∧
    count_if (λ pair : Position * BoardSquare, negb (isEmpty pair.2))
             (map_entries (board b)) = 4.
Proof.
  intros Hsize. exists (seeded size).
  destruct (center_bounds size Hsize) as [Hdiv Hc].
  split; [by apply Board_new_seeded|]. split; [done|].
  cbn zeta. rewrite <- Hdiv. unfold owner. rewrite !seeded_lookup. cbn zeta.
  repeat split.
  - repeat (case_decide; simplify_eq; try done; try lia).
  - repeat (case_decide; simplify_eq; try done; try lia).
  - repeat (case_decide; simplify_eq; try done; try lia).
  - repeat (case_decide; simplify_eq; try done; try lia).
  - intros r k Hr Hk Hnot. rewrite seeded_lookup. cbn zeta.
    rewrite !decide_False by (intros Heq; apply Hnot; rewrite Heq, !elem_of_cons; tauto).
    by rewrite decide_True by lia.
  - by apply seeded_occupied.
Qed.

Lemma Board_new_center_witness :
  4 ≤ 5 ∧
  ∃ b, Board_new 5 = Return b ∧ maxBoardSize b = 5 ∧
    owner b (1, 1) = Some 1 ∧ owner b (2, 2) = Some 1 ∧
    owner b (1, 2) = Some 2 ∧ owner b (2, 1) = Some 2 ∧
    (∀ r k, 0 ≤ r < 5 → 0 ≤ k < 5 →
       (r, k) ∉ [(1, 1); (2, 2); (1, 2); (2, 1)] → owner b (r, k) = Some 0) ∧
    count_if (λ pair : Position * BoardSquare, negb (isEmpty pair.2))
             (map_entries (board b)) = 4.
Proof. split; [lia|]. apply (Board_new_center 5). lia. Defined.

(** C7. The constructor throws the invalid-size error exactly when the
    size is below 4, and then returns no board; any other call returns a
    board of that size whose map has a square at every position of
    [[0,size) x [0,size)]. *)
Theorem Board_new_size (size : Z) :
  (Board_new size = Throw InvalidSize ↔ size < 4) ∧
  (size < 4 → ∀ b, Board_new size ≠ Return b) ∧
  (∀ b, Board_new size = Return b →
     4 ≤ size ∧ maxBoardSize b = size ∧
     ∀ r c, 0 ≤ r < size → 0 ≤ c < size → is_Some (board b !! (r, c))) ∧
  (4 ≤ size → ∃ b, Board_new size = Return b).
Proof.
  destruct (Z.lt_ge_cases size 4) as [Hlt|Hge].
  - assert (Board_new size = Throw InvalidSize) as Hthrow.
    { unfold Board_new. by destruct (Z.ltb_spec size 4); [|lia]. }
    rewrite Hthrow. split; [done|]. split; [intros _ b [=]|].
    split; [intros b [=]|lia].
  - rewrite (Board_new_seeded size Hge).
    split; [split; [intros [=]|lia]|]. split; [lia|]. split; [|by eexists].
    intros b [= <-]. split; [done|]. split; [done|]. intros r c Hr Hc.
    apply (wf_board_lookup _ (r, c) (seeded_wf size Hge)), in_bounds_spec.
    simpl. lia.
Qed.

(** ** The capture-ray scan *)

Lemma ray_step origin direction j :
  step_pos (ray origin direction j) direction = ray origin direction (j + 1).
Proof. unfold step_pos, ray. simpl. f_equal; lia. Qed.

Lemma ray_first origin direction : step_pos origin direction = ray origin direction 1.
Proof. unfold step_pos, ray. f_equal; lia. Qed.

Lemma elem_of_run_cells origin direction k q :
  q ∈ run_cells origin direction k ↔ ∃ i, 1 ≤ i ≤ k ∧ q = ray origin direction i.
Proof.
  unfold run_cells. rewrite elem_of_list_to_set, list_elem_of_fmap. split.
  - intros (i & -> & Hi). apply elem_of_seqZ in Hi. exists i. split; [lia|done].
  - intros (i & Hi & ->). exists i. split; [done|]. apply elem_of_seqZ. lia.
Qed.

Lemma run_cells_snoc origin direction j :
  1 ≤ j →
  {[ ray origin direction j ]} ∪ run_cells origin direction (j - 1) =
  run_cells origin direction j.
Proof.
  intros Hj. apply set_eq. intros q.
  rewrite elem_of_union, elem_of_singleton, !elem_of_run_cells. split.
  - intros [->|(i & Hi & ->)]; [exists j|exists i]; split; (done || lia).
  - intros (i & Hi & ->). destruct (decide (i = j)) as [->|Hne]; [by left|].
    right. exists i. split; [lia|done].
Qed.

Lemma run_cells_empty origin direction k :
  run_cells origin direction k = ∅ ↔ k ≤ 0.
Proof.
  split.
  - intros Hempty. destruct (Z.le_gt_cases k 0) as [|Hk]; [done|].
    assert (ray origin direction 1 ∈ run_cells origin direction k) as Hin.
    { apply elem_of_run_cells. exists 1. split; [lia|done]. }
    rewrite Hempty in Hin. by apply not_elem_of_empty in Hin.
  - intros Hk. apply set_eq. intros q. rewrite elem_of_run_cells. split.
    + intros (i & Hi & _). lia.
    + intros Hin. by apply not_elem_of_empty in Hin.
Qed.

Lemma ray_inj origin direction i j :
  direction ≠ (0, 0) → ray origin direction i = ray origin direction j → i = j.
Proof.
  destruct direction as [d1 d2]. unfold ray. simpl. intros Hd [=].
  destruct (decide (d1 = 0)) as [->|?]; [|nia].
  destruct (decide (d2 = 0)) as [->|?]; [done|nia].
Qed.

Lemma size_run_cells origin direction k :
  direction ≠ (0, 0) → size (run_cells origin direction k) = Z.to_nat k.
Proof.
  intros Hd. unfold run_cells. rewrite size_list_to_set.
  - by rewrite length_fmap, length_seqZ.
  - apply NoDup_fmap_2_strong; [|apply NoDup_seqZ].
    intros i j _ _. by apply ray_inj.
Qed.

Lemma directions_nonzero direction : direction ∈ directions → direction ≠ (0, 0).
Proof.
  unfold directions. rewrite !elem_of_cons. intros H ->.
  repeat (destruct H as [[=]|H]). inversion H.
Qed.

Lemma opponent_of_ne player : opponent_of player ≠ player.
Proof. unfold opponent_of. destruct (Z.eqb_spec player 1); lia. Qed.

Lemma opponent_of_player player :
  is_player player → is_player (opponent_of player) ∧ opponent_of player = 3 - player.
Proof. unfold is_player, opponent_of. intros [->| ->]; simpl; lia. Qed.

Lemma room_step b direction position :
  direction ≠ (0, 0) → in_bounds b position = true →
  1 ≤ room b direction position ≤ maxBoardSize b ∧
  (in_bounds b (step_pos position direction) = true →
   room b direction (step_pos position direction) < room b direction position).
Proof.
  destruct direction as [d1 d2], position as [r c].
  intros Hd Hin. apply in_bounds_spec in Hin.
  unfold room, step_pos. simpl.
  assert (d1 ≠ 0 ∨ d2 ≠ 0) as Hnz.
  { destruct (decide (d1 = 0)) as [->|]; [|by left].
    right. intros ->. by apply Hd. }
  destruct (Z.ltb_spec 0 d1), (Z.ltb_spec d1 0), (Z.ltb_spec 0 d2);
    split; try lia; intros _; lia.
Qed.

Section scan.
Context (b : Board) (player : Z) (origin direction : Position).
Hypothesis Hwf : wf_board b.

(** Whatever the loop returns is described by the number [k] of opponent
    squares it walked over and by the square that stopped it. *)
Lemma scan_loop_spec fuel j r :
  1 ≤ j →
  (∀ i, 1 ≤ i < j → owner b (ray origin direction i) = Some (opponent_of player)) →
  scan_loop fuel b player (opponent_of player) direction (ray origin direction j)
            (run_cells origin direction (j - 1)) = Return r →
  ∃ k, j - 1 ≤ k ∧
    (∀ i, 1 ≤ i ≤ k → owner b (ray origin direction i) = Some (opponent_of player)) ∧
    ((owner b (ray origin direction (k + 1)) = Some player ∧
      r = (negb (bool_decide (run_cells origin direction k = ∅)),
           run_cells origin direction k)) ∨
     (owner b (ray origin direction (k + 1)) ≠ Some player ∧
      owner b (ray origin direction (k + 1)) ≠ Some (opponent_of player) ∧
      r = (false, run_cells origin direction k))).
Proof.
  revert j r. induction fuel as [|fuel IH]; intros j r Hj Hrun; [done|].
  cbn [scan_loop].
  destruct (in_bounds b (ray origin direction j)) eqn:Hin.
  - unfold owner in *.
    destruct (board b !! ray origin direction j) as [sq|] eqn:Hsq; [|done].
    destruct (Z.eqb_spec (getValue sq) (opponent_of player)) as [Hopp|Hnopp].
    + rewrite ray_step, run_cells_snoc by done.
      replace j with (j + 1 - 1) at 2 by lia.
      intros Hret. apply IH in Hret as (k & Hk & Hcells & Hend); [|lia|].
      * exists k. split; [lia|done].
      * intros i Hi. destruct (decide (i = j)) as [->|?].
        -- by rewrite Hsq; simpl; f_equal.
        -- apply Hrun. lia.
    + destruct (Z.eqb_spec (getValue sq) player) as [Hpl|Hnpl].
      * intros [= <-]. exists (j - 1). split; [lia|].
        split; [intros i Hi; apply Hrun; lia|]. left.
        replace (j - 1 + 1) with j by lia. rewrite Hsq. simpl.
        by rewrite Hpl.
      * intros [= <-]. exists (j - 1). split; [lia|].
        split; [intros i Hi; apply Hrun; lia|]. right.
        replace (j - 1 + 1) with j by lia. rewrite Hsq. simpl.
        split; [congruence|]. split; [congruence|done].
  - intros [= <-]. exists (j - 1). split; [lia|].
    split; [intros i Hi; apply Hrun; lia|]. right.
    replace (j - 1 + 1) with j by lia.
    apply (wf_board_owner_None _ _ Hwf) in Hin. rewrite Hin. done.
Qed.

(** With more fuel than the ray has room, the loop returns. *)
Lemma scan_loop_returns fuel position toFlip :
  direction ≠ (0, 0) → fuel ≠ O →
  (in_bounds b position = true → room b direction position < Z.of_nat fuel) →
  ∃ r, scan_loop fuel b player (opponent_of player) direction position toFlip = Return r.
Proof.
  intros Hd. revert position toFlip.
  induction fuel as [|fuel IH]; intros position toFlip Hfuel Hroom; [done|].
  cbn [scan_loop]. destruct (in_bounds b position) eqn:Hin; [|by eexists].
  destruct (proj2 (wf_board_lookup b position Hwf) Hin) as [sq ->].
  destruct (getValue sq =? (opponent_of player)); [|destruct (_ =? _); by eexists].
  destruct (room_step b direction position Hd Hin) as [Hpos Hless].
  specialize (Hroom eq_refl).
  apply IH; [lia|]. intros Hin'. specialize (Hless Hin'). lia.
Qed.
End scan.





(** The scan of one ray: it walks over some number [k] of opponent squares;
    stopped by a square of the player it reports them, stopped by anything
    else it reports nothing. *)
Lemma findFlippablePieces_result b player origin direction :
  wf_board b → direction ≠ (0, 0) →
  ∃ k, 0 ≤ k ∧
    (∀ i, 1 ≤ i ≤ k → owner b (ray origin direction i) = Some (opponent_of player)) ∧
    ((owner b (ray origin direction (k + 1)) = Some player ∧
      findFlippablePieces b origin player direction =
        Return (negb (bool_decide (run_cells origin direction k = ∅)),
                run_cells origin direction k)) ∨
     (owner b (ray origin direction (k + 1)) ≠ Some player ∧
      owner b (ray origin direction (k + 1)) ≠ Some (opponent_of player) ∧
      findFlippablePieces b origin player direction = Return (false, ∅))).
Proof.
  intros Hwf Hd. unfold findFlippablePieces, findFlippablePieces_fuel.
  fold (opponent_of player).
  destruct (scan_loop_returns b player direction Hwf
              (S (Z.to_nat (maxBoardSize b))) (step_pos origin direction) ∅ Hd)
    as [r Hr]; [done| |].
  { intros Hin. pose proof (room_step b direction _ Hd Hin). lia. }
  rewrite Hr. cbn [obind].
  rewrite ray_first in Hr.
  replace (∅ : gset Position) with (run_cells origin direction (1 - 1)) in Hr
    by (by apply run_cells_empty).
  apply scan_loop_spec in Hr as (k & Hk & Hcells & Hend); [|done|lia|intros; lia].
  exists k. split; [lia|]. split; [done|].
  destruct Hend as [[Hanchor ->]|(Hn1 & Hn2 & ->)]; [left|right; by cbn].
  split; [done|]. cbn. by case_bool_decide as Hempty; cbn; rewrite ?Hempty.
Qed.

(** C1. On a well-formed board, for either player, any origin and any of
    the eight directions, the scan returns a set [S] (and the flag "[S] is
    not empty") such that: if the ray starts with a run of [k >= 1]
    opponent squares followed at once by a square of the player, [S] is
    exactly those [k] squares; if it does not, [S] is empty, in particular
    when the adjacent square is empty or off the board, when an empty
    square interrupts the run, when the run reaches the edge of the board,
    and when the player's own square is adjacent to the origin. *)
Theorem findFlippablePieces_run (b : Board) (player : Z) (origin direction : Position) :
  wf_board b → is_player player → direction ∈ directions →
  ∃ S, findFlippablePieces b origin player direction
         = Return (negb (bool_decide (S = ∅)), S) ∧
    (∀ k, capture_run b player origin direction k →
          S = run_cells origin direction k ∧ size S = Z.to_nat k) ∧
    ((¬ ∃ k, capture_run b player origin direction k) → S = ∅) ∧
    (owner b (ray origin direction 1) = Some 0 ∨
     owner b (ray origin direction 1) = None → S = ∅) ∧
    (∀ j, 1 ≤ j →
       (∀ i, 1 ≤ i < j → owner b (ray origin direction i) = Some (opponent_of player)) →
       owner b (ray origin direction j) = Some 0 → S = ∅) ∧
    (∀ j, 1 ≤ j →
       (∀ i, 1 ≤ i < j → owner b (ray origin direction i) = Some (opponent_of player)) →
       owner b (ray origin direction j) = None → S = ∅) ∧
    (owner b (ray origin direction 1) = Some player → S = ∅).
Proof.
  intros Hwf Hplayer Hdir.
  pose proof (directions_nonzero _ Hdir) as Hd.
  pose proof (opponent_of_ne player) as Hne.
  assert (player ≠ 0) as Hp0 by (destruct Hplayer; lia).
  destruct (findFlippablePieces_result b player origin direction Hwf Hd)
    as (k & Hk & Hcells & Hend).
  (* the set returned, and the fact that settles every case *)
  assert (∃ S, findFlippablePieces b origin player direction
                 = Return (negb (bool_decide (S = ∅)), S) ∧
               (∀ k', capture_run b player origin direction k' →
                      S = run_cells origin direction k') ∧
               ((¬ ∃ k', capture_run b player origin direction k') → S = ∅))
    as (S & Hret & Hrun & Hnone).
  { destruct Hend as [[Hanchor Hret]|(Hn1 & Hn2 & Hret)].
    - exists (run_cells origin direction k). split; [done|]. split.
      + intros k' (Hk' & Hcells' & Hanchor').
        destruct (Z.lt_trichotomy k k') as [Hlt|[->|Hgt]]; [|done|].
        * rewrite Hcells' in Hanchor by lia. congruence.
        * rewrite Hcells in Hanchor' by lia. congruence.
      + intros Hno. apply run_cells_empty.
        destruct (Z.le_gt_cases k 0) as [|Hpos]; [done|].
        exfalso. apply Hno. exists k. split; [lia|done].
    - exists ∅. split; [done|]. split; [|done].
      intros k' (Hk' & Hcells' & Hanchor').
      destruct (Z.lt_trichotomy k k') as [Hlt|[->|Hgt]]; [| |].
      * rewrite Hcells' in Hn2 by lia. congruence.
      * congruence.
      * rewrite Hcells in Hanchor' by lia. congruence. }
  exists S. split; [done|]. split.
  { intros k' Hk'. split; [by apply Hrun|].
    rewrite (Hrun k' Hk'). by apply size_run_cells. }
  split; [done|].
  assert (∀ j, 1 ≤ j →
            (∀ i, 1 ≤ i < j →
               owner b (ray origin direction i) = Some (opponent_of player)) →
            owner b (ray origin direction j) ≠ Some player →
            owner b (ray origin direction j) ≠ Some (opponent_of player) →
            S = ∅) as Hstop.
  { intros j Hj Hbefore Hnp Hno. apply Hnone.
    intros (k' & Hk' & Hcells' & Hanchor').
    destruct (Z.lt_trichotomy j (k' + 1)) as [Hlt|[->|Hgt]]; [|done|].
    - by rewrite Hcells' in Hno by lia.
    - rewrite Hbefore in Hanchor' by lia. congruence. }
  split.
  { intros [H1|H1]; apply (Hstop 1); try lia; rewrite H1; try congruence.
    unfold opponent_of. destruct (player =? 1); congruence. }
  split.
  { intros j Hj Hbefore Hj0. apply (Hstop j); try done; rewrite Hj0; try congruence.
    unfold opponent_of. destruct (player =? 1); congruence. }
  split.
  { intros j Hj Hbefore Hj0. apply (Hstop j); try done; by rewrite Hj0. }
  intros H1. apply Hnone. intros (k' & Hk' & Hcells' & _).
  rewrite Hcells' in H1 by lia. congruence.
Qed.

Lemma findFlippablePieces_run_witness :
  wf_board (seeded 4) ∧ is_player 1 ∧ (1, 0) ∈ directions ∧
  ∃ S, findFlippablePieces (seeded 4) (0, 2) 1 (1, 0)
         = Return (negb (bool_decide (S = ∅)), S) ∧
       S = run_cells (0, 2) (1, 0) 1.
Proof.
  assert (wf_board (seeded 4)) as Hwf by reflexivity.
  assert (is_player 1) as Hplayer by (by left).
  assert ((1, 0) ∈ directions) as Hdir by repeat constructor.
  do 3 (split; [done|]).
  destruct (findFlippablePieces_run (seeded 4) 1 (0, 2) (1, 0) Hwf Hplayer Hdir)
    as (S & Hret & Hrun & _).
  exists S. split; [done|]. apply Hrun.
  split; [lia|]. split; [|reflexivity].
  intros i Hi. assert (i = 1) as -> by lia. reflexivity.
Defined.

(** ** The move generator *)

Lemma findFlippablePieces_scan_set b position player direction :
  wf_board b → direction ≠ (0, 0) →
  findFlippablePieces b position player direction =
    Return (negb (bool_decide (scan_set b position player direction = ∅)),
            scan_set b position player direction) ∧
  ∀ q, q ∈ scan_set b position player direction →
       owner b q = Some (opponent_of player).
Proof.
  intros Hwf Hd. unfold scan_set.
  destruct (findFlippablePieces_result b player position direction Hwf Hd)
    as (k & Hk & Hcells & [[_ ->]|(_ & _ & ->)]); cbn.
  - split; [done|]. intros q (i & Hi & ->)%elem_of_run_cells. by apply Hcells.
  - split; [done|]. intros q Hq. by apply not_elem_of_empty in Hq.
Qed.

Lemma add_directions (b : Board) (position : Position) (player : Z)
    (ds : list Position) (acc : gset Position) :
  wf_board b → (∀ d, d ∈ ds → d ≠ (0, 0)) →
  for_acc (add_direction b position player) ds acc =
    Return (acc ∪ ⋃ (scan_set b position player <$> ds)).
Proof.
  intros Hwf. revert acc. induction ds as [|d ds IH]; intros acc Hds; cbn.
  - f_equal. set_solver.
  - unfold add_direction at 1.
    destruct (findFlippablePieces_scan_set b position player d Hwf) as [-> _].
    { apply Hds. by left. }
    cbn. rewrite IH by (intros d' Hd'; apply Hds; by right).
    f_equal. case_bool_decide as Hempty; cbn; [rewrite Hempty|]; set_solver.
Qed.

Lemma flippable_from_union b position player :
  wf_board b →
  flippable_from b position player = Return (capture_union b position player).
Proof.
  intros Hwf. unfold flippable_from, capture_union.
  rewrite add_directions; [|done|apply directions_nonzero].
  f_equal. set_solver.
Qed.

Lemma capture_union_owner b position player q :
  wf_board b → q ∈ capture_union b position player →
  owner b q = Some (opponent_of player).
Proof.
  intros Hwf. unfold capture_union. rewrite elem_of_union_list.
  intros (S & HS & Hq). apply list_elem_of_fmap in HS as (d & -> & Hd).
  apply directions_nonzero in Hd.
  by apply (findFlippablePieces_scan_set b position player d Hwf Hd).
Qed.

(** The loop of [getValidMoves] over any part of the board's entries. *)
Lemma valid_moves_loop (b : Board) (player : Z)
    (entries : list (Position * BoardSquare)) (acc : LegalMoveMap) :
  wf_board b → NoDup entries.*1 →
  (∀ position, position ∈ entries.*1 → acc !! position = None) →
  ∃ m,
    for_acc
      (λ (validMovesMap : LegalMoveMap) (entry : Position * BoardSquare),
         if isEmpty entry.2 then
           let position := entry.1 in
           do totalFlippablePieces <- flippable_from b position player;
           Return (if negb (bool_decide (totalFlippablePieces = ∅))
                   then <[position := totalFlippablePieces]> validMovesMap
                   else validMovesMap)
         else Return validMovesMap)
      entries acc = Return m ∧
    ∀ position S,
      m !! position = Some S ↔
      ((∃ sq, (position, sq) ∈ entries ∧ isEmpty sq = true ∧
              S = capture_union b position player ∧ S ≠ ∅) ∨
       acc !! position = Some S).
Proof.
  intros Hwf. revert acc.
  induction entries as [|[p sq] entries IH]; intros acc Hnd Hfresh.
  - exists acc. split; [done|]. intros position S. split; [by right|].
    intros [(sq & Hin & _)|H]; [inversion Hin|done].
  - apply NoDup_cons in Hnd as [Hp Hnd]. cbn [for_acc fst snd].
    rewrite flippable_from_union by done.
    set (acc' := if isEmpty sq
                 then (if negb (bool_decide (capture_union b p player = ∅))
                       then <[p := capture_union b p player]> acc else acc)
                 else acc).
    assert (acc !! p = None) as Hpacc by (apply Hfresh; left).
    assert (∀ position S,
              acc' !! position = Some S ↔
              (position = p ∧ isEmpty sq = true ∧
               S = capture_union b p player ∧ S ≠ ∅) ∨
              acc !! position = Some S) as Hacc'.
    { intros position S. subst acc'. destruct (isEmpty sq).
      - case_bool_decide as Hempty; cbn.
        + split; [by right|]. intros [(_ & _ & -> & Hne)|H]; done.
        + destruct (decide (position = p)) as [->|Hne].
          * rewrite lookup_insert_eq, Hpacc. split.
            -- intros [= <-]. by left.
            -- intros [(_ & _ & -> & _)|H]; done.
          * rewrite lookup_insert_ne by done. split; [by right|].
            intros [(? & _)|H]; done.
      - split; [by right|]. intros [(_ & ? & _)|H]; done. }
    destruct (IH acc' Hnd) as (m & Hm & Hlookup).
    { intros position Hin. apply eq_None_not_Some. intros [S HS].
      apply Hacc' in HS as [(-> & _)|HS]; [done|].
      rewrite Hfresh in HS; [done|]. by right. }
    exists m. split.
    { rewrite <- Hm. subst acc'. by destruct (isEmpty sq). }
    intros position S. rewrite Hlookup, Hacc'. clear Hlookup Hm Hacc'.
    split.
    + intros [(sq' & Hin & H)|[(-> & H)|H]].
      * left. exists sq'. split; [by right|done].
      * left. exists sq. split; [by left|done].
      * by right.
    + intros [(sq' & Hin & H)|H]; [|by right; right].
      apply elem_of_cons in Hin as [[= -> ->]|Hin].
      * right. by left.
      * left. by exists sq'.
Qed.

(** The legal moves of a well-formed board. *)
Lemma getValidMoves_lookup (b : Board) (player : Z) :
  wf_board b →
  ∃ m, getValidMoves b player = Return m ∧
    ∀ position S,
      m !! position = Some S ↔
      owner b position = Some 0 ∧ S = capture_union b position player ∧ S ≠ ∅.
Proof.
  intros Hwf.
  destruct (valid_moves_loop b player (map_entries (board b)) ∅ Hwf)
    as (m & Hm & Hlookup); [apply NoDup_map_entries_keys|done|].
  exists m. split; [done|]. intros position S. rewrite Hlookup, lookup_empty.
  unfold owner, isEmpty, getValue. split.
  - intros [(sq & Hin & Hsq & H)|[=]]. apply elem_of_map_entries in Hin.
    rewrite Hin. cbn. split; [|done]. f_equal. lia.
  - intros [Hown H]. left.
    destruct (board b !! position) as [sq|] eqn:Hsq; [|done].
    exists sq. split; [by apply elem_of_map_entries|].
    split; [|done]. cbn in Hown. apply Z.eqb_eq. congruence.
Qed.

(** C2. On a well-formed board the move generator returns a map in which a
    position is a key exactly when its square is empty and the union of the
    scans of its eight rays is not empty, the value under the key being that
    union; each of the eight scans returns, and [capture_union] is the union
    of what they return.  On the board built for size 4 the legal moves of X
    are (0,2), (1,3), (2,0) and (3,1), capturing (1,2), (1,2), (2,1) and
    (2,1). *)
Theorem getValidMoves_spec :
  (∀ (b : Board) (player : Z),
     wf_board b →
     ∃ m, getValidMoves b player = Return m ∧
       (∀ position direction, direction ∈ directions →
          ∃ flag, findFlippablePieces b position player direction =
                    Return (flag, scan_set b position player direction)) ∧
       (∀ position,
          capture_union b position player =
            ⋃ (scan_set b position player <$> directions)) ∧
       (∀ position,
          position ∈ dom m ↔
          owner b position = Some 0 ∧ capture_union b position player ≠ ∅) ∧
       (∀ position S,
          m !! position = Some S →
          S = capture_union b position player)) ∧
  (∃ b, Board_new 4 = Return b ∧
        getValidMoves b 1 =
          Return (<[(0, 2) := {[ (1, 2) ]}]>
                  (<[(1, 3) := {[ (1, 2) ]}]>
                   (<[(2, 0) := {[ (2, 1) ]}]>
                    (<[(3, 1) := {[ (2, 1) ]}]> ∅))))).
Proof.
  split.
  - intros b player Hwf.
    destruct (getValidMoves_lookup b player Hwf) as (m & Hm & Hlookup).
    exists m. split; [done|]. split; [|split; [done|split]].
    + intros position direction Hd. eexists.
      by apply findFlippablePieces_scan_set, directions_nonzero.
    + intros position. rewrite elem_of_dom. split.
      * intros [S HS]. apply Hlookup in HS as (? & -> & ?). done.
      * intros [Hown Hne]. exists (capture_union b position player).
        by apply Hlookup.
    + intros position S HS. by apply Hlookup in HS as (_ & -> & _).
  - exists (seeded 4). split; [by apply Board_new_seeded|].
    vm_compute. reflexivity.
Qed.

Lemma getValidMoves_spec_witness :
  wf_board (seeded 4) ∧
  ∃ m, getValidMoves (seeded 4) 2 = Return m ∧
       ((0, 1) ∈ dom m ↔
        owner (seeded 4) (0, 1) = Some 0 ∧ capture_union (seeded 4) (0, 1) 2 ≠ ∅).
Proof.
  assert (wf_board (seeded 4)) as Hwf by reflexivity.
  split; [done|].
  destruct (proj1 getValidMoves_spec (seeded 4) 2 Hwf)
    as (m & Hm & _ & _ & Hdom & _).
  exists m. split; [done|]. apply Hdom.
Defined.

(** C8. A key of the map generated from a well-formed board is an empty
    square of that board: [setPiece] accepts the piece there, and placing
    it with the stored capture set does not throw the occupied-square
    error. *)
Theorem legal_move_not_occupied (b : Board) (player : Z) (m : LegalMoveMap)
    (position : Position) (toFlip : gset Position) :
  wf_board b → getValidMoves b player = Return m →
  m !! position = Some toFlip →
  owner b position = Some 0 ∧
  (∃ sq, board b !! position = Some sq ∧
         setPiece player sq = Return (mkSquare player)) ∧
  (placePiece position player toFlip b).2 ≠ Throw SquareOccupied.
Proof.
  intros Hwf Hm Hkey.
  destruct (getValidMoves_lookup b player Hwf) as (m' & Hm' & Hlookup).
  rewrite Hm in Hm'. injection Hm' as <-.
  apply Hlookup in Hkey as (Hown & -> & Hne).
  split; [done|]. unfold owner in Hown.
  destruct (board b !! position) as [sq|] eqn:Hsq; [|done].
  cbn in Hown. injection Hown as Hval. unfold getValue in Hval.
  assert (setPiece player sq = Return (mkSquare player)) as Hset.
  { unfold setPiece. by rewrite Hval. }
  split; [by exists sq|].
  unfold placePiece, ebind.
  rewrite (at_square_Return _ _ _ sq (mkSquare player)) by done.
  set (b1 := mkBoard _ _).
  assert (∀ (l : list Position) (b0 b' : Board) (r : outcome unit),
            for_each l (λ flipPosition, at_square flipPosition flipPiece) b0
              = (b', r) → r ≠ Throw SquareOccupied) as Hflips.
  { clear. induction l as [|q l IH]; intros b0 b' r; cbn.
    - unfold eret. by intros [= <- <-].
    - unfold ebind, at_square.
      destruct (board b0 !! q) as [sq|]; [|by intros [= <- <-]].
      unfold flipPiece. destruct (value sq =? 0); [by intros [= <- <-]|].
      apply IH. }
  destruct (for_each _ _ b1) as [b' r] eqn:Hr. cbn. by eapply Hflips.
Qed.

Lemma legal_move_not_occupied_witness :
  wf_board (seeded 4) ∧
  getValidMoves (seeded 4) 1 =
    Return (<[(0, 2) := {[ (1, 2) ]}]>
            (<[(1, 3) := {[ (1, 2) ]}]>
             (<[(2, 0) := {[ (2, 1) ]}]>
              (<[(3, 1) := {[ (2, 1) ]}]> ∅)))) ∧
  owner (seeded 4) (0, 2) = Some 0 ∧
  (placePiece (0, 2) 1 {[ (1, 2) ]} (seeded 4)).2 ≠ Throw SquareOccupied.
Proof.
  assert (wf_board (seeded 4)) as Hwf by reflexivity.
  assert (getValidMoves (seeded 4) 1 =
    Return (<[(0, 2) := {[ (1, 2) ]}]>
            (<[(1, 3) := {[ (1, 2) ]}]>
             (<[(2, 0) := {[ (2, 1) ]}]>
              (<[(3, 1) := {[ (2, 1) ]}]> ∅))))) as Hm
    by (vm_compute; reflexivity).
  split; [done|]. split; [done|].
  destruct (legal_move_not_occupied (seeded 4) 1 _ (0, 2) {[ (1, 2) ]} Hwf Hm)
    as (Hown & _ & Hplace); [reflexivity|].
  by split.
Defined.

(** ** placePiece *)

Lemma at_square_frame position method b :
  dom (board (at_square position method b).1) = dom (board b) ∧
  maxBoardSize (at_square position method b).1 = maxBoardSize b.
Proof.
  unfold at_square. destruct (board b !! position) as [sq|] eqn:Hsq; [|done].
  destruct (method sq); cbn; try done. split; [|done].
  rewrite dom_insert_L. apply elem_of_dom_2 in Hsq. set_solver.
Qed.

Lemma ebind_frame {A} (P : Board → Board → Prop) (m : Eff Board A)
    (k : A → Eff Board unit) b :
  (∀ b0, P b0 b0) → (∀ b0 b1 b2, P b0 b1 → P b1 b2 → P b0 b2) →
  (∀ b0, P b0 (m b0).1) → (∀ a b0, P b0 (k a b0).1) →
  P b (ebind m k b).1.
Proof.
  intros Hrefl Htrans Hm Hk. unfold ebind. specialize (Hm b).
  destruct (m b) as [b1 [a|e| |]]; cbn in *; try done.
  eapply Htrans; [done|apply Hk].
Qed.

Lemma for_each_frame (l : list Position) method b :
  same_frame b (for_each l (λ q, at_square q method) b).1.
Proof.
  revert b. induction l as [|q l IH]; intros b; cbn; [done|].
  apply (ebind_frame same_frame); try done.
  - intros b0 b1 b2 [??] [??]. split; congruence.
  - intros b0. apply at_square_frame.
Qed.

Lemma placePiece_frame position player toFlip b :
  same_frame b (placePiece position player toFlip b).1.
Proof.
  unfold placePiece. apply (ebind_frame same_frame); try done.
  - intros b0 b1 b2 [??] [??]. split; congruence.
  - intros b0. apply at_square_frame.
  - intros _ b0. apply for_each_frame.
Qed.

Lemma placePiece_wf position player toFlip b :
  wf_board b → wf_board (placePiece position player toFlip b).1.
Proof.
  unfold wf_board.
  destruct (placePiece_frame position player toFlip b) as [-> ->]. done.
Qed.

Lemma flipPiece_Return sq : value sq ≠ 0 → flipPiece sq = Return (flipped sq).
Proof.
  intros Hv. unfold flipPiece, flipped, opponent_of.
  by destruct (Z.eqb_spec (value sq) 0).
Qed.

(** Flipping a list of distinct occupied squares. *)
Lemma for_each_flip_Return (l : list Position) (b : Board) :
  NoDup l →
  (∀ q, q ∈ l → ∃ sq, board b !! q = Some sq ∧ value sq ≠ 0) →
  ∃ b', for_each l (λ q, at_square q flipPiece) b = (b', Return tt) ∧
    ∀ q, board b' !! q =
         if decide (q ∈ l) then flipped <$> board b !! q else board b !! q.
Proof.
  revert b. induction l as [|p l IH]; intros b Hnd Hocc.
  - exists b. split; [done|]. intros q. rewrite decide_False; [done|].
    intros H; inversion H.
  - apply NoDup_cons in Hnd as [Hp Hnd].
    destruct (Hocc p) as (sq & Hsq & Hv); [by left|].
    cbn [for_each]. unfold ebind at 1.
    rewrite (at_square_Return _ _ _ sq (flipped sq)) by (by try apply flipPiece_Return).
    set (b1 := mkBoard _ _).
    destruct (IH b1 Hnd) as (b' & Hb' & Hlookup).
    { intros q Hq. destruct (Hocc q) as (sq' & Hsq' & Hv'); [by right|].
      exists sq'. split; [|done]. subst b1. cbn.
      rewrite lookup_insert_ne; [done|]. by intros ->. }
    exists b'. split; [done|]. intros q. rewrite Hlookup. subst b1. cbn.
    destruct (decide (q = p)) as [->|Hne].
    + rewrite decide_False by done. rewrite decide_True by left.
      by rewrite lookup_insert_eq, Hsq.
    + rewrite lookup_insert_ne by done.
      destruct (decide (q ∈ l)) as [Hin|Hnin].
      * by rewrite decide_True by (by right).
      * rewrite decide_False; [done|]. by intros [?|?]%elem_of_cons.
Qed.

(** Flipping a list of distinct squares up to the first throw. *)
Lemma for_each_flip_Throw (l : list Position) (b b' : Board) (e : exn) :
  NoDup l →
  for_each l (λ q, at_square q flipPiece) b = (b', Throw e) →
  ∃ front bad back, l = front ++ bad :: back ∧
    (e = FlipEmpty ∧ value <$> board b !! bad = Some 0 ∨
     e = OutOfRange ∧ board b !! bad = None) ∧
    (∀ q, q ∈ front → ∃ sq, board b !! q = Some sq ∧ value sq ≠ 0) ∧
    ∀ q, board b' !! q =
         if decide (q ∈ front) then flipped <$> board b !! q else board b !! q.
Proof.
  revert b. induction l as [|p l IH]; intros b Hnd; [done|].
  apply NoDup_cons in Hnd as [Hp Hnd].
  cbn [for_each]. unfold ebind at 1, at_square at 1.
  destruct (board b !! p) as [sq|] eqn:Hsq.
  - unfold flipPiece at 1. destruct (Z.eqb_spec (value sq) 0) as [Hv|Hv].
    + intros [= <- <-]. exists [], p, l. split; [done|].
      split; [left; by rewrite Hsq; cbn; rewrite Hv|].
      split; [intros q Hq; inversion Hq|]. intros q.
      rewrite decide_False; [done|]. intros Hq; inversion Hq.
    + set (b1 := mkBoard _ _). intros Hrest.
      destruct (IH b1 Hnd Hrest) as (front & bad & back & -> & Hbad & Hfront & Hlookup).
      assert (∀ q, q ∈ front ++ bad :: back → board b1 !! q = board b !! q) as Hb1.
      { intros q Hq. subst b1. cbn. rewrite lookup_insert_ne; [done|].
        by intros ->. }
      exists (p :: front), bad, back. split; [done|]. split.
      { rewrite <- Hb1; [done|]. apply elem_of_app. right. by left. }
      split.
      { intros q [->|Hq]%elem_of_cons; [by exists sq|].
        rewrite <- Hb1; [by apply Hfront|]. apply elem_of_app. by left. }
      intros q. rewrite Hlookup. subst b1. cbn.
      destruct (decide (q = p)) as [->|Hne].
      * rewrite decide_False.
        2: { intros Hq. apply Hp, elem_of_app. by left. }
        rewrite decide_True by left. by rewrite lookup_insert_eq, Hsq.
      * rewrite lookup_insert_ne by done.
        destruct (decide (q ∈ front)) as [Hin|Hnin].
        -- by rewrite decide_True by (by right).
        -- rewrite decide_False; [done|]. by intros [?|?]%elem_of_cons.
  - intros [= <- <-]. exists [], p, l. split; [done|].
    split; [by right|].
    split; [intros q Hq; inversion Hq|]. intros q.
    rewrite decide_False; [done|]. intros Hq; inversion Hq.
Qed.

(** C3. Playing a legal move - a key of the map generated from the same
    well-formed board, with the capture set stored under it - returns
    normally; afterwards the square played holds the player, every captured
    square, which held the opponent, holds the player, and every other
    square holds what it held. *)
Theorem placePiece_legal (b : Board) (player : Z) (m : LegalMoveMap)
    (position : Position) (toFlip : gset Position) :
  wf_board b → is_player player →
  getValidMoves b player = Return m → m !! position = Some toFlip →
  ∃ b', placePiece position player toFlip b = (b', Return tt) ∧
    owner b' position = Some player ∧
    (∀ q, q ∈ toFlip →
       owner b q = Some (opponent_of player) ∧
       owner b' q = opponent_of <$> owner b q ∧
       owner b' q = Some player) ∧
    (∀ q, q ≠ position → q ∉ toFlip → board b' !! q = board b !! q) ∧
    maxBoardSize b' = maxBoardSize b.
Proof.
  intros Hwf Hplayer Hm Hkey.
  destruct (getValidMoves_lookup b player Hwf) as (m' & Hm' & Hlookup).
  rewrite Hm in Hm'. injection Hm' as <-.
  apply Hlookup in Hkey as (Hown & -> & Hne).
  set (toFlip := capture_union b position player) in *.
  destruct (opponent_of_player player Hplayer) as [Hopp Hoppv].
  assert (∀ q, q ∈ toFlip → owner b q = Some (opponent_of player)) as Hcaps.
  { intros q Hq. by apply (capture_union_owner b position player). }
  assert (position ∉ toFlip) as Hnotin.
  { intros Hin. apply Hcaps in Hin. rewrite Hown in Hin.
    injection Hin as Hin. destruct Hopp; lia. }
  unfold owner in Hown.
  destruct (board b !! position) as [sq|] eqn:Hsq; [|done].
  cbn in Hown. injection Hown as Hval. unfold getValue in Hval.
  set (b1 := mkBoard (<[position := mkSquare player]> (board b)) (maxBoardSize b)).
  assert (∀ q, q ≠ position → board b1 !! q = board b !! q) as Hb1.
  { intros q Hq. subst b1. cbn. by rewrite lookup_insert_ne. }
  destruct (for_each_flip_Return (set_entries toFlip) b1) as (b' & Hfe & Hlookup').
  { apply NoDup_set_entries. }
  { intros q Hq%elem_of_set_entries. rewrite Hb1 by (by intros ->).
    specialize (Hcaps q Hq). unfold owner in Hcaps.
    destruct (board b !! q) as [sq'|]; [|done]. exists sq'. split; [done|].
    cbn in Hcaps. injection Hcaps as Hv. unfold getValue in Hv.
    destruct Hopp; lia. }
  assert (placePiece position player toFlip b = (b', Return tt)) as Hplace.
  { unfold placePiece, ebind.
    by rewrite (at_square_Return _ _ _ sq (mkSquare player));
      [|done|by unfold setPiece; rewrite Hval]. }
  exists b'. split; [done|].
  assert (∀ q, board b' !! q =
               if decide (q ∈ toFlip) then flipped <$> board b1 !! q
               else board b1 !! q) as Hb'.
  { intros q. rewrite Hlookup'.
    destruct (decide (q ∈ toFlip)) as [Hq|Hq].
    - by rewrite decide_True by (by apply elem_of_set_entries).
    - rewrite decide_False; [done|]. by rewrite elem_of_set_entries. }
  split; [|split; [|split]].
  - unfold owner. rewrite Hb', decide_False by done. subst b1. cbn.
    by rewrite lookup_insert_eq.
  - intros q Hq. specialize (Hcaps q Hq). split; [done|].
    unfold owner in *. rewrite Hb', decide_True by done.
    rewrite Hb1 by (by intros ->).
    destruct (board b !! q) as [sq'|]; [|done]. cbn in *.
    injection Hcaps as Hv. unfold getValue in *. rewrite Hv.
    split; [done|]. f_equal. rewrite Hoppv. unfold opponent_of.
    destruct Hplayer as [-> | ->]; reflexivity.
  - intros q Hq1 Hq2. rewrite Hb', decide_False by done. by apply Hb1.
  - pose proof (placePiece_frame position player toFlip b) as [_ Hsize].
    by rewrite Hplace in Hsize.
Qed.

Lemma placePiece_legal_witness :
  wf_board (seeded 4) ∧ is_player 1 ∧
  getValidMoves (seeded 4) 1 =
    Return (<[(0, 2) := {[ (1, 2) ]}]>
            (<[(1, 3) := {[ (1, 2) ]}]>
             (<[(2, 0) := {[ (2, 1) ]}]>
              (<[(3, 1) := {[ (2, 1) ]}]> ∅)))) ∧
  ∃ b', placePiece (0, 2) 1 {[ (1, 2) ]} (seeded 4) = (b', Return tt) ∧
        owner b' (0, 2) = Some 1 ∧ owner b' (1, 2) = Some 1 ∧
        owner (seeded 4) (1, 2) = Some 2.
Proof.
  assert (wf_board (seeded 4)) as Hwf by reflexivity.
  assert (is_player 1) as Hplayer by (by left).
  assert (getValidMoves (seeded 4) 1 =
    Return (<[(0, 2) := {[ (1, 2) ]}]>
            (<[(1, 3) := {[ (1, 2) ]}]>
             (<[(2, 0) := {[ (2, 1) ]}]>
              (<[(3, 1) := {[ (2, 1) ]}]> ∅))))) as Hm
    by (vm_compute; reflexivity).
  do 3 (split; [done|]).
  destruct (placePiece_legal (seeded 4) 1 _ (0, 2) {[ (1, 2) ]} Hwf Hplayer Hm)
    as (b' & Hplace & Hpos & Hcaps & _); [reflexivity|].
  exists b'. split; [done|]. split; [done|].
  destruct (Hcaps (1, 2)) as (Hbefore & _ & Hafter); [by apply elem_of_singleton|].
  by split.
Defined.

Lemma Board_new_size_witness :
  Board_new 3 = Throw InvalidSize ∧ ∃ b, Board_new 4 = Return b.
Proof.
  destruct (Board_new_size 3) as ([_ Hthrow] & _).
  destruct (Board_new_size 4) as (_ & _ & _ & Hret).
  split; [apply Hthrow|apply Hret]; lia.
Defined.

(** [placePiece] that throws the empty-flip error, for any set of
    positions: with [front] the positions that come before the offending
    one in the order of the set, the squares of [front] have been flipped,
    the square played - empty before the call - holds the player, unless
    it is itself in [front], in which case it has been flipped to the
    opponent, and every other square is untouched. *)
Lemma placePiece_FlipEmpty (b b' : Board) (position : Position)
    (player : Z) (toFlip : gset Position) :
  is_player player →
  placePiece position player toFlip b = (b', Throw FlipEmpty) →
  ∃ front bad back,
    set_entries toFlip = front ++ bad :: back ∧
    (∀ q, q ∈ front ↔ q ∈ toFlip ∧ pair_le q bad ∧ q ≠ bad) ∧
    bad ∈ toFlip ∧ owner b bad = Some 0 ∧ owner b' bad = Some 0 ∧
    owner b position = Some 0 ∧
    (position ∉ front → owner b' position = Some player) ∧
    (position ∈ front → owner b' position = Some (opponent_of player)) ∧
    (∀ q, q ∈ front → q ≠ position →
       ∃ v, v ≠ 0 ∧ owner b q = Some v ∧ owner b' q = Some (opponent_of v)) ∧
    (∀ q, q ∉ front → q ≠ position → board b' !! q = board b !! q) ∧
    b' ≠ b.
Proof.
  intros Hplayer. unfold placePiece, ebind, at_square at 1.
  destruct (board b !! position) as [sq|] eqn:Hsq; [|done].
  unfold setPiece. destruct (Z.eqb_spec (value sq) 0) as [Hval|Hval]; [|done].
  cbn [negb]. set (b1 := mkBoard _ _). intros Hfe.
  assert (player ≠ 0) as Hp0 by (destruct Hplayer; lia).
  assert (∀ q, q ≠ position → board b1 !! q = board b !! q) as Hb1.
  { intros q Hq. subst b1. cbn. by rewrite lookup_insert_ne. }
  assert (board b1 !! position = Some (mkSquare player)) as Hb1pos.
  { subst b1. cbn. by rewrite lookup_insert_eq. }
  destruct (for_each_flip_Throw _ _ _ _ (NoDup_set_entries toFlip) Hfe)
    as (front & bad & back & Hsplit & [[_ Hbad]|[[=] _]] & Hfront & Hlookup).
  assert (bad ≠ position) as Hbadpos.
  { intros ->. rewrite Hb1pos in Hbad. cbn in Hbad. congruence. }
  assert (bad ∉ front) as Hbadfront.
  { pose proof (NoDup_set_entries toFlip) as Hnd. rewrite Hsplit in Hnd.
    apply NoDup_app in Hnd as (_ & Hdis & _). intros Hin.
    apply (Hdis bad Hin). left. }
  assert (owner b' position =
          Some (if decide (position ∈ front) then opponent_of player else player))
    as Hpos.
  { unfold owner. rewrite Hlookup, Hb1pos. by case_decide. }
  exists front, bad, back. split; [done|]. split.
  { intros q. rewrite <- (elem_of_set_entries toFlip q), Hsplit.
    apply sorted_split_before; rewrite <- Hsplit.
    - apply set_entries_sorted.
    - apply NoDup_set_entries. }
  split.
  { apply elem_of_set_entries. rewrite Hsplit, elem_of_app. right. left. }
  split; [by unfold owner; rewrite <- Hb1|].
  split; [by unfold owner; rewrite Hlookup, decide_False|].
  split; [by unfold owner, getValue; rewrite Hsq; cbn; rewrite Hval|].
  split; [by intros Hnin; rewrite Hpos, decide_False|].
  split; [by intros Hin; rewrite Hpos, decide_True|].
  split.
  { intros q Hq Hne. destruct (Hfront q Hq) as (sq' & Hsq' & Hv).
    exists (value sq'). split; [done|]. unfold owner.
    rewrite Hlookup, decide_True by done.
    rewrite Hb1 in Hsq' by done. rewrite Hb1 by done. by rewrite Hsq'. }
  split.
  { intros q Hq Hne. rewrite Hlookup, decide_False by done. by apply Hb1. }
  intros ->. unfold owner, getValue in Hpos. rewrite Hsq in Hpos. cbn in Hpos.
  injection Hpos as Hpos. rewrite Hval in Hpos.
  destruct (opponent_of_player player Hplayer) as [Hopp _].
  case_decide; destruct Hopp; lia.
Qed.

(** C10. [placePiece] is not atomic on failure. For every board and every
    capture set - a set of positions that does not hold the square played -
    if the call throws the empty-flip error, then the set holds a position
    whose square is empty, the square played, empty before the call, holds
    the player, every capture position that comes before the offending one
    in the order of the set has been flipped, every other square is
    untouched, and the board is not the one before the call. *)
Theorem placePiece_throw_keeps_writes (b b' : Board) (position : Position)
    (player : Z) (toFlip : gset Position) :
  is_player player → position ∉ toFlip →
  placePiece position player toFlip b = (b', Throw FlipEmpty) →
  ∃ front bad back,
    set_entries toFlip = front ++ bad :: back ∧
    (∀ q, q ∈ front ↔ q ∈ toFlip ∧ pair_le q bad ∧ q ≠ bad) ∧
    bad ∈ toFlip ∧ owner b bad = Some 0 ∧ owner b' bad = Some 0 ∧
    owner b position = Some 0 ∧
    owner b' position = Some player ∧
    (∀ q, q ∈ front →
       ∃ v, v ≠ 0 ∧ owner b q = Some v ∧ owner b' q = Some (opponent_of v)) ∧
    (∀ q, q ∉ front → q ≠ position → board b' !! q = board b !! q) ∧
    b' ≠ b.
Proof.
  intros Hplayer Hnotin Hplace.
  destruct (placePiece_FlipEmpty b b' position player toFlip Hplayer Hplace)
    as (front & bad & back & Hsplit & Hfront & Hbad & Hown & Hown' & Hpos
        & Hplayed & _ & Hflipped & Hrest & Hdiff).
  assert (position ∉ front) as Hnotfront.
  { intros Hin. apply Hfront in Hin as [Hin _]. by apply Hnotin. }
  exists front, bad, back.
  split; [exact Hsplit|]. split; [exact Hfront|]. split; [exact Hbad|].
  split; [exact Hown|]. split; [exact Hown'|]. split; [exact Hpos|].
  split; [by apply Hplayed|]. split; [|by split].
  intros q Hq. apply Hflipped; [exact Hq|]. by intros ->.
Qed.

Lemma placePiece_throw_keeps_writes_witness :
  is_player 1 ∧ ((0, 2) ∉ ({[ (1, 2); (3, 3) ]} : gset Position)) ∧
  (placePiece (0, 2) 1 {[ (1, 2); (3, 3) ]} (seeded 4)).2 = Throw FlipEmpty ∧
  owner (seeded 4) (0, 2) = Some 0 ∧
  owner (placePiece (0, 2) 1 {[ (1, 2); (3, 3) ]} (seeded 4)).1 (0, 2) = Some 1 ∧
  (placePiece (0, 2) 1 {[ (1, 2); (3, 3) ]} (seeded 4)).1 ≠ seeded 4.
Proof.
  assert (is_player 1) as Hplayer by (by left).
  assert ((0, 2) ∉ ({[ (1, 2); (3, 3) ]} : gset Position)) as Hnotin.
  { intros [Hin|Hin]%elem_of_union; apply elem_of_singleton in Hin;
      discriminate Hin. }
  split; [done|]. split; [done|]. split; [vm_compute; reflexivity|].
  destruct (placePiece_throw_keeps_writes (seeded 4)
              (placePiece (0, 2) 1 {[ (1, 2); (3, 3) ]} (seeded 4)).1
              (0, 2) 1 {[ (1, 2); (3, 3) ]} Hplayer Hnotin)
    as (front & bad & back & _ & _ & _ & _ & _ & Hown & Hplayed & _ & _ & Hdiff).
  { vm_compute. reflexivity. }
  by split.
Defined.

(** ** Conservation of the squares *)

Lemma count_if_three {A} (p1 p2 p3 : A → bool) (l : list A) :
  (∀ x, x ∈ l →
     (if p1 x then 1 else 0) + (if p2 x then 1 else 0) + (if p3 x then 1 else 0) = 1) →
  count_if p1 l + count_if p2 l + count_if p3 l = Z.of_nat (length l).
Proof.
  induction l as [|x l IH]; intros H; cbn [count_if length]; [done|].
  specialize (H x (list_elem_of_here _ _)) as Hx.
  rewrite Nat2Z.inj_succ, <- IH; [lia|]. intros y Hy. apply H. by right.
Qed.

Lemma valid_cells_count b :
  valid_cells b →
  countOwned b 1 + countOwned b 2 + countEmpty b = Z.of_nat (size (board b)).
Proof.
  intros Hvalid. unfold countOwned, countEmpty.
  rewrite count_if_three, length_map_entries; [done|].
  intros [q sq] Hin%elem_of_map_entries. specialize (Hvalid q sq Hin).
  unfold isEmpty, getValue. cbn.
  destruct Hvalid as [-> |[-> | ->]]; reflexivity.
Qed.

Lemma squares_NoDup size : NoDup (squares size).
Proof.
  unfold squares. apply NoDup_bind; [| |apply NoDup_seqZ].
  - intros r1 r2 q _ _ (c1 & Hq1 & _)%list_elem_of_bind (c2 & Hq2 & _)%list_elem_of_bind.
    apply list_elem_of_singleton in Hq1, Hq2. congruence.
  - intros r _. apply NoDup_bind; [| |apply NoDup_seqZ].
    + intros c1 c2 q _ _ Hq1%list_elem_of_singleton Hq2%list_elem_of_singleton.
      congruence.
    + intros c _. apply NoDup_singleton.
Qed.

Lemma length_bind_const {A B} (f : A → list B) (l : list A) (n : nat) :
  (∀ x, length (f x) = n) → length (l ≫= f) = (length l * n)%nat.
Proof.
  intros Hf. induction l as [|x l IH]; [done|].
  rewrite bind_cons, length_app, Hf, IH. cbn. lia.
Qed.

Lemma squares_length size : 0 ≤ size → Z.of_nat (length (squares size)) = size * size.
Proof.
  intros Hsize. unfold squares.
  rewrite (length_bind_const _ _ (Z.to_nat size)).
  - rewrite length_seqZ. lia.
  - intros r. rewrite (length_bind_const _ _ 1%nat) by done.
    rewrite length_seqZ. lia.
Qed.

Lemma wf_board_size b :
  wf_board b → 0 ≤ maxBoardSize b →
  Z.of_nat (size (board b)) = maxBoardSize b * maxBoardSize b.
Proof.
  intros Hwf Hsize. rewrite <- size_dom, Hwf.
  rewrite size_list_to_set by apply squares_NoDup. by apply squares_length.
Qed.

Lemma seeded_valid_cells size : valid_cells (seeded size).
Proof.
  intros [r c] sq. rewrite seeded_lookup. cbn zeta.
  repeat case_decide; intros [= <-]; cbn; lia.
Qed.

Lemma Board_new_Return (size : Z) (b : Board) :
  Board_new size = Return b → 4 ≤ size ∧ b = seeded size.
Proof.
  intros Hnew. destruct (Z.lt_ge_cases size 4) as [Hlt|Hge].
  - unfold Board_new in Hnew. by destruct (Z.ltb_spec size 4); [|lia].
  - rewrite (Board_new_seeded size Hge) in Hnew. by injection Hnew as <-.
Qed.

(** The board after a legal move, square by square. *)
Lemma legal_move_placed (b : Board) (player : Z) (m : LegalMoveMap)
    (position : Position) (toFlip : gset Position) :
  wf_board b → getValidMoves b player = Return m →
  m !! position = Some toFlip →
  owner b position = Some 0 ∧ (position ∉ toFlip) ∧ toFlip ≠ ∅ ∧
  (∀ q, q ∈ toFlip → owner b q = Some (opponent_of player)) ∧
  ∃ b', placePiece position player toFlip b = (b', Return tt) ∧
    maxBoardSize b' = maxBoardSize b ∧
    ∀ q, board b' !! q =
         if decide (q = position) then Some (mkSquare player)
         else if decide (q ∈ toFlip)
              then Some (mkSquare (opponent_of (opponent_of player)))
              else board b !! q.
Proof.
  intros Hwf Hm Hkey.
  destruct (getValidMoves_lookup b player Hwf) as (m' & Hm' & Hlookup).
  rewrite Hm in Hm'. injection Hm' as <-.
  apply Hlookup in Hkey as (Hown & -> & Hne).
  set (toFlip := capture_union b position player) in *.
  assert (opponent_of player ≠ 0) as Hopp0.
  { unfold opponent_of. by destruct (player =? 1). }
  assert (∀ q, q ∈ toFlip → owner b q = Some (opponent_of player)) as Hcaps.
  { intros q Hq. by apply (capture_union_owner b position player). }
  assert (position ∉ toFlip) as Hnotin.
  { intros Hin. apply Hcaps in Hin. rewrite Hown in Hin. congruence. }
  do 4 (split; [done|]).
  unfold owner in Hown.
  destruct (board b !! position) as [sq|] eqn:Hsq; [|done].
  cbn in Hown. injection Hown as Hval. unfold getValue in Hval.
  set (b1 := mkBoard (<[position := mkSquare player]> (board b)) (maxBoardSize b)).
  assert (∀ q, q ≠ position → board b1 !! q = board b !! q) as Hb1.
  { intros q Hq. subst b1. cbn. by rewrite lookup_insert_ne. }
  destruct (for_each_flip_Return (set_entries toFlip) b1) as (b' & Hfe & Hlookup').
  { apply NoDup_set_entries. }
  { intros q Hq%elem_of_set_entries. rewrite Hb1 by (by intros ->).
    specialize (Hcaps q Hq). unfold owner in Hcaps.
    destruct (board b !! q) as [sq'|]; [|done]. exists sq'. split; [done|].
    cbn in Hcaps. injection Hcaps as Hv. unfold getValue in Hv. congruence. }
  assert (placePiece position player toFlip b = (b', Return tt)) as Hplace.
  { unfold placePiece, ebind.
    by rewrite (at_square_Return _ _ _ sq (mkSquare player));
      [|done|by unfold setPiece; rewrite Hval]. }
  exists b'. split; [done|]. split.
  { pose proof (placePiece_frame position player toFlip b) as [_ Hsize].
    by rewrite Hplace in Hsize. }
  intros q. rewrite Hlookup'.
  destruct (decide (q = position)) as [->|Hq].
  - rewrite decide_False by (by rewrite elem_of_set_entries).
    subst b1. cbn. by rewrite lookup_insert_eq.
  - rewrite Hb1 by done. destruct (decide (q ∈ toFlip)) as [Hin|Hnin].
    + rewrite decide_True by (by apply elem_of_set_entries).
      specialize (Hcaps q Hin). unfold owner in Hcaps.
      destruct (board b !! q) as [sq'|]; [|done]. cbn in *.
      injection Hcaps as Hv. unfold flipped, getValue in *. by rewrite Hv.
    + by rewrite decide_False by (by rewrite elem_of_set_entries).
Qed.

Lemma opponent_of_twice (player : Z) :
  is_player player → opponent_of (opponent_of player) = player.
Proof. by intros [-> | ->]. Qed.

(** What holds of every board of a game. *)
Lemma reached_invariant size b :
  reached size b →
  4 ≤ size ∧ maxBoardSize b = size ∧ wf_board b ∧ valid_cells b.
Proof.
  induction 1 as [b Hnew|b player _ IH _ _
                  |b player m position toFlip b' _ IH Hplayer Hm Hkey Hplace].
  - destruct (Board_new_Return size b Hnew) as [Hsize ->].
    split; [done|]. split; [done|].
    split; [by apply seeded_wf|apply seeded_valid_cells].
  - done.
  - destruct IH as (Hsize & Hmax & Hwf & Hvalid).
    destruct (legal_move_placed b player m position toFlip Hwf Hm Hkey)
      as (_ & _ & _ & _ & b'' & Hplace' & Hmax' & Hlookup).
    rewrite Hplace in Hplace'. injection Hplace' as <-.
    split; [done|]. split; [congruence|]. split.
    { pose proof (placePiece_wf position player toFlip b Hwf) as Hwf'.
      by rewrite Hplace in Hwf'. }
    intros q sq. rewrite Hlookup, (opponent_of_twice player Hplayer).
    repeat case_decide.
    + intros [= <-]. cbn. destruct Hplayer; lia.
    + intros [= <-]. cbn. destruct Hplayer; lia.
    + apply Hvalid.
Qed.

(** C9. On every board reached from the constructor by passes and legal
    moves, the squares of X, the squares of O and the empty squares add up
    to the square of the size, and the board still maps exactly the
    positions of the grid. *)
Theorem cells_conserved (size : Z) (b : Board) :
  reached size b →
  countOwned b 1 + countOwned b 2 + countEmpty b = size * size ∧
  maxBoardSize b = size ∧
  (∀ r c, is_Some (board b !! (r, c)) ↔ 0 ≤ r < size ∧ 0 ≤ c < size).
Proof.
  intros Hreached.
  destruct (reached_invariant size b Hreached) as (Hsize & Hmax & Hwf & Hvalid).
  split; [|split; [done|]].
  - rewrite (valid_cells_count b Hvalid), (wf_board_size b Hwf) by lia.
    by rewrite Hmax.
  - intros r c. rewrite (wf_board_lookup b (r, c) Hwf), in_bounds_spec.
    by rewrite Hmax.
Qed.

Lemma cells_conserved_witness :
  reached 4 (placePiece (0, 2) 1 {[ (1, 2) ]} (seeded 4)).1 ∧
  countOwned (placePiece (0, 2) 1 {[ (1, 2) ]} (seeded 4)).1 1 +
  countOwned (placePiece (0, 2) 1 {[ (1, 2) ]} (seeded 4)).1 2 +
  countEmpty (placePiece (0, 2) 1 {[ (1, 2) ]} (seeded 4)).1 = 4 * 4.
Proof.
  assert (reached 4 (placePiece (0, 2) 1 {[ (1, 2) ]} (seeded 4)).1) as Hreached.
  { apply (reached_move 4 (seeded 4) 1
             (<[(0, 2) := {[ (1, 2) ]}]>
              (<[(1, 3) := {[ (1, 2) ]}]>
               (<[(2, 0) := {[ (2, 1) ]}]>
                (<[(3, 1) := {[ (2, 1) ]}]> ∅))))
             (0, 2) {[ (1, 2) ]}).
    - apply reached_new. vm_compute. reflexivity.
    - by left.
    - vm_compute. reflexivity.
    - reflexivity.
    - vm_compute. reflexivity. }
  split; [done|]. apply (cells_conserved 4 _ Hreached).
Defined.

(** ** The turn loop *)

Lemma size_zero_empty (validMoves : LegalMoveMap) :
  (size validMoves =? 0)%nat = true ↔ validMoves = ∅.
Proof. rewrite Nat.eqb_eq. apply map_size_empty_iff. Qed.

(** A turn that ends the game. *)
Lemma turn_GameOver (playerCount : Z) (input : TurnInput) (g : Game) (v : Verdict) :
  turn playerCount input g = Return (GameOver v) ↔
  getValidMoves (theBoard g) (currentPlayer g) = Return ∅ ∧
  prevPlayerMoved g = false ∧ v = showWinner (theBoard g).
Proof.
  unfold turn. split.
  - destruct (getValidMoves _ _) as [validMoves|e| |]; cbn [obind]; try done.
    destruct (size validMoves =? 0)%nat eqn:Hsize.
    + apply size_zero_empty in Hsize as ->.
      destruct (prevPlayerMoved g); cbn; [done|]. by intros [= <-].
    + match goal with |- context [obind ?sel _] =>
        destruct sel as [playerMove|e| |] end; cbn [obind]; try done.
      destruct (validMoves !! playerMove) as [toFlip|]; [|done].
      by destruct (placePiece _ _ _ _) as [b' [[]|e| |]].
  - intros (-> & -> & ->). cbn [obind]. by rewrite map_size_empty.
Qed.

(** A turn after which the game goes on is a pass or a legal move. *)
Lemma turn_Continue (playerCount : Z) (input : TurnInput) (g g' : Game) :
  turn playerCount input g = Return (Continue g') →
  ∃ validMoves,
    getValidMoves (theBoard g) (currentPlayer g) = Return validMoves ∧
    ((validMoves = ∅ ∧ prevPlayerMoved g = true ∧
      g' = mkGame (nextPlayer g) (currentPlayer g) false
                  (theBoard g) (gameHistory g)) ∨
     (validMoves ≠ ∅ ∧
      ∃ playerMove toFlip b',
        validMoves !! playerMove = Some toFlip ∧
        placePiece playerMove (currentPlayer g) toFlip (theBoard g)
          = (b', Return tt) ∧
        g' = mkGame (nextPlayer g) (currentPlayer g) true b'
               (mkPlayerMove (currentPlayer g) playerMove :: gameHistory g))).
Proof.
  unfold turn.
  destruct (getValidMoves _ _) as [validMoves|e| |]; cbn [obind]; try done.
  intros Hturn. exists validMoves. split; [done|].
  destruct (size validMoves =? 0)%nat eqn:Hsize.
  - apply size_zero_empty in Hsize as ->. left.
    destruct (prevPlayerMoved g); cbn in Hturn; [|done].
    by injection Hturn as <-.
  - right. split.
    { intros ->. by rewrite map_size_empty in Hsize. }
    match type of Hturn with context [obind ?sel _] =>
      destruct sel as [playerMove|e| |] end; cbn [obind] in Hturn; try done.
    destruct (validMoves !! playerMove) as [toFlip|] eqn:Hkey; [|done].
    destruct (placePiece _ _ _ _) as [b' [[]|e| |]] eqn:Hplace; try done.
    injection Hturn as <-. by exists playerMove, toFlip, b'.
Qed.

(** The two players alternate, and the flag [prevPlayerMoved] is down
    exactly when the latest turn found no legal move. *)
Lemma plays_invariant (playerCount : Z) (b : Board)
    (trace : list (Z * LegalMoveMap)) (g : Game) :
  plays playerCount (new_game b) trace g →
  (currentPlayer g = 1 ∧ nextPlayer g = 2 ∨
   currentPlayer g = 2 ∧ nextPlayer g = 1) ∧
  (prevPlayerMoved g = false ↔ ∃ rest, trace = (nextPlayer g, ∅) :: rest) ∧
  (∀ player validMoves rest,
     trace = (player, validMoves) :: rest → player = nextPlayer g).
Proof.
  induction 1 as [|trace g input validMoves g' _ IH Hmoves Hturn].
  - cbn. split; [by left|]. split; [|done].
    split; [done|]. by intros [rest ?].
  - destruct IH as (Hplayers & _ & _).
    apply turn_Continue in Hturn as (validMoves' & Hmoves' & Hcase).
    rewrite Hmoves in Hmoves'. injection Hmoves' as <-.
    destruct Hcase as [(-> & _ & ->)|(Hne & playerMove & toFlip & b' & _ & _ & ->)];
      cbn.
    + split; [tauto|]. split; [|by intros ??? [= -> _ _]].
      split; [by eexists|done].
    + split; [tauto|]. split; [|by intros ??? [= -> _ _]].
      split; [done|]. by intros [rest [= ->]].
Qed.

(** The boards of a game are reached boards. *)
Lemma plays_reached (size playerCount : Z) (b : Board)
    (trace : list (Z * LegalMoveMap)) (g : Game) :
  Board_new size = Return b →
  plays playerCount (new_game b) trace g →
  reached size (theBoard g).
Proof.
  intros Hnew Hplays.
  induction Hplays as [|trace g input validMoves g' Hplays IH Hmoves Hturn].
  - by apply reached_new.
  - apply turn_Continue in Hturn as (validMoves' & Hmoves' & Hcase).
    destruct Hcase as [(-> & _ & ->)|(Hne & playerMove & toFlip & b' & Hkey & Hplace & ->)];
      cbn; [done|].
    apply (reached_move size (theBoard g) (currentPlayer g) validMoves'
             playerMove toFlip b'); try done.
    destruct (plays_invariant playerCount b trace g Hplays) as ([[-> _]|[-> _]] & _);
      [by left|by right].
Qed.

Lemma to_int_id (z : Z) : int_min ≤ z ≤ int_max → to_int z = z.
Proof.
  unfold to_int, int_min, int_max. intros Hz.
  rewrite Z.mod_small by lia. lia.
Qed.

Lemma count_if_le_length {A} (pred : A → bool) (l : list A) :
  0 ≤ count_if pred l ≤ Z.of_nat (length l).
Proof.
  induction l as [|x l IH]; cbn [count_if length]; [lia|].
  destruct (pred x); lia.
Qed.

Lemma countOwned_bound (b : Board) (player : Z) :
  wf_board b → 0 ≤ maxBoardSize b →
  0 ≤ countOwned b player ≤ maxBoardSize b * maxBoardSize b.
Proof.
  intros Hwf Hsize.
  rewrite <- (wf_board_size b Hwf Hsize), <- length_map_entries.
  apply count_if_le_length.
Qed.

(** The verdict, on the two counts as [showWinner] stores them. *)
Lemma showWinner_verdict (b : Board) :
  let countX := to_int (countOwned b 1) in
  let countO := to_int (countOwned b 2) in
  (countO < countX → showWinner b = XWins countX countO) ∧
  (countX < countO → showWinner b = OWins countO countX) ∧
  (countX = countO → showWinner b = Draw countX countO).
Proof.
  cbn zeta. unfold showWinner. fold (countOwned b 1). fold (countOwned b 2).
  generalize (to_int (countOwned b 1)) (to_int (countOwned b 2)).
  intros countX countO.
  destruct (Z.ltb_spec countO countX), (Z.ltb_spec countX countO);
    repeat split; intros; try done; lia.
Qed.

(** On a board whose number of squares fits an [int] the stored counts are
    the numbers of squares of the two players. *)
Lemma stored_counts (size : Z) (b : Board) (player : Z) :
  reached size b → size * size ≤ int_max →
  to_int (countOwned b player) = countOwned b player.
Proof.
  intros (Hsize & Hmax & Hwf & _)%reached_invariant Hfits.
  pose proof (countOwned_bound b player Hwf) as Hbound.
  rewrite Hmax in Hbound. apply to_int_id. unfold int_min. lia.
Qed.

Lemma play_trace_plays (playerCount : Z) (g0 : Game) (inputs : list TurnInput) :
  ∀ (g : Game) (trace : list (Z * LegalMoveMap)) r,
    plays playerCount g0 trace g →
    play_trace playerCount inputs g trace = Return r →
    plays playerCount g0 r.1 r.2.
Proof.
  induction inputs as [|input inputs IH]; intros g trace r Hplays; cbn [play_trace].
  - by intros [= <-].
  - destruct (getValidMoves _ _) as [validMoves|e| |] eqn:Hmoves; cbn [obind];
      try done.
    destruct (turn playerCount input g) as [[g'|v]|e| |] eqn:Hturn; cbn [obind];
      try done.
    + apply IH. by eapply plays_turn.
    + by intros [= <-].
Qed.

Lemma played_plays (playerCount : Z) (g0 : Game) (inputs : list TurnInput)
    (trace : list (Z * LegalMoveMap)) (g : Game) :
  played playerCount g0 inputs trace g → plays playerCount g0 trace g.
Proof. induction 1; [apply plays_start|by eapply plays_turn]. Qed.

(** The loop, after the turns that went on. *)
Lemma play_loop_played (playerCount : Z) (g0 : Game) (inputs : list TurnInput)
    (trace : list (Z * LegalMoveMap)) (g : Game) (rest : list TurnInput) :
  played playerCount g0 inputs trace g →
  play_loop playerCount (inputs ++ rest) g0 = play_loop playerCount rest g.
Proof.
  intros Hplayed. revert rest.
  induction Hplayed as [|inputs trace g input validMoves g' _ IH _ Hturn];
    intros rest; [done|].
  rewrite <- app_assoc. cbn [app]. rewrite IH. cbn [play_loop].
  by rewrite Hturn.
Qed.

(** A loop that returns has run some turns that went on, then one that
    ended the game. *)
Lemma play_loop_Return_played (playerCount : Z) (g0 : Game)
    (inputs : list TurnInput) (v : Verdict) :
  ∀ (before : list TurnInput) (trace : list (Z * LegalMoveMap)) (g : Game),
    played playerCount g0 before trace g →
    play_loop playerCount inputs g = Return v →
    ∃ n trace' g' input,
      inputs !! n = Some input ∧
      played playerCount g0 (before ++ take n inputs) trace' g' ∧
      turn playerCount input g' = Return (GameOver v).
Proof.
  induction inputs as [|input inputs IH]; intros before trace g Hplayed; [done|].
  cbn [play_loop].
  destruct (turn playerCount input g) as [[g'|v']|e| |] eqn:Hturn; cbn [obind];
    try done.
  - intros Hloop.
    destruct (turn_Continue _ _ _ _ Hturn) as (validMoves & Hmoves & _).
    destruct (IH (before ++ [input]) _ g'
                 (played_turn _ _ _ _ _ _ _ _ Hplayed Hmoves Hturn) Hloop)
      as (n & trace' & g'' & input' & Hn & Hplayed' & Hover).
    exists (S n), trace', g'', input'. split; [done|]. split; [|done].
    cbn [take]. by rewrite <- app_assoc in Hplayed'.
  - intros [= ->]. exists 0%nat, trace, g, input. split; [done|].
    split; [|done]. cbn [take]. by rewrite app_nil_r.
Qed.

(** A turn that finds no legal move after a turn that found one. *)
Lemma turn_pass (playerCount : Z) (input : TurnInput) (g : Game) :
  getValidMoves (theBoard g) (currentPlayer g) = Return ∅ →
  prevPlayerMoved g = true →
  turn playerCount input g =
    Return (Continue (mkGame (nextPlayer g) (currentPlayer g) false
                             (theBoard g) (gameHistory g))).
Proof.
  intros Hmoves Hmoved. unfold turn. rewrite Hmoves. cbn [obind].
  rewrite map_size_empty. cbn. by rewrite Hmoved.
Qed.

(** C4. The game started by [playGame] returns its verdict exactly when,
    after some turns that went on, a turn finds no legal move for the
    player to play and the turn before found none for the other player; the
    verdict is then the one of [showWinner] on the board as it stands.  A
    turn that finds no legal move after a turn that found one is a pass:
    the loop goes on with the two players swapped, the board and the
    history as they were.  The verdict names the player with strictly more
    squares in the two stored counts, or a draw when they are equal; on a
    board whose number of squares fits an [int] the stored counts are the
    numbers of squares of the two players. *)
Theorem playGame_terminal (size playerCount : Z) (inputs : list TurnInput) :
  (∀ v,
     playGame size playerCount inputs = Return v ↔
     ∃ b n trace g,
       Board_new size = Return b ∧ (n < length inputs)%nat ∧
       played playerCount (new_game b) (take n inputs) trace g ∧
       getValidMoves (theBoard g) (currentPlayer g) = Return ∅ ∧
       (∃ rest, trace = (nextPlayer g, ∅) :: rest) ∧
       v = showWinner (theBoard g)) ∧
  (∀ b n trace g,
     Board_new size = Return b → (n < length inputs)%nat →
     played playerCount (new_game b) (take n inputs) trace g →
     getValidMoves (theBoard g) (currentPlayer g) = Return ∅ →
     (∀ rest, trace ≠ (nextPlayer g, ∅) :: rest) →
     let g' := mkGame (nextPlayer g) (currentPlayer g) false
                      (theBoard g) (gameHistory g) in
     played playerCount (new_game b) (take (S n) inputs)
            ((currentPlayer g, ∅) :: trace) g' ∧
     playGame size playerCount inputs =
       play_loop playerCount (drop (S n) inputs) g') ∧
  (∀ b used trace g,
     Board_new size = Return b →
     played playerCount (new_game b) used trace g →
     let countX := to_int (countOwned (theBoard g) 1) in
     let countO := to_int (countOwned (theBoard g) 2) in
     (countO < countX → showWinner (theBoard g) = XWins countX countO) ∧
     (countX < countO → showWinner (theBoard g) = OWins countO countX) ∧
     (countX = countO → showWinner (theBoard g) = Draw countX countO) ∧
     (size * size ≤ int_max →
      countX = countOwned (theBoard g) 1 ∧ countO = countOwned (theBoard g) 2)).
Proof.
  split; [|split].
  - intros v. unfold playGame. split.
    + destruct (Board_new size) as [b|e| |] eqn:Hnew; cbn [obind]; try done.
      intros Hloop.
      destruct (play_loop_Return_played playerCount (new_game b) inputs v
                  [] [] (new_game b) (played_start _ _) Hloop)
        as (n & trace & g & input & Hn & Hplayed & Hover).
      cbn [app] in Hplayed.
      apply turn_GameOver in Hover as (Hmoves & Hflag & ->).
      destruct (plays_invariant playerCount b trace g
                  (played_plays _ _ _ _ _ Hplayed)) as (_ & Hprev & _).
      exists b, n, trace, g. split; [done|].
      split; [by apply lookup_lt_Some in Hn|]. split; [done|].
      split; [done|]. split; [by apply Hprev|done].
    + intros (b & n & trace & g & -> & Hn & Hplayed & Hmoves & Hprev & ->).
      cbn [obind].
      destruct (lookup_lt_is_Some_2 inputs n Hn) as [input Hinput].
      rewrite <- (take_drop n inputs) at 1.
      rewrite (play_loop_played _ _ _ _ _ _ Hplayed).
      rewrite (drop_S _ _ _ Hinput). cbn [play_loop].
      destruct (plays_invariant playerCount b trace g
                  (played_plays _ _ _ _ _ Hplayed)) as (_ & Hflag & _).
      by rewrite (proj2 (turn_GameOver playerCount input g
                           (showWinner (theBoard g)))
                    (conj Hmoves (conj (proj2 Hflag Hprev) eq_refl))).
  - intros b n trace g Hnew Hn Hplayed Hmoves Hprev g'.
    destruct (lookup_lt_is_Some_2 inputs n Hn) as [input Hinput].
    destruct (plays_invariant playerCount b trace g
                (played_plays _ _ _ _ _ Hplayed)) as (_ & Hflag & _).
    assert (prevPlayerMoved g = true) as Hmoved.
    { destruct (prevPlayerMoved g) eqn:Hmoved; [done|].
      destruct (proj1 Hflag eq_refl) as [rest Hrest]. by destruct (Hprev rest). }
    pose proof (turn_pass playerCount input g Hmoves Hmoved) as Hturn.
    assert (played playerCount (new_game b) (take (S n) inputs)
              ((currentPlayer g, ∅) :: trace) g') as Hplayed'.
    { rewrite (take_S_r _ _ _ Hinput). by eapply played_turn. }
    split; [done|]. unfold playGame. rewrite Hnew. cbn [obind].
    rewrite <- (take_drop (S n) inputs) at 1.
    by rewrite (play_loop_played _ _ _ _ _ _ Hplayed').
  - intros b used trace g Hnew Hplayed. cbn zeta.
    destruct (showWinner_verdict (theBoard g)) as (HX & HO & HD).
    split; [exact HX|]. split; [exact HO|]. split; [exact HD|]. intros Hfits.
    pose proof (plays_reached size playerCount b trace g Hnew
                  (played_plays _ _ _ _ _ Hplayed)) as Hreached.
    split; apply (stored_counts size); assumption.
Qed.

Lemma playGame_terminal_witness :
  ∃ b n trace g,
    Board_new 4 = Return b ∧
    (n < length (sample_game ++ [mkTurnInput [] 0 0]))%nat ∧
    played 2 (new_game b) (take n (sample_game ++ [mkTurnInput [] 0 0])) trace g ∧
    getValidMoves (theBoard g) (currentPlayer g) = Return ∅ ∧
    (∃ rest, trace = (nextPlayer g, ∅) :: rest) ∧
    XWins 12 4 = showWinner (theBoard g).
Proof.
  apply (proj1 (proj1 (playGame_terminal 4 2
                         (sample_game ++ [mkTurnInput [] 0 0])) (XWins 12 4))).
  vm_compute. reflexivity.
Defined.

(** The sample game, run by the loop of [playGame]. *)
Example playGame_sample :
  playGame 4 2 (sample_game ++ [mkTurnInput [] 0 0]) = Return (XWins 12 4).
Proof. vm_compute. reflexivity. Qed.

(** ** The heuristic move selector *)

Lemma foldl_push_back {A B} (f : A → B) (l : list A) (acc : list B) :
  foldl (λ moves x, moves ++ [f x]) acc l = acc ++ (f <$> l).
Proof.
  revert acc. induction l as [|x l IH]; intros acc; cbn.
  - by rewrite app_nil_r.
  - by rewrite IH, <- app_assoc.
Qed.

Lemma sort_insert_perm {A} (comp : A → A → bool) (x : A) (l : list A) :
  sort_insert comp x l ≡ₚ x :: l.
Proof.
  induction l as [|y l IH]; cbn; [done|].
  destruct (comp y x); [|done]. by rewrite IH, Permutation_swap.
Qed.

Lemma list_sort_perm {A} (comp : A → A → bool) (l : list A) :
  list_sort comp l ≡ₚ l.
Proof.
  induction l as [|x l IH]; cbn; [done|].
  by rewrite sort_insert_perm, IH.
Qed.

Lemma foldl_pq_push (l q : list ScoredMove) :
  foldl (λ q' move, pq_push move q') q l ≡ₚ l ++ q.
Proof.
  revert q. induction l as [|x l IH]; intros q; cbn; [done|].
  rewrite IH. unfold pq_push. by rewrite Permutation_middle.
Qed.

Lemma scored_lt_spec (a b : ScoredMove) :
  scored_lt a b = true ↔
  a.1 < b.1 ∨ (a.1 = b.1 ∧ (a.2.1 < b.2.1 ∨ (a.2.1 = b.2.1 ∧ a.2.2 < b.2.2))).
Proof. unfold scored_lt. lia. Qed.

Lemma pq_top_max (q : list ScoredMove) (x : ScoredMove) :
  pq_top q = Some x → x ∈ q ∧ ∀ y, y ∈ q → scored_lt x y = false.
Proof.
  revert x. induction q as [|x0 q IH]; intros x; cbn; [done|].
  destruct (pq_top q) as [y|] eqn:Htop.
  - destruct (IH y eq_refl) as [Hin Hmax]. intros [= <-].
    destruct (scored_lt y x0) eqn:Hlt.
    + split; [by left|]. intros z [->|Hz]%elem_of_cons.
      * apply not_true_iff_false. rewrite scored_lt_spec. lia.
      * specialize (Hmax z Hz). apply not_true_iff_false in Hmax.
        apply not_true_iff_false. rewrite scored_lt_spec in *. lia.
    + split; [by right|]. intros z [->|Hz]%elem_of_cons; [done|by apply Hmax].
  - intros [= <-]. destruct q as [|x1 q]; [|cbn in Htop; by destruct (pq_top q)].
    split; [by left|]. intros z ->%list_elem_of_singleton.
    apply not_true_iff_false. rewrite scored_lt_spec. lia.
Qed.

Lemma pq_top_Some (q : list ScoredMove) : q ≠ [] → is_Some (pq_top q).
Proof. destruct q as [|x q]; [done|]. intros _. cbn. by destruct (pq_top q). Qed.

Section selector.
Context (validMoves : LegalMoveMap).

Lemma moves_perm :
  sorted_moves validMoves ≡ₚ
  (λ move : Position * gset Position, (Z.of_nat (size move.2), move.1))
    <$> map_entries validMoves.
Proof. unfold sorted_moves. by rewrite list_sort_perm, foldl_push_back. Qed.

Lemma elem_of_moves (x : ScoredMove) :
  x ∈ sorted_moves validMoves ↔
  ∃ S, validMoves !! x.2 = Some S ∧ x.1 = Z.of_nat (size S).
Proof.
  rewrite moves_perm, list_elem_of_fmap. split.
  - intros ([key S] & -> & Hin%elem_of_map_entries). by exists S.
  - intros (S & HS & Hsize). exists (x.2, S).
    split; [|by apply elem_of_map_entries]. destruct x; cbn in *. by subst.
Qed.

Lemma moves_keys_NoDup : NoDup (sorted_moves validMoves).*2.
Proof.
  rewrite moves_perm, <- list_fmap_compose.
  apply (NoDup_map_entries_keys validMoves).
Qed.

Lemma moves_length : length (sorted_moves validMoves) = size validMoves.
Proof. by rewrite moves_perm, length_fmap, length_map_entries. Qed.

(** The two branches of [getAIMove]. *)
Lemma getAIMove_heads rand1 rand2 :
  validMoves ≠ ∅ → (rand1 mod 2 = 0)%nat →
  ∃ x, sorted_moves validMoves !! (rand2 mod size validMoves)%nat = Some x ∧
       getAIMove validMoves rand1 rand2 = Return x.2.
Proof.
  intros Hne Hheads. apply map_size_non_empty_iff in Hne.
  destruct (lookup_lt_is_Some_2 (sorted_moves validMoves)
              (rand2 mod size validMoves)%nat) as [x Hx].
  { rewrite moves_length. by apply Nat.mod_upper_bound. }
  exists x. split; [done|]. unfold getAIMove. fold (sorted_moves validMoves).
  rewrite Hheads. cbn [Nat.eqb]. rewrite moves_length.
  destruct (size validMoves) as [|n] eqn:Hsize; [done|].
  by rewrite Hx.
Qed.

Lemma getAIMove_tails rand1 rand2 :
  validMoves ≠ ∅ → (rand1 mod 2 ≠ 0)%nat →
  ∃ x, x ∈ sorted_moves validMoves ∧
       (∀ y, y ∈ sorted_moves validMoves → scored_lt x y = false) ∧
       getAIMove validMoves rand1 rand2 = Return x.2.
Proof.
  intros Hne Htails. apply map_size_non_empty_iff in Hne.
  unfold getAIMove. fold (sorted_moves validMoves).
  destruct (Nat.eqb_spec (rand1 mod 2) 0) as [|_]; [done|].
  destruct (pq_top_Some (foldl (λ q move, pq_push move q) []
                               (sorted_moves validMoves))) as [x Hx].
  { intros Hnil. apply (f_equal length) in Hnil.
    rewrite foldl_pq_push, app_nil_r, moves_length in Hnil. done. }
  rewrite Hx. exists x. apply pq_top_max in Hx as [Hin Hmax].
  rewrite foldl_pq_push, app_nil_r in Hin.
  split; [done|]. split; [|done]. intros y Hy. apply Hmax.
  by rewrite foldl_pq_push, app_nil_r.
Qed.
End selector.

Lemma returns_key_spec (call : outcome Position) (key : Position) :
  returns_key call key ↔ call = Return key.
Proof.
  destruct call as [move|e| |]; cbn; try (split; [intros []|discriminate]).
  rewrite bool_decide_spec. split; [by intros ->|by intros [= ->]].
Qed.

(** On the random branch every key is returned at exactly one value of the
    second draw modulo the number of keys. *)
Lemma getAIMove_index (validMoves : LegalMoveMap) (key : Position) :
  validMoves ≠ ∅ → key ∈ dom validMoves →
  ∃ i, (i < size validMoves)%nat ∧
    ∀ rand1 rand2, (rand1 mod 2 = 0)%nat →
      (getAIMove validMoves rand1 rand2 = Return key ↔
       (rand2 mod size validMoves)%nat = i).
Proof.
  intros Hne [S HS]%elem_of_dom.
  assert ((Z.of_nat (size S), key) ∈ sorted_moves validMoves) as Hin.
  { apply elem_of_moves. by exists S. }
  apply list_elem_of_lookup_1 in Hin as [i Hi].
  exists i. split.
  { rewrite <- moves_length. by apply lookup_lt_Some in Hi. }
  intros rand1 rand2 Heven.
  destruct (getAIMove_heads validMoves rand1 rand2 Hne Heven) as (x & Hx & ->).
  split.
  - intros [= Hkey].
    apply (NoDup_lookup _ _ _ key (moves_keys_NoDup validMoves)).
    + by rewrite list_lookup_fmap, Hx; cbn; rewrite Hkey.
    + by rewrite list_lookup_fmap, Hi.
  - intros Hidx. rewrite Hidx, Hi in Hx. by injection Hx as <-.
Qed.

(** C5, as the code has it. For a non-empty map of legal moves the selector
    returns a key of the map.  When the first draw is even the choice is
    uniform among the keys: the key depends on the second draw through its
    remainder by the number [n] of keys only, and of the [n] remainders
    exactly one gives each key.  When the first draw is odd the key has a
    capture set of the greatest size, and among the keys of that size it is
    the greatest in the order of the pairs, that is the last one in
    row-major order. *)
Theorem getAIMove_choice (validMoves : LegalMoveMap) :
  validMoves ≠ ∅ →
  (∀ rand1 rand2,
     ∃ move, getAIMove validMoves rand1 rand2 = Return move ∧
             move ∈ dom validMoves) ∧
  (∀ rand1 rand2, (rand1 mod 2 = 0)%nat →
     getAIMove validMoves rand1 rand2 =
     getAIMove validMoves rand1 (rand2 mod size validMoves)) ∧
  (∀ rand1 key, (rand1 mod 2 = 0)%nat → key ∈ dom validMoves →
     length (filter (λ draw, returns_key (getAIMove validMoves rand1 draw) key)
                    (seq 0 (size validMoves))) = 1%nat) ∧
  (∀ key, key ∈ dom validMoves →
     ∃ i, (i < size validMoves)%nat ∧
       ∀ rand1 rand2, (rand1 mod 2 = 0)%nat →
         (getAIMove validMoves rand1 rand2 = Return key ↔
          (rand2 mod size validMoves)%nat = i)) ∧
  (∀ rand1 rand2 move,
     (rand1 mod 2 ≠ 0)%nat →
     getAIMove validMoves rand1 rand2 = Return move →
     ∃ S, validMoves !! move = Some S ∧
       ∀ key S', validMoves !! key = Some S' →
         (size S' ≤ size S)%nat ∧ (size S' = size S → pair_le key move)).
Proof.
  intros Hne. split; [|split; [|split; [|split]]].
  - intros rand1 rand2.
    destruct (decide (rand1 mod 2 = 0)%nat) as [Heven|Hodd].
    + destruct (getAIMove_heads validMoves rand1 rand2 Hne Heven) as (x & Hx & ->).
      exists x.2. split; [done|].
      apply list_elem_of_lookup_2, elem_of_moves in Hx as (S & HS & _).
      by apply elem_of_dom.
    + destruct (getAIMove_tails validMoves rand1 rand2 Hne Hodd)
        as (x & Hx & _ & ->).
      exists x.2. split; [done|].
      apply elem_of_moves in Hx as (S & HS & _). by apply elem_of_dom.
  - intros rand1 rand2 Heven.
    destruct (getAIMove_heads validMoves rand1 rand2 Hne Heven) as (x & Hx & ->).
    destruct (getAIMove_heads validMoves rand1 (rand2 mod size validMoves)
                Hne Heven) as (y & Hy & ->).
    rewrite Nat.Div0.mod_mod in Hy. congruence.
  - intros rand1 key Heven Hkey.
    destruct (getAIMove_index validMoves key Hne Hkey) as (i & Hi & Hdraw).
    assert (filter (λ draw, returns_key (getAIMove validMoves rand1 draw) key)
                   (seq 0 (size validMoves)) ≡ₚ [i]) as ->; [|reflexivity].
    apply NoDup_Permutation.
    + apply NoDup_filter, NoDup_seq.
    + apply NoDup_singleton.
    + intros draw.
      rewrite list_elem_of_filter, returns_key_spec, (Hdraw rand1 draw Heven),
        elem_of_seq, list_elem_of_singleton.
      split.
      * intros [<- Hlt]. symmetry. apply Nat.mod_small. lia.
      * intros ->. split; [apply Nat.mod_small|]; lia.
  - intros key Hkey. by apply getAIMove_index.
  - intros rand1 rand2 move Hodd.
    destruct (getAIMove_tails validMoves rand1 rand2 Hne Hodd)
      as (x & Hx & Hmax & ->).
    intros [= <-]. apply elem_of_moves in Hx as (S & HS & Hsize).
    exists S. split; [done|]. intros key S' HS'.
    assert ((Z.of_nat (size S'), key) ∈ sorted_moves validMoves) as Hy.
    { apply elem_of_moves. by exists S'. }
    specialize (Hmax _ Hy). apply not_true_iff_false in Hmax.
    rewrite scored_lt_spec in Hmax. cbn in Hmax. unfold pair_le.
    destruct x as [n [r c]], key as [r' c']. cbn in *. lia.
Qed.

Lemma getAIMove_choice_witness :
  let validMoves : LegalMoveMap :=
    <[(0, 1) := {[ (1, 1) ]}]> (<[(2, 3) := {[ (2, 2); (1, 2) ]}]> ∅) in
  validMoves ≠ ∅ ∧
  ∃ move, getAIMove validMoves 1 0 = Return move ∧ move ∈ dom validMoves.
Proof.
  cbn zeta.
  assert ((<[(0, 1) := {[ (1, 1) ]}]> (<[(2, 3) := {[ (2, 2); (1, 2) ]}]> ∅)
           : LegalMoveMap) ≠ ∅) as Hne by apply insert_non_empty.
  split; [done|]. apply (getAIMove_choice _ Hne).
Defined.

(** C5, as stated, fails on ties. After X opens the 4x4 game at (0,2) the
    legal moves of O are (0,1), (0,3) and (2,3), each capturing one
    square; on an odd draw the selector returns (2,3), the last of them in
    row-major order, not the first. *)
Lemma getAIMove_tie_counterexample :
  let b := (placePiece (0, 2) 1 {[ (1, 2) ]} (seeded 4)).1 in
  let validMoves : LegalMoveMap :=
    <[(0, 1) := {[ (1, 1) ]}]>
      (<[(0, 3) := {[ (1, 2) ]}]> (<[(2, 3) := {[ (2, 2) ]}]> ∅)) in
  getValidMoves b 2 = Return validMoves ∧
  getAIMove validMoves 1 0 = Return (2, 3) ∧
  (∀ key S, validMoves !! key = Some S → size S = 1%nat) ∧
  (0, 1) ∈ dom validMoves ∧ pair_le (0, 1) (2, 3) ∧
  ¬ (getAIMove validMoves 1 0 = Return (0, 1)).
Proof.
  cbn zeta. split; [vm_compute; reflexivity|].
  split; [vm_compute; reflexivity|]. split.
  { intros key S.
    rewrite lookup_insert. case_decide; [by intros [= <-]|].
    rewrite lookup_insert. case_decide; [by intros [= <-]|].
    rewrite lookup_insert. case_decide; [by intros [= <-]|done]. }
  split; [apply elem_of_dom; by eexists|].
  split; [left; cbn; lia|]. vm_compute. intros [=].
Qed.

(** * Further properties of the program *)

(** ** placePiece on any arguments *)

Lemma for_each_flip_outcome (l : list Position) (b b' : Board) (r : outcome unit) :
  for_each l (λ q, at_square q flipPiece) b = (b', r) →
  r = Return tt ∨ r = Throw FlipEmpty ∨ r = Throw OutOfRange.
Proof.
  revert b. induction l as [|q l IH]; intros b; cbn.
  - unfold eret. intros [= <- <-]. by left.
  - unfold ebind, at_square.
    destruct (board b !! q) as [sq|]; [|intros [= <- <-]; by right; right].
    unfold flipPiece. destruct (value sq =? 0); [intros [= <- <-]; by right; left|].
    apply IH.
Qed.

Lemma for_each_flip_Return_inv (l : list Position) (b b' : Board) :
  NoDup l →
  for_each l (λ q, at_square q flipPiece) b = (b', Return tt) →
  ∀ q, q ∈ l → ∃ sq, board b !! q = Some sq ∧ value sq ≠ 0.
Proof.
  revert b. induction l as [|p l IH]; intros b Hnd; [by intros _ q Hq; inversion Hq|].
  apply NoDup_cons in Hnd as [Hp Hnd].
  cbn [for_each]. unfold ebind at 1, at_square at 1.
  destruct (board b !! p) as [sq|] eqn:Hsq; [|done].
  unfold flipPiece at 1. destruct (Z.eqb_spec (value sq) 0) as [|Hv]; [done|].
  intros Hrest q [->|Hq]%elem_of_cons; [by exists sq|].
  destruct (IH _ Hnd Hrest q Hq) as (sq' & Hsq' & Hv'). exists sq'. split; [|done].
  cbn in Hsq'. rewrite lookup_insert_ne in Hsq'; [done|]. by intros ->.
Qed.

(** X1. What [placePiece] does with any square and any set. It throws the
    occupied-square error exactly when the square played holds a piece, it
    throws the out-of-range error when the square is not on the board, and
    in both cases the board is left as it was; it returns normally exactly
    when the square is empty and every position of the set is an occupied
    square of the board - the played square itself counting as occupied
    once the piece (not 0) is on it. *)
Theorem placePiece_outcome (b : Board) (position : Position) (player : Z)
    (toFlip : gset Position) :
  ((placePiece position player toFlip b).2 = Throw SquareOccupied ↔
   ∃ v, owner b position = Some v ∧ v ≠ 0) ∧
  ((∃ v, owner b position = Some v ∧ v ≠ 0) →
   placePiece position player toFlip b = (b, Throw SquareOccupied)) ∧
  (owner b position = None →
   placePiece position player toFlip b = (b, Throw OutOfRange)) ∧
  ((placePiece position player toFlip b).2 = Return tt ↔
   owner b position = Some 0 ∧
   ∀ q, q ∈ toFlip →
        if decide (q = position) then player ≠ 0
        else ∃ v, owner b q = Some v ∧ v ≠ 0).
Proof.
  destruct (board b !! position) as [sq|] eqn:Hsq.
  2: { assert (placePiece position player toFlip b = (b, Throw OutOfRange)) as ->.
       { unfold placePiece, ebind, at_square. by rewrite Hsq. }
       unfold owner. rewrite Hsq. cbn.
       split; [split; [done|by intros (v & [=] & _)]|].
       split; [by intros (v & [=] & _)|]. split; [done|].
       split; [done|by intros [[=] _]]. }
  destruct (Z.eqb_spec (value sq) 0) as [Hval|Hval].
  2: { assert (placePiece position player toFlip b = (b, Throw SquareOccupied))
         as ->.
       { unfold placePiece, ebind, at_square, setPiece. rewrite Hsq.
         by destruct (Z.eqb_spec (value sq) 0). }
       unfold owner, getValue. rewrite Hsq. cbn.
       split; [split; [by exists (value sq)|done]|]. split; [done|].
       split; [done|]. split; [done|]. by intros [[= ?] _]. }
  set (b1 := mkBoard (<[position := mkSquare player]> (board b)) (maxBoardSize b)).
  assert (placePiece position player toFlip b =
          for_each (set_entries toFlip)
                   (λ flipPosition, at_square flipPosition flipPiece) b1) as ->.
  { unfold placePiece, ebind.
    by rewrite (at_square_Return _ _ _ sq (mkSquare player));
      [|done|by unfold setPiece; rewrite Hval]. }
  destruct (for_each (set_entries toFlip) _ b1) as [b' r] eqn:Hfe.
  unfold owner, getValue. rewrite Hsq. cbn.
  split; [|split; [|split; [done|]]].
  - split; [|intros (v & [= <-] & Hv); done].
    intros ->. by destruct (for_each_flip_outcome _ _ _ _ Hfe) as [?|[?|?]].
  - intros (v & [= <-] & Hv). done.
  - assert (∀ q, q ≠ position → board b1 !! q = board b !! q) as Hb1.
    { intros q Hq. subst b1. cbn. by rewrite lookup_insert_ne. }
    assert (board b1 !! position = Some (mkSquare player)) as Hb1pos.
    { subst b1. cbn. by rewrite lookup_insert_eq. }
    split.
    + intros ->. split; [by rewrite Hval|]. intros q Hq%elem_of_set_entries.
      destruct (for_each_flip_Return_inv _ _ _ (NoDup_set_entries toFlip) Hfe q Hq)
        as (sq' & Hsq' & Hv').
      case_decide as Hqp.
      * subst q. rewrite Hb1pos in Hsq'. by injection Hsq' as <-.
      * rewrite Hb1 in Hsq' by done. rewrite Hsq'. by exists (value sq').
    + intros [_ Hall].
      destruct (for_each_flip_Return (set_entries toFlip) b1
                  (NoDup_set_entries toFlip)) as (b'' & Hret & _).
      { intros q Hq%elem_of_set_entries. specialize (Hall q Hq).
        case_decide as Hqp.
        - subst q. by exists (mkSquare player).
        - rewrite Hb1 by done. destruct Hall as (v & Hown & Hv).
          destruct (board b !! q) as [sq'|]; [|done]. exists sq'.
          split; [done|]. cbn in Hown. by injection Hown as <-. }
      rewrite Hret in Hfe. by injection Hfe as _ <-.
Qed.

(** X2. Whatever its arguments and whatever its outcome, [placePiece]
    leaves the set of positions and the size of the board as they were, so
    a well-formed board stays well-formed. *)
Theorem placePiece_keeps_positions (b : Board) (position : Position)
    (player : Z) (toFlip : gset Position) :
  dom (board (placePiece position player toFlip b).1) = dom (board b) ∧
  maxBoardSize (placePiece position player toFlip b).1 = maxBoardSize b ∧
  (wf_board b → wf_board (placePiece position player toFlip b).1).
Proof.
  destruct (placePiece_frame position player toFlip b) as [Hdom Hsize].
  split; [done|]. split; [done|]. unfold wf_board. by rewrite Hdom, Hsize.
Qed.

(** ** The prompt for a move *)

(** One entry at the prompt. *)
Lemma getPlayerMove_cons (b : Board) (validMoves : LegalMoveMap)
    (entry : Position) (typed : list (option Position)) :
  getPlayerMove b validMoves (Some entry :: typed) =
    if (entry.1 - 1 <? int_min) || (entry.2 - 1 <? int_min) then Undefined
    else if in_bounds b (entry.1 - 1, entry.2 - 1) &&
            bool_decide ((entry.1 - 1, entry.2 - 1) ∈ dom validMoves)
    then Return (entry.1 - 1, entry.2 - 1)
    else getPlayerMove b validMoves typed.
Proof.
  cbn [getPlayerMove]. unfold int_decr.
  destruct (Z.leb_spec int_min (entry.1 - 1)) as [H1|H1],
           (Z.ltb_spec (entry.1 - 1) int_min) as [H1'|H1']; try lia;
    cbn [obind orb]; [|done].
  destruct (Z.leb_spec int_min (entry.2 - 1)) as [H2|H2],
           (Z.ltb_spec (entry.2 - 1) int_min) as [H2'|H2']; try lia;
    cbn [obind]; [|done].
  cbn [fst snd]. unfold in_bounds. cbn [fst snd].
  destruct (_ || _) eqn:Hout.
  - assert ((0 <=? entry.1 - 1) && (entry.1 - 1 <? maxBoardSize b) &&
            (0 <=? entry.2 - 1) && (entry.2 - 1 <? maxBoardSize b) = false)
      as -> by lia.
    done.
  - assert ((0 <=? entry.1 - 1) && (entry.1 - 1 <? maxBoardSize b) &&
            (0 <=? entry.2 - 1) && (entry.2 - 1 <? maxBoardSize b) = true)
      as -> by lia.
    cbn [andb].
    case_bool_decide as Hnone.
    + rewrite bool_decide_eq_false_2; [done|]. by apply not_elem_of_dom.
    + rewrite bool_decide_eq_true_2; [done|].
      by apply elem_of_dom, not_eq_None_Some.
Qed.

(** An entry that is turned down without harm goes in front of the
    account of the rest of the entries. *)
Lemma prompt_skip (b : Board) (validMoves : LegalMoveMap)
    (e : option Position) (typed : list (option Position))
    (call : outcome Position) :
  ¬ accepted b validMoves e → ¬ overflows e →
  match call with
  | Return location =>
      location ∈ dom validMoves ∧ in_bounds b location = true ∧
      ∃ before entry after,
        typed = before ++ Some entry :: after ∧
        location = (entry.1 - 1, entry.2 - 1) ∧
        Forall (λ e, ¬ accepted b validMoves e ∧ ¬ overflows e) before
  | Diverge => Forall (λ e, ¬ accepted b validMoves e ∧ ¬ overflows e) typed
  | Undefined =>
      ∃ before entry after,
        typed = before ++ Some entry :: after ∧ overflows (Some entry) ∧
        Forall (λ e, ¬ accepted b validMoves e ∧ ¬ overflows e) before
  | Throw _ => False
  end →
  match call with
  | Return location =>
      location ∈ dom validMoves ∧ in_bounds b location = true ∧
      ∃ before entry after,
        e :: typed = before ++ Some entry :: after ∧
        location = (entry.1 - 1, entry.2 - 1) ∧
        Forall (λ e, ¬ accepted b validMoves e ∧ ¬ overflows e) before
  | Diverge =>
      Forall (λ e, ¬ accepted b validMoves e ∧ ¬ overflows e) (e :: typed)
  | Undefined =>
      ∃ before entry after,
        e :: typed = before ++ Some entry :: after ∧ overflows (Some entry) ∧
        Forall (λ e, ¬ accepted b validMoves e ∧ ¬ overflows e) before
  | Throw _ => False
  end.
Proof.
  intros Hacc Hov. destruct call as [location|e'| |]; [| |by constructor|].
  - intros (Hdom & Hin & before & entry & after & -> & -> & Hall).
    split; [assumption|]. split; [assumption|].
    exists (e :: before), entry, after. split; [reflexivity|].
    split; [reflexivity|]. by constructor.
  - intros [].
  - intros (before & entry & after & -> & Hover & Hall).
    exists (e :: before), entry, after. split; [reflexivity|].
    split; [assumption|]. by constructor.
Qed.

(** The account of a call of [getPlayerMove]. *)
Lemma getPlayerMove_outcome (b : Board) (validMoves : LegalMoveMap)
    (typed : list (option Position)) :
  match getPlayerMove b validMoves typed with
  | Return location =>
      location ∈ dom validMoves ∧ in_bounds b location = true ∧
      ∃ before entry after,
        typed = before ++ Some entry :: after ∧
        location = (entry.1 - 1, entry.2 - 1) ∧
        Forall (λ e, ¬ accepted b validMoves e ∧ ¬ overflows e) before
  | Diverge => Forall (λ e, ¬ accepted b validMoves e ∧ ¬ overflows e) typed
  | Undefined =>
      ∃ before entry after,
        typed = before ++ Some entry :: after ∧ overflows (Some entry) ∧
        Forall (λ e, ¬ accepted b validMoves e ∧ ¬ overflows e) before
  | Throw _ => False
  end.
Proof.
  induction typed as [|[entry|] typed IH].
  - constructor.
  - rewrite getPlayerMove_cons.
    destruct (_ || _) eqn:Hov.
    { exists [], entry, typed. split; [reflexivity|]. split; [|constructor].
      exists entry. split; [reflexivity|]. lia. }
    destruct (_ && _) eqn:Hacc.
    { apply andb_true_iff in Hacc as [Hin Hdom%bool_decide_eq_true].
      split; [assumption|]. split; [assumption|].
      exists [], entry, typed. split; [reflexivity|]. split; [reflexivity|].
      constructor. }
    apply prompt_skip; [| |exact IH].
    + intros (entry0 & [= <-] & Hin & Hdom). rewrite Hin in Hacc.
      by rewrite bool_decide_eq_true_2 in Hacc.
    + intros (entry0 & [= <-] & Hlow). lia.
  - cbn [getPlayerMove]. apply prompt_skip; [| |exact IH].
    + by intros (entry & [=] & _).
    + by intros (entry & [=] & _).
Qed.

(** X3. [getPlayerMove] never throws. When it returns, the location is a
    key of the map and a square of the board, and it comes from the first
    typed entry that names one, taken 1-based; every entry before it was
    turned down. When it is still waiting no typed entry names a key. Its
    behaviour is undefined exactly when an entry whose row or column is
    the least [int] comes before any entry that names a key; without such
    an entry the call is defined, and on an empty map it is still
    waiting. *)
Theorem getPlayerMove_first_accepted (b : Board) (validMoves : LegalMoveMap)
    (typed : list (option Position)) :
  match getPlayerMove b validMoves typed with
  | Return location =>
      location ∈ dom validMoves ∧ in_bounds b location = true ∧
      ∃ before entry after,
        typed = before ++ Some entry :: after ∧
        location = (entry.1 - 1, entry.2 - 1) ∧
        Forall (λ e, ¬ accepted b validMoves e ∧ ¬ overflows e) before
  | Diverge => Forall (λ e, ¬ accepted b validMoves e ∧ ¬ overflows e) typed
  | Undefined =>
      ∃ before entry after,
        typed = before ++ Some entry :: after ∧ overflows (Some entry) ∧
        Forall (λ e, ¬ accepted b validMoves e ∧ ¬ overflows e) before
  | Throw _ => False
  end ∧
  (Forall (λ e, ¬ overflows e) typed →
   getPlayerMove b validMoves typed ≠ Undefined ∧
   (validMoves = ∅ → getPlayerMove b validMoves typed = Diverge)).
Proof.
  pose proof (getPlayerMove_outcome b validMoves typed) as Hcall.
  split; [exact Hcall|]. intros Hfine.
  destruct (getPlayerMove b validMoves typed) as [location|e| |];
    [|destruct Hcall| |].
  - split; [discriminate|]. intros ->. destruct Hcall as (Hdom & _).
    by rewrite dom_empty_L in Hdom.
  - split; [discriminate|reflexivity].
  - destruct Hcall as (before & entry & after & -> & Hover & _).
    apply Forall_app in Hfine as [_ Hfine]. apply Forall_cons in Hfine as [Hno _].
    by destruct (Hno Hover).
Qed.

Lemma for_each_put {A} (f : A → list Token) (l : list A) (out : list Token) :
  for_each l (λ x, put (f x)) out = (out ++ concat (f <$> l), Return tt).
Proof.
  revert out. induction l as [|x l IH]; intros out; cbn.
  - unfold eret. by rewrite app_nil_r.
  - unfold ebind, put at 1. by rewrite IH, <- app_assoc.
Qed.

Lemma legal_key_in_bounds (b : Board) (player : Z) (m : LegalMoveMap)
    (key : Position) :
  wf_board b → getValidMoves b player = Return m → key ∈ dom m →
  in_bounds b key = true.
Proof.
  intros Hwf Hm [S HS]%elem_of_dom.
  destruct (getValidMoves_lookup b player Hwf) as (m' & Hm' & Hlookup).
  rewrite Hm in Hm'. injection Hm' as <-.
  apply Hlookup in HS as (Hown & _). apply (wf_board_lookup b key Hwf).
  unfold owner in Hown. by destruct (board b !! key).
Qed.

(** X4. What move assistance shows can be typed back: for every legal move
    of a well-formed board [printPossibleMoves] prints the line of that
    move, with its row and column counted from 1 and the number of flips,
    and typing that row and column at the prompt makes [getPlayerMove]
    return that move. *)
Theorem move_assist_round_trip (b : Board) (player : Z) (m : LegalMoveMap)
    (key : Position) (S : gset Position) (later : list (option Position)) :
  wf_board b → getValidMoves b player = Return m → m !! key = Some S →
  (∃ above below,
     printPossibleMoves m [] =
       (above ++
        [Text "Move ("; Num (key.1 + 1); Text ", "; Num (key.2 + 1);
         Text ") has "; Num (Z.of_nat (size S));
         Text (" possible flip(s)." +:+ String "010"%char EmptyString)] ++
        below, Return tt)) ∧
  getPlayerMove b m (Some (key.1 + 1, key.2 + 1) :: later) = Return key.
Proof.
  intros Hwf Hm HS. split.
  - change (printPossibleMoves m)
      with (for_each (map_entries m) (λ move, put (move_line move))).
    rewrite (for_each_put move_line (map_entries m) []). cbn [app].
    apply elem_of_map_entries, list_elem_of_split in HS as (l1 & l2 & ->).
    exists (concat (move_line <$> l1)), (concat (move_line <$> l2)).
    by rewrite fmap_app, concat_app.
  - assert (in_bounds b key = true) as Hin.
    { apply (legal_key_in_bounds b player m key Hwf Hm). by apply elem_of_dom. }
    rewrite getPlayerMove_cons. destruct key as [r c]. cbn [fst snd].
    replace (r + 1 - 1) with r by lia. replace (c + 1 - 1) with c by lia.
    rewrite Hin. apply in_bounds_spec in Hin.
    replace (_ || _) with false by (unfold int_min; lia).
    rewrite bool_decide_eq_true_2; [done|]. by apply elem_of_dom.
Qed.

Lemma move_assist_round_trip_witness :
  wf_board (seeded 4) ∧
  getPlayerMove (seeded 4)
    (<[(0, 2) := {[ (1, 2) ]}]>
     (<[(1, 3) := {[ (1, 2) ]}]>
      (<[(2, 0) := {[ (2, 1) ]}]>
       (<[(3, 1) := {[ (2, 1) ]}]> ∅))))
    [Some (2, 4)] = Return (1, 3).
Proof.
  assert (wf_board (seeded 4)) as Hwf by reflexivity.
  split; [done|].
  apply (move_assist_round_trip (seeded 4) 1 _ (1, 3) {[ (1, 2) ]} [] Hwf).
  - vm_compute. reflexivity.
  - reflexivity.
Defined.

(** ** The rule of the game *)

Lemma elem_of_scan_set (b : Board) (player : Z) (position direction q : Position) :
  wf_board b → direction ≠ (0, 0) →
  (q ∈ scan_set b position player direction ↔
   ∃ k, capture_run b player position direction k ∧
        q ∈ run_cells position direction k).
Proof.
  intros Hwf Hd. unfold scan_set.
  pose proof (opponent_of_ne player) as Hne.
  destruct (findFlippablePieces_result b player position direction Hwf Hd)
    as (k & Hk & Hcells & [[Hanchor ->]|(Hn1 & Hn2 & ->)]); cbn.
  - split.
    + intros Hq. exists k. split; [|done]. split; [|done].
      destruct (Z.le_gt_cases k 0) as [Hk0|]; [|lia].
      rewrite (proj2 (run_cells_empty position direction k) Hk0) in Hq.
      by apply not_elem_of_empty in Hq.
    + intros (k' & (Hk' & Hcells' & Hanchor') & Hq).
      destruct (Z.lt_trichotomy k k') as [Hlt|[->|Hgt]]; [|done|].
      * rewrite Hcells' in Hanchor by lia. congruence.
      * rewrite Hcells in Hanchor' by lia. congruence.
  - split; [by intros Hq%not_elem_of_empty|].
    intros (k' & (Hk' & Hcells' & Hanchor') & _). exfalso.
    destruct (Z.lt_trichotomy k k') as [Hlt|[->|Hgt]].
    + rewrite Hcells' in Hn2 by lia. congruence.
    + congruence.
    + rewrite Hcells in Hanchor' by lia. congruence.
Qed.

Lemma elem_of_capture_union (b : Board) (player : Z) (position q : Position) :
  wf_board b →
  (q ∈ capture_union b position player ↔
   ∃ direction k, direction ∈ directions ∧
     capture_run b player position direction k ∧
     q ∈ run_cells position direction k).
Proof.
  intros Hwf. unfold capture_union. rewrite elem_of_union_list. split.
  - intros (S & (d & -> & Hd)%list_elem_of_fmap & Hq).
    apply elem_of_scan_set in Hq as (k & Hrun & Hq);
      [|done|by apply directions_nonzero].
    by exists d, k.
  - intros (d & k & Hd & Hrun & Hq).
    exists (scan_set b position player d). split.
    + apply list_elem_of_fmap. by exists d.
    + apply elem_of_scan_set; [done|by apply directions_nonzero|by exists k].
Qed.

Lemma capture_union_nonempty (b : Board) (player : Z) (position : Position) :
  wf_board b →
  (capture_union b position player ≠ ∅ ↔
   ∃ direction k, direction ∈ directions ∧
     capture_run b player position direction k).
Proof.
  intros Hwf. split.
  - intros Hne. apply set_choose_L in Hne as [q Hq].
    apply elem_of_capture_union in Hq as (d & k & Hd & Hrun & _); [|done].
    by exists d, k.
  - intros (d & k & Hd & Hrun) Hempty.
    assert (ray position d 1 ∈ capture_union b position player) as Hin.
    { apply elem_of_capture_union; [done|]. exists d, k.
      split; [done|]. split; [done|]. apply elem_of_run_cells.
      exists 1. destruct Hrun as [? _]. split; [lia|done]. }
    rewrite Hempty in Hin. by apply not_elem_of_empty in Hin.
Qed.

(** X5. The rule of the game, read off the move generator. On a
    well-formed board a square is a legal move of a player exactly when it
    is empty and, in at least one of the eight directions, a run of one or
    more opponent squares starting next to it is closed by a square of the
    player; the capture set of the move is exactly the set of the squares
    of all such runs. *)
Theorem legal_move_rule (b : Board) (player : Z) :
  wf_board b →
  ∃ m, getValidMoves b player = Return m ∧
    (∀ position,
       position ∈ dom m ↔
       owner b position = Some 0 ∧
       ∃ direction k, direction ∈ directions ∧
         capture_run b player position direction k) ∧
    (∀ position S q,
       m !! position = Some S →
       (q ∈ S ↔
        ∃ direction k i, direction ∈ directions ∧
          capture_run b player position direction k ∧
          1 ≤ i ≤ k ∧ q = ray position direction i)).
Proof.
  intros Hwf.
  destruct (getValidMoves_lookup b player Hwf) as (m & Hm & Hlookup).
  exists m. split; [done|]. split.
  - intros position. rewrite elem_of_dom.
    rewrite <- (capture_union_nonempty b player position Hwf). split.
    + intros [S (Hown & -> & Hne)%Hlookup]. done.
    + intros [Hown Hne]. exists (capture_union b position player).
      by apply Hlookup.
  - intros position S q (_ & -> & _)%Hlookup.
    rewrite (elem_of_capture_union b player position q Hwf). split.
    + intros (d & k & Hd & Hrun & (i & Hi & ->)%elem_of_run_cells).
      by exists d, k, i.
    + intros (d & k & i & Hd & Hrun & Hi & ->). exists d, k.
      split; [done|]. split; [done|]. apply elem_of_run_cells. by exists i.
Qed.

Lemma legal_move_rule_witness :
  wf_board (seeded 4) ∧
  ∃ m, getValidMoves (seeded 4) 1 = Return m ∧ (0, 2) ∈ dom m.
Proof.
  assert (wf_board (seeded 4)) as Hwf by reflexivity.
  split; [done|].
  destruct (legal_move_rule (seeded 4) 1 Hwf) as (m & Hm & Hdom & _).
  exists m. split; [done|]. apply Hdom. split; [reflexivity|].
  exists (1, 0), 1. split; [repeat constructor|].
  split; [lia|]. split; [|reflexivity].
  intros i Hi. assert (i = 1) as -> by lia. reflexivity.
Defined.

Lemma count_if_nonneg {A} (pred : A → bool) (l : list A) : 0 ≤ count_if pred l.
Proof. induction l as [|x l IH]; cbn; [done|]. destruct (pred x); lia. Qed.

Lemma count_if_zero {A} (pred : A → bool) (l : list A) (x : A) :
  count_if pred l = 0 → x ∈ l → pred x = false.
Proof.
  induction l as [|y l IH]; cbn; [by intros _ Hx; inversion Hx|].
  pose proof (count_if_nonneg pred l).
  intros Hcount [->|Hx]%elem_of_cons.
  - destruct (pred y); [lia|done].
  - apply IH; [|done]. destruct (pred y); lia.
Qed.

Lemma countOwned_zero (b : Board) (player : Z) (q : Position) :
  countOwned b player = 0 → owner b q ≠ Some player.
Proof.
  intros Hcount Hown. unfold owner in Hown.
  destruct (board b !! q) as [sq|] eqn:Hsq; [|done].
  cbn in Hown. injection Hown as Hval.
  apply elem_of_map_entries in Hsq.
  pose proof (count_if_zero _ _ _ Hcount Hsq) as Hfalse. cbn in Hfalse. lia.
Qed.

(** X6. A player who has no piece on the board has no legal move, and
    neither has a player whose opponent has none: on a well-formed board
    the move generator then returns the empty map. *)
Theorem no_piece_no_move (b : Board) (player : Z) :
  wf_board b →
  countOwned b player = 0 ∨ countOwned b (opponent_of player) = 0 →
  getValidMoves b player = Return ∅.
Proof.
  intros Hwf Hnone.
  destruct (getValidMoves_lookup b player Hwf) as (m & -> & Hlookup).
  f_equal. apply map_empty. intros position. apply eq_None_not_Some.
  intros [S (_ & -> & Hne)%Hlookup].
  apply capture_union_nonempty in Hne as (d & k & _ & Hk & Hcells & Hanchor);
    [|done].
  destruct Hnone as [Hzero|Hzero].
  - by apply (countOwned_zero b player _ Hzero) in Hanchor.
  - specialize (Hcells 1 ltac:(lia)).
    by apply (countOwned_zero b _ _ Hzero) in Hcells.
Qed.

Lemma no_piece_no_move_witness :
  wf_board (mkBoard (<[(1, 1) := mkSquare 2]> (empty_squares 4)) 4) ∧
  countOwned (mkBoard (<[(1, 1) := mkSquare 2]> (empty_squares 4)) 4) 1 = 0 ∧
  getValidMoves (mkBoard (<[(1, 1) := mkSquare 2]> (empty_squares 4)) 4) 1
    = Return ∅.
Proof.
  assert (wf_board (mkBoard (<[(1, 1) := mkSquare 2]> (empty_squares 4)) 4))
    as Hwf by reflexivity.
  assert (countOwned (mkBoard (<[(1, 1) := mkSquare 2]> (empty_squares 4)) 4) 1 = 0)
    as Hzero by reflexivity.
  split; [done|]. split; [done|].
  apply (no_piece_no_move _ 1 Hwf). by left.
Defined.

(** ** The score *)

Lemma foldr_insert_lookup {A} (x : A) (l : list Position) (m : gmap Position A)
    (q : Position) :
  foldr (λ p m', <[p := x]> m') m l !! q =
  if decide (q ∈ l) then Some x else m !! q.
Proof.
  induction l as [|p l IH]; cbn [foldr].
  - rewrite decide_False; [done|]. intros H; inversion H.
  - destruct (decide (p = q)) as [->|Hne].
    + rewrite lookup_insert_eq. by rewrite decide_True by left.
    + rewrite lookup_insert_ne, IH by done.
      destruct (decide (q ∈ l)) as [Hin|Hnin].
      * by rewrite decide_True by (by right).
      * rewrite decide_False; [done|]. intros [?|?]%elem_of_cons; congruence.
Qed.

(** Overwriting distinct squares that all weigh [old] with a square that
    weighs [new]. *)
Lemma count_if_overwrite {A} (pred : Position * A → bool) (x : A)
    (l : list Position) (m : gmap Position A) (old new : Z) :
  NoDup l →
  (∀ q, q ∈ l → ∃ y, m !! q = Some y ∧ (if pred (q, y) then 1 else 0) = old) →
  (∀ q, q ∈ l → (if pred (q, x) then 1 else 0) = new) →
  count_if pred (map_entries (foldr (λ p m', <[p := x]> m') m l)) =
  count_if pred (map_entries m) + Z.of_nat (length l) * (new - old).
Proof.
  induction l as [|p l IH]; intros Hnd Hold Hnew; cbn [foldr length].
  - lia.
  - apply NoDup_cons in Hnd as [Hp Hnd].
    destruct (Hold p) as (y & Hy & Hweight); [by left|].
    rewrite (count_if_insert _ _ _ _ y).
    2: { by rewrite foldr_insert_lookup, decide_False. }
    rewrite IH; [| done | intros q Hq; apply Hold; by right
                 | intros q Hq; apply Hnew; by right].
    rewrite Hweight, (Hnew p) by left. lia.
Qed.

(** How a legal move changes the number of squares whose value passes a
    test. *)
Lemma legal_move_count (test : Z → bool) (b : Board) (player : Z)
    (m : LegalMoveMap) (position : Position) (toFlip : gset Position)
    (b' : Board) :
  wf_board b → is_player player →
  getValidMoves b player = Return m → m !! position = Some toFlip →
  placePiece position player toFlip b = (b', Return tt) →
  count_if (λ pair : Position * BoardSquare, test (getValue pair.2))
           (map_entries (board b')) =
  count_if (λ pair : Position * BoardSquare, test (getValue pair.2))
           (map_entries (board b))
  + ((if test player then 1 else 0) - (if test 0 then 1 else 0))
  + Z.of_nat (size toFlip)
    * ((if test player then 1 else 0) - (if test (opponent_of player) then 1 else 0)).
Proof.
  intros Hwf Hplayer Hm Hkey Hplace.
  destruct (legal_move_placed b player m position toFlip Hwf Hm Hkey)
    as (Hown & Hnotin & _ & Hcaps & b'' & Hplace' & _ & Hlookup).
  rewrite Hplace in Hplace'. injection Hplace' as <-.
  rewrite (opponent_of_twice player Hplayer) in Hlookup.
  assert (board b' =
          <[position := mkSquare player]>
            (foldr (λ p m', <[p := mkSquare player]> m') (board b)
                   (elements toFlip))) as ->.
  { apply map_eq. intros q. rewrite Hlookup.
    destruct (decide (q = position)) as [->|Hne]; [by rewrite lookup_insert_eq|].
    rewrite lookup_insert_ne, foldr_insert_lookup by done.
    destruct (decide (q ∈ toFlip)) as [Hin|Hnin].
    - by rewrite decide_True by (by apply elem_of_elements).
    - by rewrite decide_False by (by rewrite elem_of_elements). }
  unfold owner in Hown.
  destruct (board b !! position) as [sq|] eqn:Hsq; [|done].
  cbn in Hown. injection Hown as Hval.
  rewrite (count_if_insert _ _ _ _ sq).
  2: { rewrite foldr_insert_lookup, decide_False; [done|].
       by rewrite elem_of_elements. }
  rewrite (count_if_overwrite _ _ _ _
             (if test (opponent_of player) then 1 else 0)
             (if test player then 1 else 0)).
  - change (size toFlip) with (length (elements toFlip)).
    change (getValue (position, sq).2) with (getValue sq). rewrite Hval.
    change (getValue (position, mkSquare player).2) with player. lia.
  - apply NoDup_elements.
  - intros q Hq%elem_of_elements. specialize (Hcaps q Hq). unfold owner in Hcaps.
    destruct (board b !! q) as [sq'|]; [|done]. exists sq'. split; [done|].
    cbn in *. injection Hcaps as ->. done.
  - done.
Qed.

(** X7. The score after a legal move: the player who moves gains the
    square played and every captured square, the opponent loses the
    captured squares, and there is one empty square less. *)
Theorem legal_move_score (b : Board) (player : Z) (m : LegalMoveMap)
    (position : Position) (toFlip : gset Position) (b' : Board) :
  wf_board b → is_player player →
  getValidMoves b player = Return m → m !! position = Some toFlip →
  placePiece position player toFlip b = (b', Return tt) →
  countOwned b' player = countOwned b player + 1 + Z.of_nat (size toFlip) ∧
  countOwned b' (opponent_of player) =
    countOwned b (opponent_of player) - Z.of_nat (size toFlip) ∧
  countEmpty b' = countEmpty b - 1 ∧
  (1 ≤ size toFlip)%nat.
Proof.
  intros Hwf Hplayer Hm Hkey Hplace.
  pose proof (λ test, legal_move_count test b player m position toFlip b'
                        Hwf Hplayer Hm Hkey Hplace) as Hcount.
  destruct (opponent_of_player player Hplayer) as [_ Hopp].
  assert (player ≠ 0) as Hp0 by (destruct Hplayer; lia).
  unfold is_player in Hplayer.
  split; [|split; [|split]].
  - unfold countOwned. rewrite (Hcount (λ v, v =? player)).
    cbn beta. rewrite Z.eqb_refl.
    destruct (Z.eqb_spec 0 player), (Z.eqb_spec (opponent_of player) player); lia.
  - unfold countOwned. rewrite (Hcount (λ v, v =? opponent_of player)).
    cbn beta. rewrite Z.eqb_refl.
    destruct (Z.eqb_spec 0 (opponent_of player)),
             (Z.eqb_spec player (opponent_of player)); lia.
  - pose proof (Hcount (λ v, v =? 0)) as Hempty. cbn beta in Hempty.
    unfold getValue in Hempty. unfold countEmpty, isEmpty. rewrite Hempty.
    rewrite Z.eqb_refl.
    destruct (Z.eqb_spec player 0), (Z.eqb_spec (opponent_of player) 0); lia.
  - destruct (legal_move_placed b player m position toFlip Hwf Hm Hkey)
      as (_ & _ & Hne & _).
    destruct (size toFlip) eqn:Hsize_flip; [|lia].
    by apply size_empty_inv, leibniz_equiv in Hsize_flip.
Qed.

Lemma legal_move_score_witness :
  wf_board (seeded 4) ∧ is_player 1 ∧
  countOwned (placePiece (0, 2) 1 {[ (1, 2) ]} (seeded 4)).1 1 =
    countOwned (seeded 4) 1 + 1 + 1 ∧
  countOwned (placePiece (0, 2) 1 {[ (1, 2) ]} (seeded 4)).1 2 =
    countOwned (seeded 4) 2 - 1.
Proof.
  assert (wf_board (seeded 4)) as Hwf by reflexivity.
  assert (is_player 1) as Hplayer by (by left).
  split; [done|]. split; [done|].
  destruct (legal_move_score (seeded 4) 1
              (<[(0, 2) := {[ (1, 2) ]}]>
               (<[(1, 3) := {[ (1, 2) ]}]>
                (<[(2, 0) := {[ (2, 1) ]}]>
                 (<[(3, 1) := {[ (2, 1) ]}]> ∅))))
              (0, 2) {[ (1, 2) ]}
              (placePiece (0, 2) 1 {[ (1, 2) ]} (seeded 4)).1 Hwf Hplayer)
    as (Hmine & Htheirs & _).
  - vm_compute. reflexivity.
  - reflexivity.
  - vm_compute. reflexivity.
  - split; [exact Hmine|exact Htheirs].
Defined.

(** ** The whole game *)

Lemma seeded_count (test : Z → bool) (size : Z) :
  4 ≤ size → test 0 = false →
  count_if (λ pair : Position * BoardSquare, test (getValue pair.2))
           (map_entries (board (seeded size))) =
  2 * (if test 1 then 1 else 0) + 2 * (if test 2 then 1 else 0).
Proof.
  intros Hsize Htest. destruct (center_bounds size Hsize) as [_ Hc].
  assert (∀ r k, 0 ≤ r < size → 0 ≤ k < size →
            empty_squares size !! (r, k) = Some BoardSquare_new) as Hempty.
  { intros r k ??. rewrite empty_squares_lookup. by rewrite decide_True by lia. }
  unfold seeded. cbn [board]. set (c := size ÷ 2) in *.
  rewrite (count_if_insert _ _ _ _ BoardSquare_new).
  2: { rewrite !lookup_insert_ne by (intros [=]; lia). apply Hempty; lia. }
  rewrite (count_if_insert _ _ _ _ BoardSquare_new).
  2: { rewrite !lookup_insert_ne by (intros [=]; lia). apply Hempty; lia. }
  rewrite (count_if_insert _ _ _ _ BoardSquare_new).
  2: { rewrite !lookup_insert_ne by (intros [=]; lia). apply Hempty; lia. }
  rewrite (count_if_insert _ _ _ _ BoardSquare_new).
  2: { apply Hempty; lia. }
  rewrite count_if_none.
  - cbn. rewrite Htest. lia.
  - intros [[r k] sq] Hin. apply elem_of_map_entries in Hin.
    rewrite empty_squares_lookup in Hin. case_decide; by simplify_eq.
Qed.

(** What a run of the loop keeps true. *)
Lemma plays_facts (size playerCount : Z) (b : Board)
    (trace : list (Z * LegalMoveMap)) (g : Game) :
  Board_new size = Return b →
  plays playerCount (new_game b) trace g →
  countOwned (theBoard g) 1 + countOwned (theBoard g) 2 =
    4 + Z.of_nat (length (gameHistory g)) ∧
  (length trace ≤
     2 * length (gameHistory g) + (if prevPlayerMoved g then 0 else 1))%nat ∧
  NoDup (theLocation <$> gameHistory g) ∧
  (∀ move, move ∈ gameHistory g →
     is_player (thePlayer move) ∧
     ∃ v, owner (theBoard g) (theLocation move) = Some v ∧ v ≠ 0).
Proof.
  intros Hnew Hplays.
  induction Hplays as [|trace g input validMoves g' Hplays IH Hmoves Hturn].
  - destruct (Board_new_Return size b Hnew) as [Hsize ->]. cbn.
    split; [|split; [lia|split; [constructor|by intros move Hin; inversion Hin]]].
    unfold countOwned.
    rewrite (seeded_count (λ v, v =? 1)), (seeded_count (λ v, v =? 2)) by done.
    reflexivity.
  - destruct IH as (Hcount & Hlen & Hnodup & Hhist).
    pose proof (plays_reached size playerCount b trace g Hnew Hplays) as Hreached.
    destruct (reached_invariant size _ Hreached) as (_ & _ & Hwf & _).
    destruct (plays_invariant playerCount b trace g Hplays) as (Hplayers & _).
    assert (is_player (currentPlayer g)) as Hplayer.
    { destruct Hplayers as [[-> _]|[-> _]]; [by left|by right]. }
    apply turn_Continue in Hturn as (validMoves' & Hmoves' & Hcase).
    destruct Hcase as [(-> & Hflag & ->)
                      |(Hne & playerMove & toFlip & b' & Hkey & Hplace & ->)];
      cbn [theBoard gameHistory prevPlayerMoved length].
    { rewrite Hflag in Hlen. split; [done|]. split; [lia|done]. }
    destruct (legal_move_placed (theBoard g) (currentPlayer g) validMoves'
                playerMove toFlip Hwf Hmoves' Hkey)
      as (Hown & Hnotin & _ & Hcaps & b'' & Hplace' & _ & Hlookup).
    rewrite Hplace in Hplace'. injection Hplace' as <-.
    split; [|split; [destruct (prevPlayerMoved g); lia|split]].
    + pose proof (legal_move_count (λ v, v =? 1) (theBoard g) (currentPlayer g)
                    validMoves' playerMove toFlip b' Hwf Hplayer Hmoves' Hkey Hplace)
        as H1.
      pose proof (legal_move_count (λ v, v =? 2) (theBoard g) (currentPlayer g)
                    validMoves' playerMove toFlip b' Hwf Hplayer Hmoves' Hkey Hplace)
        as H2.
      unfold countOwned in *. rewrite H1, H2. cbn beta.
      destruct Hplayer as [-> | ->]; cbn; lia.
    + rewrite fmap_cons. cbn. apply NoDup_cons. split; [|done].
      intros (move & Hloc & Hin)%list_elem_of_fmap.
      destruct (Hhist move Hin) as (_ & v & Hv & Hv0).
      rewrite <- Hloc, Hown in Hv. congruence.
    + intros move [->|Hin]%elem_of_cons.
      * cbn. split; [done|]. exists (currentPlayer g).
        unfold owner. rewrite Hlookup, decide_True by done. cbn.
        split; [done|]. destruct Hplayer; lia.
      * destruct (Hhist move Hin) as (Hpl & v & Hv & Hv0). split; [done|].
        unfold owner in *. rewrite Hlookup.
        destruct (decide (theLocation move = playerMove)) as [|_].
        { exists (currentPlayer g). split; [done|]. destruct Hplayer; lia. }
        destruct (decide (theLocation move ∈ toFlip)) as [|_]; [|by exists v].
        eexists. split; [done|]. unfold opponent_of.
        by repeat destruct (_ =? _).
Qed.

(** X8. The history of a game matches its board: at every point of a game
    started on a constructed board the number of occupied squares is four
    more than the number of recorded moves, the recorded locations are all
    different, each was played by X or O, and each is an occupied square of
    the current board. *)
Theorem history_matches_board (size playerCount : Z) (b : Board)
    (trace : list (Z * LegalMoveMap)) (g : Game) :
  Board_new size = Return b →
  plays playerCount (new_game b) trace g →
  countOwned (theBoard g) 1 + countOwned (theBoard g) 2 =
    4 + Z.of_nat (length (gameHistory g)) ∧
  countEmpty (theBoard g) = size * size - 4 - Z.of_nat (length (gameHistory g)) ∧
  NoDup (theLocation <$> gameHistory g) ∧
  (∀ move, move ∈ gameHistory g →
     is_player (thePlayer move) ∧
     ∃ v, owner (theBoard g) (theLocation move) = Some v ∧ v ≠ 0).
Proof.
  intros Hnew Hplays.
  destruct (plays_facts size playerCount b trace g Hnew Hplays)
    as (Hcount & _ & Hnodup & Hhist).
  split; [done|]. split; [|done].
  pose proof (plays_reached size playerCount b trace g Hnew Hplays) as Hreached.
  destruct (reached_invariant size _ Hreached) as (Hsize & Hmax & Hwf & Hvalid).
  pose proof (valid_cells_count _ Hvalid) as Hsum.
  rewrite (wf_board_size _ Hwf), Hmax in Hsum by lia. lia.
Qed.

(** X9. The check on the length of the history never answers that no
    move is left: at every point of a game started on a constructed board
    the history holds at most [size * size - 4] moves, four squares being
    occupied before the first move, so [areValidMovesLeftForPlayer]
    returns true, whoever is to play - even when the game is over - as
    long as [size * size] fits an [int]; when it does not, the product
    overflows and the call is undefined. *)
Theorem areValidMovesLeftForPlayer_never_false (size playerCount : Z) (b : Board)
    (trace : list (Z * LegalMoveMap)) (g : Game) (player : Z) :
  Board_new size = Return b →
  plays playerCount (new_game b) trace g →
  areValidMovesLeftForPlayer (theBoard g) (gameHistory g) player =
    (if size * size <=? int_max then Return true else Undefined) ∧
  Z.of_nat (length (gameHistory g)) ≤ size * size - 4.
Proof.
  intros Hnew Hplays.
  destruct (plays_facts size playerCount b trace g Hnew Hplays) as (Hcount & _).
  pose proof (plays_reached size playerCount b trace g Hnew Hplays) as Hreached.
  destruct (reached_invariant size _ Hreached) as (Hsize & Hmax & Hwf & Hvalid).
  pose proof (valid_cells_count _ Hvalid) as Hsum.
  rewrite (wf_board_size _ Hwf), Hmax in Hsum by lia.
  pose proof (count_if_nonneg (λ pair : Position * BoardSquare, isEmpty pair.2)
                (map_entries (board (theBoard g)))) as Hempty.
  fold (countEmpty (theBoard g)) in Hempty.
  split; [|lia]. unfold areValidMovesLeftForPlayer, int_mul. rewrite Hmax.
  assert (0 ≤ size * size) as Hsquare by nia.
  destruct (Z.leb_spec int_min (size * size)) as [_|Hlow];
    [|unfold int_min in Hlow; lia].
  destruct (Z.leb_spec (size * size) int_max) as [Hfits|Hover];
    cbn [andb obind]; [|reflexivity].
  unfold to_size_t. rewrite Z.mod_small by (unfold int_max in Hfits; lia).
  destruct (Z.leb_spec (size * size) (Z.of_nat (length (gameHistory g))));
    [lia|reflexivity].
Qed.

(** X10. A game is short: at every point of a game started on a
    constructed board at most [size * size - 4] moves have been played and
    at most [2 * (size * size - 4) + 1] turns, passes included, have been
    taken. *)
Theorem game_length_bound (size playerCount : Z) (b : Board)
    (trace : list (Z * LegalMoveMap)) (g : Game) :
  Board_new size = Return b →
  plays playerCount (new_game b) trace g →
  Z.of_nat (length (gameHistory g)) ≤ size * size - 4 ∧
  Z.of_nat (length trace) ≤ 2 * (size * size - 4) + 1.
Proof.
  intros Hnew Hplays.
  destruct (plays_facts size playerCount b trace g Hnew Hplays)
    as (Hcount & Hlen & _).
  pose proof (plays_reached size playerCount b trace g Hnew Hplays) as Hreached.
  destruct (reached_invariant size _ Hreached) as (Hsize & Hmax & Hwf & Hvalid).
  pose proof (valid_cells_count _ Hvalid) as Hsum.
  rewrite (wf_board_size _ Hwf), Hmax in Hsum by lia.
  pose proof (count_if_nonneg (λ pair : Position * BoardSquare, isEmpty pair.2)
                (map_entries (board (theBoard g)))) as Hempty.
  fold (countEmpty (theBoard g)) in Hempty.
  destruct (prevPlayerMoved g); lia.
Qed.

Lemma sample_plays : plays 2 (new_game (seeded 4)) sample_end.1 sample_end.2.
Proof.
  apply (play_trace_plays 2 (new_game (seeded 4)) sample_game
           (new_game (seeded 4)) [] sample_end (plays_start 2 _)).
  vm_compute. reflexivity.
Qed.

Lemma history_matches_board_witness :
  Board_new 4 = Return (seeded 4) ∧
  length (gameHistory sample_end.2) = 12%nat ∧
  countOwned (theBoard sample_end.2) 1 + countOwned (theBoard sample_end.2) 2 =
    4 + Z.of_nat (length (gameHistory sample_end.2)).
Proof.
  assert (Board_new 4 = Return (seeded 4)) as Hnew by (vm_compute; reflexivity).
  split; [done|]. split; [vm_compute; reflexivity|].
  apply (history_matches_board 4 2 (seeded 4) sample_end.1 sample_end.2 Hnew
           sample_plays).
Defined.

Lemma areValidMovesLeftForPlayer_never_false_witness :
  Board_new 4 = Return (seeded 4) ∧
  areValidMovesLeftForPlayer (theBoard sample_end.2) (gameHistory sample_end.2) 1
    = Return true.
Proof.
  assert (Board_new 4 = Return (seeded 4)) as Hnew by (vm_compute; reflexivity).
  split; [exact Hnew|].
  exact (proj1 (areValidMovesLeftForPlayer_never_false 4 2 (seeded 4) sample_end.1
                  sample_end.2 1 Hnew sample_plays)).
Defined.

Lemma game_length_bound_witness :
  Board_new 4 = Return (seeded 4) ∧
  length sample_end.1 = 14%nat ∧
  Z.of_nat (length sample_end.1) ≤ 2 * (4 * 4 - 4) + 1.
Proof.
  assert (Board_new 4 = Return (seeded 4)) as Hnew by (vm_compute; reflexivity).
  split; [done|]. split; [vm_compute; reflexivity|].
  apply (game_length_bound 4 2 (seeded 4) sample_end.1 sample_end.2 Hnew
           sample_plays).
Defined.

Lemma getAIMove_key (validMoves : LegalMoveMap) (rand1 rand2 : nat) :
  validMoves ≠ ∅ →
  ∃ move, getAIMove validMoves rand1 rand2 = Return move ∧
          is_Some (validMoves !! move).
Proof.
  intros Hne. destruct (decide (rand1 mod 2 = 0)%nat) as [Heven|Hodd].
  - destruct (getAIMove_heads validMoves rand1 rand2 Hne Heven) as (x & Hx & ->).
    exists x.2. split; [done|].
    apply list_elem_of_lookup_2, elem_of_moves in Hx as (S & HS & _). by exists S.
  - destruct (getAIMove_tails validMoves rand1 rand2 Hne Hodd)
      as (x & Hx & _ & ->).
    exists x.2. split; [done|].
    apply elem_of_moves in Hx as (S & HS & _). by exists S.
Qed.

Lemma getPlayerMove_key (b : Board) (validMoves : LegalMoveMap)
    (typed : list (option Position)) :
  getPlayerMove b validMoves typed = Diverge ∨
  (getPlayerMove b validMoves typed = Undefined ∧ Exists overflows typed) ∨
  ∃ location, getPlayerMove b validMoves typed = Return location ∧
              is_Some (validMoves !! location).
Proof.
  pose proof (getPlayerMove_outcome b validMoves typed) as Hcall.
  destruct (getPlayerMove b validMoves typed) as [location|e| |];
    [|destruct Hcall|by left|].
  - right; right. exists location. split; [reflexivity|].
    apply elem_of_dom, Hcall.
  - right; left. split; [reflexivity|].
    destruct Hcall as (before & entry & after & -> & Hover & _).
    apply Exists_app. right. by left.
Qed.

Lemma getPlayerMove_Diverge (b : Board) (validMoves : LegalMoveMap)
    (typed : list (option Position)) :
  getPlayerMove b validMoves typed = Diverge →
  Forall (λ e, ¬ accepted b validMoves e) typed.
Proof.
  intros Hwait. pose proof (getPlayerMove_outcome b validMoves typed) as Hcall.
  rewrite Hwait in Hcall. eapply Forall_impl; [exact Hcall|].
  by intros e [Hacc _].
Qed.

(** A turn on a well-formed board returns, unless a human is asked and no
    typed entry is accepted, or one of them overflows. *)
Lemma turn_outcome (playerCount : Z) (input : TurnInput) (g : Game) :
  wf_board (theBoard g) →
  (turn playerCount input g = Diverge ∧
   ¬ (currentPlayer g = 2 ∧ playerCount = 1)) ∨
  (turn playerCount input g = Undefined ∧
   ¬ (currentPlayer g = 2 ∧ playerCount = 1) ∧
   Exists overflows (typed input)) ∨
  (∃ v, turn playerCount input g = Return (GameOver v)) ∨
  (∃ g', turn playerCount input g = Return (Continue g') ∧
         wf_board (theBoard g')).
Proof.
  intros Hwf. unfold turn.
  destruct (getValidMoves_lookup (theBoard g) (currentPlayer g) Hwf)
    as (validMoves & Hmoves & _).
  rewrite Hmoves. cbn [obind].
  destruct (size validMoves =? 0)%nat eqn:Hsize.
  { destruct (prevPlayerMoved g); cbn; right; right; [right|left]; by eexists. }
  assert (validMoves ≠ ∅) as Hne.
  { intros ->. by rewrite map_size_empty in Hsize. }
  assert (∀ playerMove,
            is_Some (validMoves !! playerMove) →
            ∃ g', match validMoves !! playerMove with
                  | Some toFlip =>
                      match placePiece playerMove (currentPlayer g) toFlip
                                       (theBoard g) with
                      | (b', Return _) =>
                          Return (Continue (mkGame (nextPlayer g) (currentPlayer g)
                                    true b'
                                    (mkPlayerMove (currentPlayer g) playerMove
                                       :: gameHistory g)))
                      | (_, Throw e) => Throw e
                      | (_, Diverge) => Diverge
                      | (_, Undefined) => Undefined
                      end
                  | None => Throw OutOfRange
                  end = Return (Continue g') ∧ wf_board (theBoard g')) as Hplace.
  { intros playerMove [toFlip Hkey]. rewrite Hkey.
    destruct (legal_move_placed (theBoard g) (currentPlayer g) validMoves
                playerMove toFlip Hwf Hmoves Hkey)
      as (_ & _ & _ & _ & b' & Hplace & _).
    rewrite Hplace. eexists. split; [done|]. cbn.
    pose proof (placePiece_wf playerMove (currentPlayer g) toFlip _ Hwf) as Hwf'.
    by rewrite Hplace in Hwf'. }
  destruct ((currentPlayer g =? 2) && (playerCount =? 1)) eqn:Hai.
  - destruct (getAIMove_key validMoves (rand1 input) (rand2 input) Hne)
      as (move & -> & Hkey).
    cbn [obind]. right; right; right. by apply Hplace.
  - assert (¬ (currentPlayer g = 2 ∧ playerCount = 1)) as Hhuman.
    { intros [Hcur Hcount]. rewrite Hcur, Hcount in Hai. done. }
    destruct (getPlayerMove_key (theBoard g) validMoves (typed input))
      as [->|[[-> Hover]|(location & -> & Hkey)]]; cbn [obind].
    + by left.
    + right; left. by split.
    + right; right; right. by apply Hplace.
Qed.

(** X11. On a well-formed board a turn never throws: it ends the game, or
    hands a well-formed board to the other player, or - only when the move
    is asked of a human and no typed entry is accepted - it is still
    waiting for input.  Its behaviour is undefined only when the move is
    asked of a human who types the least [int] as a row or a column. *)
Theorem turn_never_throws (playerCount : Z) (input : TurnInput) (g : Game) :
  wf_board (theBoard g) →
  match turn playerCount input g with
  | Return (GameOver v) => v = showWinner (theBoard g)
  | Return (Continue g') =>
      wf_board (theBoard g') ∧
      currentPlayer g' = nextPlayer g ∧ nextPlayer g' = currentPlayer g
  | Diverge =>
      ¬ (currentPlayer g = 2 ∧ playerCount = 1) ∧
      Forall (λ e, ¬ accepted (theBoard g)
                      (match getValidMoves (theBoard g) (currentPlayer g) with
                       | Return validMoves => validMoves
                       | _ => ∅
                       end) e) (typed input)
  | Undefined =>
      ¬ (currentPlayer g = 2 ∧ playerCount = 1) ∧
      Exists overflows (typed input)
  | Throw _ => False
  end.
Proof.
  intros Hwf.
  destruct (turn_outcome playerCount input g Hwf)
    as [[Hdiv Hhuman]|[(Hundef & Hhuman & Hover)
                      |[[v Hover]|(g' & Hcont & Hwf')]]].
  - rewrite Hdiv. split; [done|].
    unfold turn in Hdiv.
    destruct (getValidMoves_lookup (theBoard g) (currentPlayer g) Hwf)
      as (validMoves & Hmoves & _).
    rewrite Hmoves in Hdiv |- *. cbn [obind] in Hdiv.
    destruct (size validMoves =? 0)%nat; [by destruct (prevPlayerMoved g)|].
    destruct ((currentPlayer g =? 2) && (playerCount =? 1)) eqn:Hai.
    { exfalso. apply Hhuman. lia. }
    destruct (getPlayerMove_key (theBoard g) validMoves (typed input))
      as [Hwait|[[Hundef _]|(location & Hloc & [toFlip Hkey])]].
    + by apply getPlayerMove_Diverge.
    + exfalso. by rewrite Hundef in Hdiv.
    + exfalso. rewrite Hloc in Hdiv. cbn [obind] in Hdiv. rewrite Hkey in Hdiv.
      destruct (legal_move_placed (theBoard g) (currentPlayer g) validMoves
                  location toFlip Hwf Hmoves Hkey)
        as (_ & _ & _ & _ & b' & Hplace & _).
      by rewrite Hplace in Hdiv.
  - rewrite Hundef. by split.
  - rewrite Hover. by apply turn_GameOver in Hover as (_ & _ & ->).
  - rewrite Hcont. split; [done|].
    apply turn_Continue in Hcont as (validMoves & _ & Hcase).
    by destruct Hcase as [(_ & _ & ->)|(_ & ? & ? & ? & _ & _ & ->)].
Qed.

Lemma turn_never_throws_witness :
  wf_board (theBoard (new_game (seeded 4))) ∧
  ∃ g', turn 2 (mkTurnInput [Some (9, 9); Some (1, 3)] 0 0) (new_game (seeded 4))
          = Return (Continue g') ∧
        wf_board (theBoard g') ∧ currentPlayer g' = 2.
Proof.
  assert (wf_board (theBoard (new_game (seeded 4)))) as Hwf by reflexivity.
  split; [done|].
  pose proof (turn_never_throws 2 (mkTurnInput [Some (9, 9); Some (1, 3)] 0 0)
                (new_game (seeded 4)) Hwf) as Hturn.
  destruct (turn 2 _ (new_game (seeded 4))) as [[g'|v]| | |] eqn:Heq;
    try (exfalso; vm_compute in Heq; discriminate Heq).
  exists g'. split; [done|]. destruct Hturn as (Hwf' & Hcur & _). by split.
Defined.

Lemma getBoardSize_ge (typed : list Z) (size : Z) :
  getBoardSize typed = Return size → 4 ≤ size.
Proof.
  induction typed as [|z typed IH]; cbn [getBoardSize]; [done|].
  destruct (Z.ltb_spec z 4); [done|]. by intros [= <-].
Qed.

Lemma play_loop_outcome (playerCount : Z) (inputs : list TurnInput) (g : Game) :
  wf_board (theBoard g) →
  play_loop playerCount inputs g = Diverge ∨
  (play_loop playerCount inputs g = Undefined ∧
   Exists (λ input, Exists overflows (typed input)) inputs) ∨
  ∃ v, play_loop playerCount inputs g = Return v.
Proof.
  revert g. induction inputs as [|input inputs IH]; intros g Hwf;
    cbn [play_loop]; [by left|].
  destruct (turn_outcome playerCount input g Hwf)
    as [[-> _]|[(-> & _ & Hover)|[[v ->]|(g' & -> & Hwf')]]]; cbn [obind].
  - by left.
  - right; left. split; [reflexivity|]. by left.
  - right; right. by exists v.
  - destruct (IH g' Hwf') as [Hd|[[Hu Hover]|Hv]].
    + by left.
    + right; left. split; [assumption|]. by right.
    + by right; right.
Qed.

(** X12. What a game can come to: for every size, number of players and
    inputs, [playGame] throws the invalid-size error of the constructor -
    nothing else - when the size is less than 4, and otherwise returns a
    verdict or is still waiting for input, unless in some turn the least
    [int] is typed as a row or a column, the only case in which its
    behaviour can be undefined.  With a size that [getBoardSize] returned
    it never throws. *)
Theorem playGame_outcome (maxBoardSize playerCount : Z)
    (inputs : list TurnInput) :
  match playGame maxBoardSize playerCount inputs with
  | Return _ | Diverge => 4 ≤ maxBoardSize
  | Throw e => e = InvalidSize ∧ maxBoardSize < 4
  | Undefined =>
      4 ≤ maxBoardSize ∧
      Exists (λ input, Exists overflows (typed input)) inputs
  end ∧
  (∀ sizes, getBoardSize sizes = Return maxBoardSize →
     ∀ e, playGame maxBoardSize playerCount inputs ≠ Throw e) ∧
  (Forall (λ input, Forall (λ e, ¬ overflows e) (typed input)) inputs →
   playGame maxBoardSize playerCount inputs ≠ Undefined).
Proof.
  assert (∀ l : list TurnInput,
            Forall (λ input, Forall (λ e, ¬ overflows e) (typed input)) l →
            ¬ Exists (λ input, Exists overflows (typed input)) l) as Hfine.
  { intros l Hall Hex. apply Exists_exists in Hex as (input & Hin & Hover).
    rewrite Forall_forall in Hall. specialize (Hall input Hin).
    apply Exists_exists in Hover as (e & He & Hover).
    rewrite Forall_forall in Hall. by apply (Hall e He). }
  unfold playGame.
  destruct (Z.lt_ge_cases maxBoardSize 4) as [Hlt|Hge].
  - assert (Board_new maxBoardSize = Throw InvalidSize) as ->.
    { unfold Board_new. by destruct (Z.ltb_spec maxBoardSize 4); [|lia]. }
    cbn [obind]. split; [done|]. split; [|done].
    intros sizes Hsize%getBoardSize_ge. lia.
  - rewrite (Board_new_seeded maxBoardSize Hge). cbn [obind].
    destruct (play_loop_outcome playerCount inputs (new_game (seeded maxBoardSize)))
      as [Hd|[[Hu Hover]|[v Hv]]]; [by apply seeded_wf| | |].
    + rewrite Hd. done.
    + rewrite Hu. split; [done|]. split; [done|].
      intros Hall. by destruct (Hfine inputs Hall).
    + rewrite Hv. done.
Qed.

(** ** The list of the selector *)

Lemma key_le_total {A} (x y : Position * A) : key_le x y ∨ key_le y x.
Proof. apply pair_le_total. Qed.

#[global] Instance key_le_Total {A} : Total (@key_le A).
Proof. intros x y. apply key_le_total. Qed.

#[global] Instance key_le_Transitive {A} : Transitive (@key_le A).
Proof. intros x y z. apply pair_le_trans. Qed.

Lemma map_entries_sorted {A} (m : gmap Position A) :
  StronglySorted key_le (map_entries m).
Proof. apply StronglySorted_merge_sort; apply _. Qed.

Lemma sort_insert_sorted (x : ScoredMove) (l : list ScoredMove) :
  StronglySorted move_order l →
  (∀ z, z ∈ l → pair_le x.2 z.2) →
  StronglySorted move_order (sort_insert (λ a b : ScoredMove, b.1 <? a.1) x l).
Proof.
  induction l as [|y l IH]; intros Hsorted Hkeys; cbn [sort_insert].
  - repeat constructor.
  - apply StronglySorted_inv in Hsorted as [Hsorted Hall].
    rewrite Forall_forall in Hall.
    destruct (Z.ltb_spec x.1 y.1) as [Hlt|Hge].
    + constructor.
      * apply IH; [done|]. intros z Hz. apply Hkeys. by right.
      * apply Forall_forall. intros z Hz.
        rewrite sort_insert_perm in Hz. apply elem_of_cons in Hz as [->|Hz].
        -- by left.
        -- by apply Hall.
    + constructor; [by constructor; [|apply Forall_forall]|].
      apply Forall_forall. intros z Hz.
      assert (z.1 ≤ y.1) as Hzy.
      { apply elem_of_cons in Hz as [->|Hz]; [lia|].
        destruct (Hall z Hz) as [?|[? _]]; lia. }
      specialize (Hkeys z Hz). unfold move_order.
      destruct (decide (z.1 = x.1)); [right; by split|left; lia].
Qed.

Lemma list_sort_sorted (l : list ScoredMove) :
  StronglySorted (λ a b : ScoredMove, pair_le a.2 b.2) l →
  StronglySorted move_order (list_sort (λ a b : ScoredMove, b.1 <? a.1) l).
Proof.
  induction l as [|x l IH]; intros Hsorted; cbn; [constructor|].
  apply StronglySorted_inv in Hsorted as [Hsorted Hall].
  apply sort_insert_sorted; [by apply IH|].
  intros z Hz. fold (list_sort (λ a b : ScoredMove, b.1 <? a.1) l) in Hz.
  rewrite list_sort_perm in Hz. rewrite Forall_forall in Hall. by apply Hall.
Qed.

Lemma sorted_moves_sorted (validMoves : LegalMoveMap) :
  StronglySorted move_order (sorted_moves validMoves).
Proof.
  unfold sorted_moves. apply list_sort_sorted. rewrite foldl_push_back. cbn [app].
  pose proof (map_entries_sorted validMoves) as Hsorted.
  induction Hsorted as [|move l Hsorted IH Hall]; cbn; constructor; [done|].
  rewrite Forall_fmap. eapply Forall_impl; [exact Hall|]. by intros z Hz.
Qed.

(** X13. The list that [getAIMove] sorts ends up ordered by decreasing
    number of flips and, for equal numbers, by increasing (row, col). So on
    the random branch, when the second draw is a multiple of the number of
    legal moves, the move returned has a capture set of the greatest size
    and is the first such move in row-major order. *)
Theorem getAIMove_sorted_list (validMoves : LegalMoveMap) :
  validMoves ≠ ∅ →
  StronglySorted move_order (sorted_moves validMoves) ∧
  ∀ rand1 rand2,
    (rand1 mod 2 = 0)%nat → (rand2 mod size validMoves = 0)%nat →
    ∃ move S, getAIMove validMoves rand1 rand2 = Return move ∧
      validMoves !! move = Some S ∧
      ∀ key S', validMoves !! key = Some S' →
        (size S' ≤ size S)%nat ∧ (size S' = size S → pair_le move key).
Proof.
  intros Hne. pose proof (sorted_moves_sorted validMoves) as Hsorted.
  split; [done|]. intros rand1 rand2 Heven Hzero.
  destruct (getAIMove_heads validMoves rand1 rand2 Hne Heven) as (x & Hx & ->).
  rewrite Hzero in Hx.
  destruct (sorted_moves validMoves) as [|x0 rest] eqn:Hlist; [done|].
  injection Hx as ->.
  assert (x ∈ sorted_moves validMoves) as Hin by (rewrite Hlist; left).
  apply elem_of_moves in Hin as (S & HS & Hsize).
  exists x.2, S. split; [done|]. split; [done|]. intros key S' HS'.
  assert ((Z.of_nat (size S'), key) ∈ sorted_moves validMoves) as Hkey.
  { apply elem_of_moves. by exists S'. }
  rewrite Hlist in Hkey. apply elem_of_cons in Hkey as [Heq|Hkey].
  { rewrite <- Heq in *. cbn in *. split; [lia|]. intros _. unfold pair_le. lia. }
  apply StronglySorted_inv in Hsorted as [_ Hall].
  rewrite Forall_forall in Hall. destruct (Hall _ Hkey) as [Hlt|[Heq Hle]];
    cbn in *; [lia|]. split; [lia|done].
Qed.

Lemma getAIMove_sorted_list_witness :
  let validMoves : LegalMoveMap :=
    <[(0, 1) := {[ (1, 1) ]}]>
      (<[(0, 3) := {[ (1, 2) ]}]> (<[(2, 3) := {[ (2, 2) ]}]> ∅)) in
  validMoves ≠ ∅ ∧
  getAIMove validMoves 0 3 = Return (0, 1) ∧
  ∃ move S, getAIMove validMoves 0 3 = Return move ∧
            validMoves !! move = Some S.
Proof.
  cbn zeta.
  assert ((<[(0, 1) := {[ (1, 1) ]}]>
             (<[(0, 3) := {[ (1, 2) ]}]> (<[(2, 3) := {[ (2, 2) ]}]> ∅))
           : LegalMoveMap) ≠ ∅) as Hne by apply insert_non_empty.
  split; [done|]. split; [vm_compute; reflexivity|].
  destruct (getAIMove_sorted_list _ Hne) as [_ Hpick].
  destruct (Hpick 0%nat 3%nat) as (move & S & Hmove & HS & _);
    [reflexivity|reflexivity|].
  by exists move, S.
Defined.

(** ** The prompts before the game *)


(** ** The check of a typed square *)

(** X15. [isPlayerMoveValid] only looks at whether the square is empty: it
    throws out-of-range off the board and otherwise answers whether the
    square holds 0. Every legal move of a well-formed board passes it, for
    whatever player is named, but passing it does not make a move legal:
    on the opening 4x4 board the corner (0,0) passes and is no legal move
    of X. *)
Theorem isPlayerMoveValid_weaker_than_legal :
  (∀ (b : Board) (player : Z) (location : Position),
     isPlayerMoveValid b player location =
       match owner b location with
       | None => Throw OutOfRange
       | Some v => Return (v =? 0)
       end) ∧
  (∀ (b : Board) (player player' : Z) (m : LegalMoveMap) (location : Position),
     wf_board b → getValidMoves b player = Return m → location ∈ dom m →
     isPlayerMoveValid b player' location = Return true) ∧
  (∃ m, getValidMoves (seeded 4) 1 = Return m ∧
        isPlayerMoveValid (seeded 4) 1 (0, 0) = Return true ∧
        (0, 0) ∉ dom m).
Proof.
  assert (∀ (b : Board) (player : Z) (location : Position),
            isPlayerMoveValid b player location =
              match owner b location with
              | None => Throw OutOfRange
              | Some v => Return (v =? 0)
              end) as Hspec.
  { intros b player location.
    unfold isPlayerMoveValid, getBoardPlaceValue, owner.
    destruct (board b !! location) as [sq|]; [|done]. cbn.
    by destruct (getValue sq =? 0). }
  split; [done|]. split.
  - intros b player player' m location Hwf Hm [S HS]%elem_of_dom.
    destruct (getValidMoves_lookup b player Hwf) as (m' & Hm' & Hlookup).
    rewrite Hm in Hm'. injection Hm' as <-.
    apply Hlookup in HS as (Hown & _). by rewrite Hspec, Hown.
  - eexists. split; [vm_compute; reflexivity|]. split; [reflexivity|].
    apply not_elem_of_dom. reflexivity.
Qed.

(** ** Termination of the scan *)


(** ** The opening of the game *)

Lemma center_room (size : Z) :
  4 ≤ size → 2 ≤ size ÷ 2 ∧ size ÷ 2 + 1 < size ∧ size ÷ 2 = size `div` 2.
Proof.
  intros Hsize. rewrite Z.quot_div_nonneg by lia.
  pose proof (Z.div_mod size 2 ltac:(lia)).
  pose proof (Z.mod_pos_bound size 2 ltac:(lia)). lia.
Qed.

Lemma seeded_owner (size : Z) (r k : Z) :
  4 ≤ size →
  owner (seeded size) (r, k) =
  let c := size ÷ 2 in
  if decide ((r = c ∧ k = c) ∨ (r = c - 1 ∧ k = c - 1)) then Some 1
  else if decide ((r = c ∧ k = c - 1) ∨ (r = c - 1 ∧ k = c)) then Some 2
  else if decide (0 ≤ r < size ∧ 0 ≤ k < size) then Some 0
  else None.
Proof.
  intros Hsize. unfold owner. rewrite seeded_lookup. cbn zeta.
  repeat case_decide; simplify_eq; try done; exfalso; split_pair_ne; lia.
Qed.

(** The capture runs of X on a new board. *)
Lemma opening_run (size : Z) (r col : Z) (direction : Position) (k : Z) :
  4 ≤ size → direction ∈ directions →
  capture_run (seeded size) 1 (r, col) direction k ↔
  k = 1 ∧
  let c := size ÷ 2 in
  ((r = c - 2 ∧ col = c ∧ direction.1 = 1 ∧ direction.2 = 0) ∨
   (r = c - 1 ∧ col = c + 1 ∧ direction.1 = 0 ∧ direction.2 = -1) ∨
   (r = c ∧ col = c - 2 ∧ direction.1 = 0 ∧ direction.2 = 1) ∨
   (r = c + 1 ∧ col = c - 1 ∧ direction.1 = -1 ∧ direction.2 = 0)).
Proof.
  intros Hsize Hdir. destruct (center_room size Hsize) as (Hc2 & Hc1 & _).
  cbn zeta. set (c := size ÷ 2) in *.
  assert (∀ i v, owner (seeded size) (ray (r, col) direction i) = Some v →
            v ≠ 0 →
            let p := ray (r, col) direction i in
            (v = 1 ∧ ((p.1 = c ∧ p.2 = c) ∨ (p.1 = c - 1 ∧ p.2 = c - 1))) ∨
            (v = 2 ∧ ((p.1 = c ∧ p.2 = c - 1) ∨ (p.1 = c - 1 ∧ p.2 = c))))
    as Hpiece.
  { intros i v. cbn zeta. destruct (ray (r, col) direction i) as [pr pc] eqn:Hray.
    rewrite seeded_owner by done. cbn zeta. fold c.
    repeat case_decide; intros [= <-] Hv; cbn; try done; [left|right]; done. }
  unfold capture_run, opponent_of. cbn [Z.eqb Pos.eqb].
  split.
  - intros (Hk & Hcells & Hanchor).
    pose proof (Hpiece 1 2 (Hcells 1 ltac:(lia)) ltac:(lia)) as H1.
    destruct (decide (k = 1)) as [->|Hk1].
    + split; [done|].
      pose proof (Hpiece 2 1 Hanchor ltac:(lia)) as H2.
      unfold directions in Hdir. rewrite !elem_of_cons in Hdir.
      unfold ray in *. cbn in *.
      destruct Hdir as [->|[->|[->|[->|[->|[->|[->|[->|Hd]]]]]]]];
        [cbn in *; lia..|inversion Hd].
    + exfalso.
      pose proof (Hpiece 2 2 (Hcells 2 ltac:(lia)) ltac:(lia)) as H2.
      assert (∃ v, owner (seeded size) (ray (r, col) direction 3) = Some v ∧ v ≠ 0)
        as (v & Hv & Hv0).
      { destruct (decide (k = 2)) as [->|]; [by exists 1|].
        exists 2. split; [apply Hcells; lia|done]. }
      pose proof (Hpiece 3 v Hv Hv0) as H3.
      unfold directions in Hdir. rewrite !elem_of_cons in Hdir.
      unfold ray in *. cbn in *.
      destruct Hdir as [->|[->|[->|[->|[->|[->|[->|[->|Hd]]]]]]]];
        [cbn in *; lia..|inversion Hd].
  - intros [-> Hcase]. split; [done|].
    assert (∀ i, 1 ≤ i ≤ 1 → i = 1) as Hone by lia.
    destruct direction as [d1 d2]. cbn [fst snd] in Hcase.
    destruct Hcase as [(-> & -> & -> & ->)|[(-> & -> & -> & ->)
                      |[(-> & -> & -> & ->)|(-> & -> & -> & ->)]]];
      (split; [intros i ->%Hone|]); unfold ray; cbn [fst snd];
      rewrite seeded_owner by done; cbn zeta; fold c;
      repeat (case_decide; try done; try lia).
Qed.

(** X17. The opening, for every size: on the board that the constructor
    builds for a size of at least 4, with [c] the floor of [size / 2], X
    has exactly four legal moves, (c-2,c), (c-1,c+1), (c,c-2) and
    (c+1,c-1), and each captures exactly the O piece next to it. *)
Theorem opening_moves (size : Z) :
  4 ≤ size →
  ∃ b, Board_new size = Return b ∧
    let c := size `div` 2 in
    getValidMoves b 1 =
      Return (<[(c - 2, c) := {[ (c - 1, c) ]}]>
              (<[(c - 1, c + 1) := {[ (c - 1, c) ]}]>
               (<[(c, c - 2) := {[ (c, c - 1) ]}]>
                (<[(c + 1, c - 1) := {[ (c, c - 1) ]}]> ∅)))).
Proof.
  intros Hsize. exists (seeded size). split; [by apply Board_new_seeded|].
  destruct (center_room size Hsize) as (Hc2 & Hc1 & <-).
  cbn zeta. set (c := size ÷ 2) in *.
  pose proof (seeded_wf size Hsize) as Hwf.
  destruct (getValidMoves_lookup (seeded size) 1 Hwf) as (m & -> & Hlookup).
  f_equal. apply map_eq. intros [r col].
  (* the capture set of any square *)
  assert (∀ q, q ∈ capture_union (seeded size) (r, col) 1 ↔
            (r = c - 2 ∧ col = c ∧ q = (c - 1, c)) ∨
            (r = c - 1 ∧ col = c + 1 ∧ q = (c - 1, c)) ∨
            (r = c ∧ col = c - 2 ∧ q = (c, c - 1)) ∨
            (r = c + 1 ∧ col = c - 1 ∧ q = (c, c - 1))) as Hunion.
  { intros q. rewrite (elem_of_capture_union _ _ _ _ Hwf). split.
    - intros (d & k & Hd & Hrun & Hq).
      apply (opening_run size r col d k Hsize Hd) in Hrun as [-> Hcase].
      apply elem_of_run_cells in Hq as (i & Hi & ->).
      assert (i = 1) as -> by lia. cbn zeta in Hcase. fold c in Hcase.
      destruct d as [d1 d2]. unfold ray. cbn in *.
      destruct Hcase as [(-> & -> & -> & ->)|[(-> & -> & -> & ->)
                        |[(-> & -> & -> & ->)|(-> & -> & -> & ->)]]];
        cbn; [left|right; left|right; right; left|right; right; right];
        (split; [done|split; [done|f_equal; lia]]).
    - intros Hcase.
      assert (∃ d, d ∈ directions ∧ capture_run (seeded size) 1 (r, col) d 1 ∧
                   q = ray (r, col) d 1) as (d & Hd & Hrun & ->).
      { destruct Hcase as [(-> & -> & ->)|[(-> & -> & ->)|[(-> & -> & ->)|(-> & -> & ->)]]];
          [exists (1, 0)|exists (0, -1)|exists (0, 1)|exists (-1, 0)];
          (split; [repeat constructor|]);
          (split; [|unfold ray; cbn; f_equal; lia]);
          apply opening_run; try done; try (repeat constructor);
          (split; [done|]); cbn zeta; fold c; cbn; lia. }
      exists d, 1. split; [done|]. split; [done|].
      apply elem_of_run_cells. exists 1. split; [lia|done]. }
  (* the four squares are empty *)
  assert (∀ r' k', 0 ≤ r' < size → 0 ≤ k' < size →
            ¬ ((r' = c ∧ k' = c) ∨ (r' = c - 1 ∧ k' = c - 1)) →
            ¬ ((r' = c ∧ k' = c - 1) ∨ (r' = c - 1 ∧ k' = c)) →
            owner (seeded size) (r', k') = Some 0) as Hfree.
  { intros r' k' Hr' Hk' Hx Ho. rewrite seeded_owner by done. cbn zeta. fold c.
    rewrite decide_False by done. rewrite decide_False by done.
    by rewrite decide_True by done. }
  assert (∀ S cell,
            (∀ q, q ∈ capture_union (seeded size) (r, col) 1 ↔ q = cell) →
            owner (seeded size) (r, col) = Some 0 →
            (S = {[ cell ]} ↔ m !! (r, col) = Some S)) as Hentry.
  { intros S cell Hcell Hown.
    assert (capture_union (seeded size) (r, col) 1 = {[ cell ]}) as Heq.
    { apply set_eq. intros q. by rewrite Hcell, elem_of_singleton. }
    rewrite Hlookup, Heq. split.
    - intros ->. split; [done|]. split; [done|].
      intros Hempty. assert (cell ∈ (∅ : gset Position)) as Hin
        by (rewrite <- Hempty; by apply elem_of_singleton).
      by apply not_elem_of_empty in Hin.
    - by intros (_ & -> & _). }
  destruct (decide (r = c - 2 ∧ col = c)) as [[-> ->]|Hn1].
  { rewrite lookup_insert_eq. apply (Hentry _ (c - 1, c)); [|apply Hfree; lia|done].
    intros q. rewrite Hunion. split; [|intros ->; by left].
    intros [(_ & _ & ->)|[(? & _)|[(? & _)|(? & _)]]]; [done|lia..]. }
  rewrite lookup_insert_ne by (intros [=]; lia).
  destruct (decide (r = c - 1 ∧ col = c + 1)) as [[-> ->]|Hn2].
  { rewrite lookup_insert_eq. apply (Hentry _ (c - 1, c)); [|apply Hfree; lia|done].
    intros q. rewrite Hunion. split; [|intros ->; right; by left].
    intros [(? & _)|[(_ & _ & ->)|[(? & _)|(? & _)]]]; [lia|done|lia..]. }
  rewrite lookup_insert_ne by (intros [=]; lia).
  destruct (decide (r = c ∧ col = c - 2)) as [[-> ->]|Hn3].
  { rewrite lookup_insert_eq. apply (Hentry _ (c, c - 1)); [|apply Hfree; lia|done].
    intros q. rewrite Hunion. split; [|intros ->; right; right; by left].
    intros [(? & _)|[(? & _)|[(_ & _ & ->)|(? & _)]]]; [lia..|done|lia]. }
  rewrite lookup_insert_ne by (intros [=]; lia).
  destruct (decide (r = c + 1 ∧ col = c - 1)) as [[-> ->]|Hn4].
  { rewrite lookup_insert_eq. apply (Hentry _ (c, c - 1)); [|apply Hfree; lia|done].
    intros q. rewrite Hunion. split; [|intros ->; right; right; by right].
    intros [(? & _)|[(? & _)|[(? & _)|(_ & _ & ->)]]]; [lia..|done]. }
  rewrite lookup_insert_ne by (intros [=]; lia).
  rewrite lookup_empty. apply eq_None_not_Some. intros [S (_ & -> & Hne)%Hlookup].
  apply set_choose_L in Hne as [q Hq]. apply Hunion in Hq.
  destruct Hq as [(? & ? & _)|[(? & ? & _)|[(? & ? & _)|(? & ? & _)]]]; tauto.
Qed.

Lemma opening_moves_witness :
  4 ≤ 7 ∧
  ∃ b, Board_new 7 = Return b ∧
    getValidMoves b 1 =
      Return (<[(1, 3) := {[ (2, 3) ]}]>
              (<[(2, 4) := {[ (2, 3) ]}]>
               (<[(3, 1) := {[ (3, 2) ]}]>
                (<[(4, 2) := {[ (3, 2) ]}]> ∅)))).
Proof. split; [lia|]. apply (opening_moves 7). lia. Defined.

(** ** The picture of the board *)

Lemma print_square_valid (b : Board) (position : Position) (out : list Token) :
  is_Some (board b !! position) → valid_cells b →
  print_square b position out = (out ++ [square_text b position], Return tt).
Proof.
  intros [sq Hsq] Hvalid.
  unfold print_square, getBoardPlaceValue, square_text, owner, getValue.
  rewrite Hsq. cbn [fmap option_fmap option_map].
  by destruct (Hvalid _ _ Hsq) as [-> |[-> | ->]].
Qed.

Lemma print_row (b : Board) (row : Z) (cols : list Z) (out : list Token) :
  (∀ col, col ∈ cols → is_Some (board b !! (row, col))) → valid_cells b →
  for_each cols (λ col, print_square b (row, col)) out =
    (out ++ ((λ col, square_text b (row, col)) <$> cols), Return tt).
Proof.
  intros Hcols Hvalid. revert out.
  induction cols as [|col cols IH]; intros out; cbn [for_each fmap list_fmap].
  - unfold eret. by rewrite app_nil_r.
  - unfold ebind.
    rewrite print_square_valid by (try done; apply Hcols; by left).
    rewrite IH by (intros col' Hcol'; apply Hcols; by right).
    by rewrite <- app_assoc.
Qed.

Lemma print_rows (b : Board) (rows : list Z) (out : list Token) :
  (∀ row col, row ∈ rows → col ∈ seqZ 0 (maxBoardSize b) →
              is_Some (board b !! (row, col))) →
  valid_cells b →
  for_each rows (λ row,
    for_each (seqZ 0 (maxBoardSize b)) (λ col, print_square b (row, col)) ;;;
    put [Endl]) out =
    (out ++ mjoin (board_line b <$> rows), Return tt).
Proof.
  intros Hcells Hvalid. revert out.
  induction rows as [|row rows IH]; intros out; cbn [for_each fmap list_fmap].
  - unfold eret. cbn. by rewrite app_nil_r.
  - unfold ebind at 1. unfold ebind at 1.
    rewrite print_row; [|intros col Hcol; apply Hcells; [by left|done]|done].
    unfold put. rewrite IH by (intros r c Hr Hc; apply Hcells; [by right|done]).
    cbn. unfold board_line at 2. by rewrite <- !app_assoc.
Qed.

(** X18. The picture of the board: on a well-formed board whose squares
    hold 0, 1 or 2, [printBoard] returns normally after printing
    [maxBoardSize] lines of [maxBoardSize] items and an end of line; the
    item at line [r], column [c] is "X ", "O " or ". " as the square
    [(r, c)] holds X, O or nothing. *)
Theorem printBoard_picture (b : Board) :
  wf_board b → valid_cells b →
  ∃ out, printBoard b [] = (out, Return tt) ∧
    length out = (Z.to_nat (maxBoardSize b) * S (Z.to_nat (maxBoardSize b)))%nat ∧
    ∀ r : nat, (r < Z.to_nat (maxBoardSize b))%nat →
      out !! (r * S (Z.to_nat (maxBoardSize b)) + Z.to_nat (maxBoardSize b))%nat
        = Some Endl ∧
      ∀ c : nat, (c < Z.to_nat (maxBoardSize b))%nat →
        out !! (r * S (Z.to_nat (maxBoardSize b)) + c)%nat =
          Some (square_text b (Z.of_nat r, Z.of_nat c)).
Proof.
  intros Hwf Hvalid. set (N := maxBoardSize b).
  exists (mjoin (board_line b <$> seqZ 0 N)).
  assert (∀ row, length (board_line b row) = S (Z.to_nat N)) as Hline.
  { intros row. unfold board_line.
    rewrite length_app, length_fmap, length_seqZ. cbn. fold N. lia. }
  assert (Forall (λ l, length l = S (Z.to_nat N)) (board_line b <$> seqZ 0 N))
    as Hall.
  { apply Forall_fmap, Forall_forall. intros row _. apply Hline. }
  split; [|split].
  - subst N. unfold printBoard.
    rewrite (print_rows b (seqZ 0 (maxBoardSize b)) []); [done| |done].
    intros row col Hrow%elem_of_seqZ Hcol%elem_of_seqZ.
    apply (wf_board_lookup b (row, col) Hwf), in_bounds_spec. lia.
  - rewrite length_join.
    rewrite (sum_list_fmap_same (S (Z.to_nat N))) by done.
    by rewrite length_fmap, length_seqZ.
  - intros r Hr.
    assert ((board_line b <$> seqZ 0 N) !! r = Some (board_line b (Z.of_nat r)))
      as Hrow.
    { rewrite list_lookup_fmap, lookup_seqZ_lt by lia. done. }
    split.
    + apply (join_lookup_Some_same_length' _ _ _ _ _ Hall); [lia|].
      exists (board_line b (Z.of_nat r)). split; [done|].
      unfold board_line. fold N.
      rewrite lookup_app_r by (rewrite length_fmap, length_seqZ; lia).
      rewrite length_fmap, length_seqZ.
      by replace (Z.to_nat N - Z.to_nat N)%nat with 0%nat by lia.
    + intros c Hc.
      apply (join_lookup_Some_same_length' _ _ _ _ _ Hall); [lia|].
      exists (board_line b (Z.of_nat r)). split; [done|].
      unfold board_line. fold N.
      rewrite lookup_app_l by (rewrite length_fmap, length_seqZ; lia).
      rewrite list_lookup_fmap, lookup_seqZ_lt by lia. done.
Qed.

Lemma printBoard_picture_witness :
  wf_board (seeded 4) ∧ valid_cells (seeded 4) ∧
  ∃ out, printBoard (seeded 4) [] = (out, Return tt) ∧
         out !! 6%nat = Some (Text "X ") ∧ out !! 7%nat = Some (Text "O ") ∧
         out !! 9%nat = Some Endl.
Proof.
  assert (wf_board (seeded 4)) as Hwf by reflexivity.
  pose proof (seeded_valid_cells 4) as Hvalid.
  split; [done|]. split; [done|].
  destruct (printBoard_picture (seeded 4) Hwf Hvalid) as (out & Hout & _ & Hitems).
  exists out. split; [done|].
  destruct (Hitems 1%nat ltac:(cbn; lia)) as [Hend Hrow].
  split; [apply (Hrow 1%nat); cbn; lia|].
  split; [apply (Hrow 2%nat); cbn; lia|exact Hend].
Defined.

(** ** The end of the game *)

(** After a pass the player who passed is the next player, and has no legal
    move on the board as it stands. *)
Lemma plays_after_pass (playerCount : Z) (b : Board)
    (trace : list (Z * LegalMoveMap)) (g : Game) :
  plays playerCount (new_game b) trace g →
  prevPlayerMoved g = false →
  getValidMoves (theBoard g) (nextPlayer g) = Return ∅.
Proof.
  destruct 1 as [|trace g input validMoves g' _ Hmoves Hturn]; [done|].
  apply turn_Continue in Hturn as (validMoves' & Hmoves' & Hcase).
  by destruct Hcase as [(-> & _ & ->)|(_ & ? & ? & ? & _ & _ & ->)].
Qed.

Lemma play_loop_Return (playerCount : Z) (g0 : Game) (inputs : list TurnInput)
    (v : Verdict) :
  ∀ (trace : list (Z * LegalMoveMap)) (g : Game),
    plays playerCount g0 trace g →
    play_loop playerCount inputs g = Return v →
    ∃ trace' g' input,
      plays playerCount g0 trace' g' ∧
      turn playerCount input g' = Return (GameOver v).
Proof.
  induction inputs as [|input inputs IH]; intros trace g Hplays; [done|].
  cbn [play_loop].
  destruct (turn playerCount input g) as [[g'|v']| | |] eqn:Hturn; cbn [obind];
    try done.
  - apply (IH ((currentPlayer g,
                match getValidMoves (theBoard g) (currentPlayer g) with
                | Return validMoves => validMoves
                | _ => ∅
                end) :: trace) g').
    eapply plays_turn; [done| |done].
    apply turn_Continue in Hturn as (validMoves & -> & _). done.
  - intros [= ->]. by exists trace, g, input.
Qed.

(** X19. A game ends only when nobody can move: whenever [playGame]
    returns a verdict, it is the verdict of [showWinner] on a board reached
    from the constructor by passes and legal moves, and on that board
    neither X nor O has a legal move. *)
Theorem playGame_verdict (maxBoardSize playerCount : Z)
    (inputs : list TurnInput) (v : Verdict) :
  playGame maxBoardSize playerCount inputs = Return v →
  ∃ b, reached maxBoardSize b ∧ v = showWinner b ∧
       getValidMoves b 1 = Return ∅ ∧ getValidMoves b 2 = Return ∅.
Proof.
  unfold playGame.
  destruct (Board_new maxBoardSize) as [b0| | |] eqn:Hnew; cbn [obind]; try done.
  intros Hloop.
  destruct (play_loop_Return playerCount (new_game b0) inputs v [] (new_game b0)
              (plays_start _ _) Hloop) as (trace & g & input & Hplays & Hover).
  apply turn_GameOver in Hover as (Hmine & Hflag & ->).
  pose proof (plays_after_pass playerCount b0 trace g Hplays Hflag) as Htheirs.
  exists (theBoard g).
  split; [by apply (plays_reached _ playerCount b0 trace g)|]. split; [done|].
  destruct (plays_invariant playerCount b0 trace g Hplays)
    as ([[Hcur Hnext]|[Hcur Hnext]] & _);
    rewrite Hcur in Hmine; rewrite Hnext in Htheirs; by split.
Qed.

Lemma playGame_verdict_witness :
  playGame 4 2 (sample_game ++ [mkTurnInput [] 0 0]) = Return (XWins 12 4) ∧
  ∃ b, reached 4 b ∧ XWins 12 4 = showWinner b ∧
       getValidMoves b 1 = Return ∅ ∧ getValidMoves b 2 = Return ∅.
Proof.
  assert (playGame 4 2 (sample_game ++ [mkTurnInput [] 0 0]) = Return (XWins 12 4))
    as Hgame by (vm_compute; reflexivity).
  split; [done|]. apply (playGame_verdict 4 2 _ _ Hgame).
Defined.
